(** * source-probe: header/source utility analysis

    A shallow embedding of [source-probe.py] and the properties of its
    text normaliser, include parser, tag parser, transitive include
    resolver, utility scorer and entry point.

    Conventions of the embedding.
    - A Python [str] is a [text] (a list of characters).  A character
      is a code point from 0 to 255, held by [ascii]; the character
      classes [\w] and [\s] below are those of Python's [re] for [str]
      patterns (the Unicode classes) on these 256 code points.  Texts
      with code points above 255 are outside the embedding.
    - The patterns the program hands to [re] are written as values of
      [regex]; [rmatch] is a backtracking matcher that tries the
      alternatives in the order Python's engine does (greedy: longest
      first, lazy: shortest first).
    - An identity test [a is b] between a string computed at run time
      and a literal is answered by the interpreter, not by the
      language: the functions that make such tests take the answers as
      a parameter ([identity]), and the theorems hold for every
      interpreter, or name the one they are about.
    - Python sets of strings are [gset text]; sets of header and source
      objects are [gset Header.t] and [gset Source.t].  The order in which a
      Python set is iterated is not fixed by the language: the functions
      that loop over a set take the enumeration as a parameter, and the
      theorems hold for every enumeration. *)

From Stdlib Require Import Ascii String QArith.
From stdpp Require Import base tactics option list sets gmap strings sorting.

Local Open Scope list_scope.
#[local] Set Warnings "-clear-no-such-hyp".

(** ** Text *)

Abbreviation text := (list ascii).

Definition txt (s : string) : text := list_ascii_of_string s.

Definition chr (n : nat) : ascii := ascii_of_nat n.

Definition NL : ascii := chr 10.
Definition TAB : ascii := chr 9.
Definition ESC : ascii := chr 27.
Definition DQUOTE : ascii := chr 34.

Definition ascii_in (c : ascii) (lo hi : nat) : bool :=
  (lo <=? nat_of_ascii c)%nat && (nat_of_ascii c <=? hi)%nat.

(** [\w] of a [str] pattern: the alphanumeric characters of Unicode and
    the underscore.  Below 128 these are the letters, the digits and the
    underscore; from 128 to 255 the feminine and masculine ordinal
    indicators (170, 186), the superscripts two, three and one (178,
    179, 185), the micro sign (181), the three fractions (188-190) and
    the letters 192-255 without the multiplication and division signs
    (215, 247). *)
Definition is_word (c : ascii) : bool :=
  ascii_in c 97 122 || ascii_in c 65 90 || ascii_in c 48 57 || Ascii.eqb c "_"
  || ascii_in c 170 170 || ascii_in c 178 179 || ascii_in c 181 181
  || ascii_in c 185 186 || ascii_in c 188 190
  || ascii_in c 192 214 || ascii_in c 216 246 || ascii_in c 248 255.

(** [\s] of a [str] pattern: the whitespace of Unicode.  Tab, newline,
    vertical tab, form feed, carriage return, the four separators
    0x1c-0x1f, space, and above 127 the next-line control (133) and the
    no-break space (160). *)
Definition is_space (c : ascii) : bool :=
  ascii_in c 9 13 || ascii_in c 28 31 || Ascii.eqb c " "
  || ascii_in c 133 133 || ascii_in c 160 160.

(** ** Regular expressions *)

Module Re.

(** [re.DOTALL] (the integer 16) and the empty flag set. *)
Definition DOTALL : Z := 16.
Definition NOFLAG : Z := 0.

Definition has_dotall (flags : Z) : bool := Z.testbit flags 4.

(** One-character matchers: [.], a literal, a bracket class. *)
Inductive atom :=
| Dot
| Chr (c : ascii)
| Set_ (p : ascii → bool).

(** The fragment of pattern syntax the program uses; repetition is
    always applied to a one-character matcher. *)
Inductive regex :=
| Eps
| Atom (a : atom)
| Seq (r1 r2 : regex)
| Opt (a : atom)          (* a?   greedy *)
| Star (a : atom)         (* a*   greedy *)
| StarLazy (a : atom)     (* a*?  lazy   *)
| Plus (a : atom)         (* a+   greedy *)
| Group (r : regex).      (* ( r )       *)

Fixpoint lit (s : text) : regex :=
  match s with
  | [] => Eps
  | c :: s' => Seq (Atom (Chr c)) (lit s')
  end.

Definition atom_ok (flags : Z) (a : atom) (c : ascii) : bool :=
  match a with
  | Dot => has_dotall flags || negb (Ascii.eqb c NL)
  | Chr d => Ascii.eqb c d
  | Set_ p => p c
  end.

Section Matcher.
Context {R : Type}.
Variable flags : Z.

(** Greedy repetition: consume as long as possible, give back one
    character at a time while the continuation fails. *)
Fixpoint star_greedy (a : atom) (k : text → option R) (s : text) : option R :=
  match s with
  | c :: s' =>
      if atom_ok flags a c then
        match star_greedy a k s' with
        | Some r => Some r
        | None => k s
        end
      else k s
  | [] => k []
  end.

(** Lazy repetition: try the continuation first, consume one more
    character only when it fails. *)
Fixpoint star_lazy (a : atom) (k : text → option R) (s : text) : option R :=
  match k s with
  | Some r => Some r
  | None =>
      match s with
      | c :: s' => if atom_ok flags a c then star_lazy a k s' else None
      | [] => None
      end
  end.

(** [rmatch r k s g]: match [r] at the head of [s]; [g] is the text
    captured by the group so far; [k] receives what is left. *)
Fixpoint rmatch (r : regex) (k : text → option text → option R)
    (s : text) (g : option text) : option R :=
  match r with
  | Eps => k s g
  | Atom a =>
      match s with
      | c :: s' => if atom_ok flags a c then k s' g else None
      | [] => None
      end
  | Seq r1 r2 => rmatch r1 (rmatch r2 k) s g
  | Opt a =>
      match s with
      | c :: s' =>
          if atom_ok flags a c then
            match k s' g with
            | Some r => Some r
            | None => k s g
            end
          else k s g
      | [] => k s g
      end
  | Star a => star_greedy a (λ s1, k s1 g) s
  | StarLazy a => star_lazy a (λ s1, k s1 g) s
  | Plus a =>
      match s with
      | c :: s' =>
          if atom_ok flags a c then star_greedy a (λ s1, k s1 g) s' else None
      | [] => None
      end
  | Group r1 =>
      rmatch r1 (λ s2 _, k s2 (Some (take (length s - length s2) s))) s g
  end.
End Matcher.

(** The match of [r] anchored at the head of [s]: what follows the
    match, and the text of the group (if it took part). *)
Definition match_at (flags : Z) (r : regex) (s : text) : option (text * option text) :=
  rmatch flags r (λ s1 g1, Some (s1, g1)) s None.

(** [re.sub(pattern, repl, string, count, flags)] for a pattern that
    never matches the empty string.  [left] is the number of
    replacements still allowed ([None]: no limit); [skip] counts the
    characters of the current match still to be dropped. *)
Fixpoint sub_go (flags : Z) (r : regex) (repl : text)
    (left : option nat) (skip : nat) (s : text) : text :=
  match s with
  | [] => []
  | c :: s' =>
      match skip with
      | S n => sub_go flags r repl left n s'
      | O =>
          match left with
          | Some O => s
          | _ =>
              match match_at flags r s with
              | Some (rest, _) =>
                  match length s - length rest with
                  | S n => repl ++ sub_go flags r repl (pred <$> left) n s'
                  | O => c :: sub_go flags r repl left 0 s'
                  end
              | None => c :: sub_go flags r repl left 0 s'
              end
          end
      end
  end.

(** [count = 0] means no limit, as in Python. *)
Definition sub (r : regex) (repl : text) (s : text) (count : Z) (flags : Z) : text :=
  sub_go flags r repl (if (count =? 0)%Z then None else Some (Z.to_nat count)) 0 s.

(** [pattern.findall(string)] for a pattern with one group that never
    matches the empty string: the group of every match, left to right,
    matches not overlapping. *)
Fixpoint findall_go (flags : Z) (r : regex) (skip : nat) (s : text) : list text :=
  match s with
  | [] => []
  | c :: s' =>
      match skip with
      | S n => findall_go flags r n s'
      | O =>
          match match_at flags r s with
          | Some (rest, g) =>
              match length s - length rest with
              | S n => default [] g :: findall_go flags r n s'
              | O => findall_go flags r 0 s'
              end
          | None => findall_go flags r 0 s'
          end
      end
  end.

Definition findall (r : regex) (s : text) (flags : Z) : list text :=
  findall_go flags r 0 s.

(** Does the pattern match at some position of [s]? *)
Fixpoint has_match (flags : Z) (r : regex) (s : text) : bool :=
  match s with
  | [] => false
  | _ :: s' =>
      match match_at flags r s with
      | Some _ => true
      | None => has_match flags r s'
      end
  end.

(** The least number of characters a match of the pattern takes. *)
Fixpoint min_len (r : regex) : nat :=
  match r with
  | Eps | Opt _ | Star _ | StarLazy _ => 0
  | Atom _ | Plus _ => 1
  | Seq r1 r2 => min_len r1 + min_len r2
  | Group r1 => min_len r1
  end.

End Re.

(** ** String operations *)

(** [str.startswith] *)
Fixpoint startswith (s p : text) {struct p} : bool :=
  match p, s with
  | [], _ => true
  | a :: p', c :: s' => Ascii.eqb c a && startswith s' p'
  | _ :: _, [] => false
  end.

(** [p in s] for strings: [p] occurs in [s] as a substring. *)
Fixpoint occurs (p s : text) : bool :=
  match s with
  | [] => startswith [] p
  | _ :: s' => startswith s p || occurs p s'
  end.

Definition not_nl (c : ascii) : bool := negb (Ascii.eqb c NL).

(** What follows the first occurrence of [p] in [s]. *)
Fixpoint after (p s : text) : option text :=
  match s with
  | [] => if startswith [] p then Some [] else None
  | _ :: s' => if startswith s p then Some (drop (length p) s) else after p s'
  end.

(** What is left of [s] after its longest prefix of characters in [p]. *)
Fixpoint drop_run (p : ascii → bool) (s : text) : text :=
  match s with
  | c :: s' => if p c then drop_run p s' else s
  | [] => []
  end.

(** The longest prefix of [s] made of characters in [p]. *)
Fixpoint take_run (p : ascii → bool) (s : text) : text :=
  match s with
  | c :: s' => if p c then c :: take_run p s' else []
  | [] => []
  end.

(** ** The patterns of the program *)

(** [r'//.*'] *)
Definition line_comment_re : Re.regex :=
  Re.Seq (Re.lit (txt "//")) (Re.Star Re.Dot).

(** [r'/\*.*?\*/'] *)
Definition block_comment_re : Re.regex :=
  Re.Seq (Re.lit (txt "/*")) (Re.Seq (Re.StarLazy Re.Dot) (Re.lit (txt "*/"))).

Definition open_delim (c : ascii) : bool := Ascii.eqb c DQUOTE || Ascii.eqb c "<".
Definition close_delim (c : ascii) : bool := Ascii.eqb c DQUOTE || Ascii.eqb c ">".
Definition fname_char (c : ascii) : bool :=
  Ascii.eqb c "-" || is_word c || Ascii.eqb c ".".

(** [r'#include[\s]?["<]+(?P<file>[-\w\.]+)[">]+'] *)
Definition includes_re : Re.regex :=
  Re.Seq (Re.lit (txt "#include"))
    (Re.Seq (Re.Opt (Re.Set_ is_space))
      (Re.Seq (Re.Plus (Re.Set_ open_delim))
        (Re.Seq (Re.Group (Re.Plus (Re.Set_ fname_char)))
                (Re.Plus (Re.Set_ close_delim))))).

(** [r'[\W](\w+)[\W]'] *)
Definition tagname_re : Re.regex :=
  Re.Seq (Re.Atom (Re.Set_ (λ c, negb (is_word c))))
    (Re.Seq (Re.Group (Re.Plus (Re.Set_ is_word)))
            (Re.Atom (Re.Set_ (λ c, negb (is_word c))))).

(** ** Text normaliser and include parser *)

(** The comment-stripping step of [Source.read]: line comments first,
    then block comments with [flags=re.DOTALL]. *)
Definition Source_strip (data : text) : text :=
  let data := Re.sub line_comment_re [] data 0 Re.NOFLAG in
  Re.sub block_comment_re [] data 0 Re.DOTALL.

(** The comment-stripping step of [Header.read]: block comments first,
    with [re.DOTALL] in the fourth positional argument of [re.sub],
    which is [count]; then line comments. *)
Definition Header_strip (data : text) : text :=
  let data := Re.sub block_comment_re [] data Re.DOTALL Re.NOFLAG in
  Re.sub line_comment_re [] data 0 Re.NOFLAG.

(** The two passes of [Source.read], one by one. *)
Definition strip_line (data : text) : text :=
  Re.sub line_comment_re [] data 0 Re.NOFLAG.

Definition strip_block (data : text) : text :=
  Re.sub block_comment_re [] data 0 Re.DOTALL.

(** The include-extraction step of [Source.read] and [Header.read]. *)
Definition parse_includes (data : text) : list text :=
  Re.findall includes_re data Re.NOFLAG.

(** ** Tag records *)

(** [os.path.sep] (POSIX). *)
Definition os_path_sep : ascii := "/"%char.

(** [str.split(sep)] for a one-character separator. *)
Fixpoint split (sep : ascii) (s : text) : list text :=
  match s with
  | [] => [[]]
  | c :: s' =>
      if Ascii.eqb c sep then [] :: split sep s'
      else match split sep s' with
           | h :: t => (c :: h) :: t
           | [] => [[c]]
           end
  end.

(** [sep.join(l)] *)
Fixpoint join (sep : text) (l : list text) : text :=
  match l with
  | [] => []
  | [x] => x
  | x :: l' => x ++ sep ++ join sep l'
  end.

(** [s.rstrip(chars)] *)
Definition rstrip (s chars : text) : text :=
  reverse (drop_run (λ c, bool_decide (c ∈ chars)) (reverse s)).

(** [print_error(string)]: the line it prints. *)
Definition print_error (string : text) : text :=
  ESC :: txt "[0;31mERROR    " ++ string.

Module Tag.
(** A [Tag] object; [None] is Python's [None]. *)
Record t := mk {
  ctag : text;
  name : option text;
  path : option text;
  file : option text;
  addr : option text;
  kind : option text
}.
End Tag.

(** [a is b] asks whether two objects are one.  For a string that was
    computed at run time and a literal of the same text the language
    leaves the answer to the interpreter.  An [identity] is the answer
    of one interpreter, given the text of the object tested and the
    text of the literal.  What holds on every interpreter is that one
    object has one text ([sound]). *)
Definition identity : Type := text → text → bool.

Definition sound (py_is : identity) : Prop :=
  ∀ a b, py_is a b = true → a = b.

(** The interpreter on which a string is the object of its literal
    exactly when its text is in [shared]. *)
Definition shares (shared : list text) : identity :=
  λ a b, bool_decide (a = b) && bool_decide (a ∈ shared).

(** The interpreter on which a string is always the object of a literal
    of the same text: there [is] is [==]. *)
Definition shares_all : identity := λ a b, bool_decide (a = b).

(** CPython 3.11.2, for the one-character strings that [str.split]
    returns: those for [F], [g] and [u] are the objects of the
    literals of [parse_ctag], the others are not. *)
Definition cpython_3_11 : identity := shares [txt "F"; txt "g"; txt "u"].

(** The [if kind is 'c' ... elif ...] chain of [parse_ctag]; [None] is
    its [else] branch.  [py_is] answers the identity tests. *)
Definition kind_of (py_is : identity) (kind : text) : option text :=
  if py_is kind (txt "c") then Some (txt "class")
  else if py_is kind (txt "d") then Some (txt "define")
  else if py_is kind (txt "e") then Some (txt "enumerator")
  else if py_is kind (txt "f") then Some (txt "function")
  else if py_is kind (txt "F") then Some (txt "file")
  else if py_is kind (txt "g") then Some (txt "enum_name")
  else if py_is kind (txt "m") then Some (txt "member")
  else if py_is kind (txt "p") then Some (txt "prototype")
  else if py_is kind (txt "s") then Some (txt "struct_tag")
  else if py_is kind (txt "t") then Some (txt "typedef")
  else if py_is kind (txt "u") then Some (txt "union")
  else if py_is kind (txt "v") then Some (txt "variable")
  else None.

(** [Tag(ctag)]: the constructor sets every field to [None] and calls
    [parse_ctag].  The result is the object and the lines printed;
    [py_is] answers the identity tests of the kind chain. *)
Definition parse_ctag (py_is : identity) (ctag : text) : Tag.t * list text :=
  match take 4 (split TAB ctag) with
  | [name; file; addr; kind] =>
      let file_parts := split os_path_sep file in
      let tag k :=
        {| Tag.ctag := ctag;
           Tag.name := Some name;
           Tag.file := Some (List.last file_parts []);
           Tag.path := Some (join [os_path_sep] (removelast file_parts));
           Tag.addr := Some (rstrip addr (txt ";" ++ [DQUOTE]));
           Tag.kind := Some k |} in
      match kind_of py_is kind with
      | Some k => (tag k, [])
      | None => (tag [], [print_error (txt "Unknown kind: " ++ kind)])
      end
  | _ =>
      (* ValueError: not enough values to unpack *)
      ({| Tag.ctag := ctag; Tag.name := None; Tag.path := None;
          Tag.file := None; Tag.addr := None; Tag.kind := None |},
       [txt "Unable to parse:   " ++ ctag])
  end.

Definition valid_tag_types : list text :=
  [txt "define"; txt "enumerator"; txt "function"; txt "typedef"].

(** ** File entities *)

Module Header.
(** A [Header] object ([filetype] and [linked_tags] are never written
    after the constructor and are left out). *)
Record t := mk {
  filename : text;
  data : text;
  include_lst : list text;
  tag_lst : list text;
  tag_set : gset text
}.
End Header.

Module Source.
Record t := mk {
  filename : text;
  data : text;
  include_lst : list text;
  tag_lst : list text;
  tag_set : gset text
}.
End Source.

#[global] Instance Header_eq_dec : EqDecision Header.t.
Proof. solve_decision. Defined.

#[global] Instance Source_eq_dec : EqDecision Source.t.
Proof. solve_decision. Defined.

#[global] Instance Header_countable : Countable Header.t.
Proof.
  refine (inj_countable'
    (λ h, (Header.filename h, Header.data h, Header.include_lst h,
           Header.tag_lst h, Header.tag_set h))
    (λ '(f, d, i, l, s), Header.mk f d i l s) _).
  by intros [].
Defined.

#[global] Instance Source_countable : Countable Source.t.
Proof.
  refine (inj_countable'
    (λ h, (Source.filename h, Source.data h, Source.include_lst h,
           Source.tag_lst h, Source.tag_set h))
    (λ '(f, d, i, l, s), Source.mk f d i l s) _).
  by intros [].
Defined.

(** Lexicographic order on strings, by character code. *)
Fixpoint text_leb (a b : text) : bool :=
  match a, b with
  | [], _ => true
  | _ :: _, [] => false
  | x :: a', y :: b' =>
      if Ascii.eqb x y then text_leb a' b'
      else (nat_of_ascii x <? nat_of_ascii y)%nat
  end.

Fixpoint insert_text (x : text) (l : list text) : list text :=
  match l with
  | [] => [x]
  | y :: l' => if text_leb x y then x :: l else y :: insert_text x l'
  end.

(** [list.sort()] on strings. *)
Definition sort_text (l : list text) : list text := foldr insert_text [] l.

(** [Source(filename)] followed by [read()], on the text of the file. *)
Definition Source_read (filename raw : text) : Source.t :=
  let data := Source_strip raw in
  let tag_set : gset text := list_to_set (Re.findall tagname_re data Re.NOFLAG) in
  let tag_lst := sort_text (elements tag_set) in
  {| Source.filename := filename;
     Source.data := data;
     Source.include_lst := parse_includes data;
     Source.tag_lst := tag_lst;
     Source.tag_set := list_to_set tag_lst |}.

(** [Header(filename)] followed by [read()], on the text of the file. *)
Definition Header_read (filename raw : text) : Header.t :=
  let data := Header_strip raw in
  {| Header.filename := filename;
     Header.data := data;
     Header.include_lst := parse_includes data;
     Header.tag_lst := [];
     Header.tag_set := ∅ |}.

(** The lines of the tag file that [create_tags] hands to the loop. *)
Definition ctag_lst (data : text) : list text :=
  filter (λ d, negb (startswith d (txt "!_")) = true) (split NL data).

(** One turn of the loop of [create_tags]: the tag list and the lines
    printed so far. *)
Definition create_tags_step (py_is : identity) (st : list text * list text) (ctag : text)
    : list text * list text :=
  match ctag with
  | [] => st
  | _ :: _ =>
      let '(tag, out) := parse_ctag py_is ctag in
      let tag_lst :=
        match Tag.kind tag with
        | Some k =>
            if bool_decide (k ∈ valid_tag_types)
            then st.1 ++ [default [] (Tag.name tag)]
            else st.1
        | None => st.1
        end in
      (tag_lst, st.2 ++ out)
  end.

(** [Header.create_tags], on the text [data] of the tag file ctags
    wrote for the header. *)
Definition create_tags (py_is : identity) (self : Header.t) (data : text)
    : Header.t * list text :=
  let '(tag_lst, out) :=
    foldl (create_tags_step py_is) (Header.tag_lst self, []) (ctag_lst data) in
  ({| Header.filename := Header.filename self;
      Header.data := Header.data self;
      Header.include_lst := Header.include_lst self;
      Header.tag_lst := tag_lst;
      Header.tag_set := list_to_set tag_lst |}, out).

(** ** Transitive include resolver *)

(** One turn of the [for h in used_set] loop of [find_used_headers]:
    the state is [(parent_set, remaining_set)], [None] once fuel ran
    out; [recurse] is the recursive call. *)
Definition used_step
    (recurse : list text → gset Header.t → option (gset Header.t))
    (acc : option (gset Header.t * gset Header.t)) (h : Header.t)
    : option (gset Header.t * gset Header.t) :=
  match acc with
  | None => None
  | Some (parent_set, remaining_set) =>
      match Header.include_lst h with
      | [] => Some (parent_set, remaining_set)
      | _ :: _ =>
          match recurse (Header.include_lst h) remaining_set with
          | None => None
          | Some found =>
              let parent_set := parent_set ∪ found in
              Some (parent_set, remaining_set ∖ parent_set)
          end
      end
  end.

(** [Source.find_used_headers].  [iter] enumerates a set in the order
    the [for] loop visits it; [fuel] bounds the depth of the recursion. *)
Fixpoint find_used_headers (iter : gset Header.t → list Header.t) (fuel : nat)
    (self : Source.t) (start_lst : list text) (start_set : gset Header.t)
    : option (gset Header.t) :=
  match fuel with
  | O => None
  | S fuel' =>
      let used_set : gset Header.t :=
        filter (λ h, Header.filename h ∈ start_lst) start_set in
      match foldl (used_step (find_used_headers iter fuel' self))
              (Some (∅, start_set ∖ used_set)) (iter used_set) with
      | Some (parent_set, _) => Some (used_set ∪ parent_set)
      | None => None
      end
  end.

(** The resolver with the fuel a universe of that size needs. *)
Definition resolve (iter : gset Header.t → list Header.t)
    (self : Source.t) (start_lst : list text) (start_set : gset Header.t)
    : option (gset Header.t) :=
  find_used_headers iter (S (size start_set)) self start_lst start_set.

(** ** Utility scorer *)

Module Entry.
(** One [entry] dictionary of [utility].  [taglist] is the set of tags
    the row lists; the program renders it with [textwrap.fill]. *)
Record t := mk {
  filename : text;
  type : text;
  utility : Q;
  taglist : gset text
}.
End Entry.

(** [len(a) / len(b)] with [ZeroDivisionError] caught: the quotient as
    an exact rational (Python rounds it to the nearest float). *)
Definition ratio (a b : gset text) : Q :=
  if (size b =? 0)%nat then 0
  else inject_Z (Z.of_nat (size a)) / inject_Z (Z.of_nat (size b)).

Fixpoint insert_desc (e : Entry.t) (l : list Entry.t) : list Entry.t :=
  match l with
  | [] => [e]
  | x :: l' =>
      if Qle_bool (Entry.utility x) (Entry.utility e) then e :: l
      else x :: insert_desc e l'
  end.

(** [sorted(utility_lst, key=itemgetter('utility'), reverse=True)] *)
Definition sorted_desc (l : list Entry.t) : list Entry.t := foldr insert_desc [] l.

(** What the program writes and does, in order: a line printed by
    [print] or [print_error], a file opened and read, ctags run on a
    header (with the echo of the command line that [print_verbose]
    gives in verbose mode), the table [utility] prints for a subject. *)
Inductive event :=
| Print (line : text)
| Open (filename : text)
| Ctags (filename : text)
| Analysis (subject : text) (heading : text) (rows : list Entry.t).

Definition Source_entry (self : Source.t) (used_tag_set : gset text)
    (h : Header.t) : Entry.t :=
  let h_tag_set := Header.tag_set h ∩ used_tag_set in
  {| Entry.filename := Header.filename h;
     Entry.type := if bool_decide (Header.filename h ∈ Source.include_lst self)
                   then txt "direct" else [];
     Entry.utility := ratio h_tag_set used_tag_set;
     Entry.taglist := h_tag_set |}.

(** [Source.utility]: the sorted rows it prints. *)
Definition Source_utility (iter : gset Header.t → list Header.t)
    (self : Source.t) (header_lst : list Header.t) : option (list Entry.t) :=
  match resolve iter self (Source.include_lst self) (list_to_set header_lst) with
  | None => None
  | Some used_header_set =>
      let header_tag_set : gset text :=
        foldl (λ acc h, acc ∪ Header.tag_set h) ∅ (iter used_header_set) in
      let used_tag_set := header_tag_set ∩ Source.tag_set self in
      let utility_lst := Source_entry self used_tag_set <$> iter used_header_set in
      Some (sorted_desc utility_lst)
  end.

(** [Header.find_used_sources] *)
Definition find_used_sources (iter : gset Header.t → list Header.t)
    (iterS : gset Source.t → list Source.t)
    (self : Header.t) (header_set : gset Header.t) (source_set : gset Source.t)
    : option (gset Source.t) :=
  foldl (λ acc s,
    match acc with
    | None => None
    | Some used_set =>
        match resolve iter s (Source.include_lst s) header_set with
        | None => None
        | Some s_header_set =>
            Some (foldl (λ used_set sh,
                    if decide (Header.filename self = Header.filename sh)
                    then used_set ∪ {[s]} else used_set)
                  used_set (iter s_header_set))
        end
    end) (Some ∅) (iterS source_set).

Definition Header_entry (self : Header.t) (used_tag_set : gset text)
    (s : Source.t) : Entry.t :=
  let s_tag_set := Source.tag_set s ∩ used_tag_set in
  {| Entry.filename := Source.filename s;
     Entry.type := if bool_decide (Header.filename self ∈ Source.include_lst s)
                   then txt "direct" else [];
     Entry.utility := ratio s_tag_set used_tag_set;
     Entry.taglist := s_tag_set |}.

(** [Header.utility]: the sorted rows it prints. *)
Definition Header_utility (iter : gset Header.t → list Header.t)
    (iterS : gset Source.t → list Source.t)
    (self : Header.t) (header_lst : list Header.t) (source_lst : list Source.t)
    : option (list Entry.t) :=
  match find_used_sources iter iterS self
          (list_to_set header_lst) (list_to_set source_lst) with
  | None => None
  | Some used_source_set =>
      let source_tag_set : gset text :=
        foldl (λ acc s, acc ∪ Source.tag_set s) ∅ (iterS used_source_set) in
      let used_tag_set := source_tag_set ∩ Header.tag_set self in
      let utility_lst := Header_entry self used_tag_set <$> iterS used_source_set in
      Some (sorted_desc utility_lst)
  end.

(** The used tag set of a subject: the tags declared by some
    counterpart and referenced by the subject. *)
Definition used_tags (subject : gset text) (counterparts : list (gset text))
    : gset text :=
  ⋃ counterparts ∩ subject.

(** What a row's score has to be, given the tags it shares and the used
    tag set. *)
Definition scored (e : Entry.t) (shared used : gset text) : Prop :=
  (size used ≠ 0 →
     Entry.utility e
     = (inject_Z (Z.of_nat (size shared)) / inject_Z (Z.of_nat (size used)))%Q)
  ∧ (0 <= Entry.utility e)%Q ∧ (Entry.utility e <= 1)%Q
  ∧ (size used = 0 → Entry.utility e = 0%Q)
  ∧ (size shared = 0 → (Entry.utility e == 0)%Q).

(** ** Entry point *)

Module RetCode.
Definition OK : Z := 0.
Definition ERROR : Z := 1.
Definition ARGS : Z := 2.
Definition WARNING : Z := 3.
End RetCode.

(** A file under analysis: [isinstance(af, Source)] or [Header]. *)
Inductive analysis_file :=
| ASource (s : Source.t)
| AHeader (h : Header.t).

(** The loop over [c_files]: sources, analysis files, events. *)
Definition read_sources (fs : text → text) (analysis_file_lst c_files : list text)
    : list Source.t * list analysis_file * list event :=
  foldl (λ '(sources, analysis_files, evs) c,
    let cf := Source_read c (fs c) in
    (sources ++ [cf],
     if bool_decide (c ∈ analysis_file_lst)
     then analysis_files ++ [ASource cf] else analysis_files,
     evs ++ [Open c])) ([], [], []) c_files.

(** The loop over [h_files]. *)
Definition read_headers (py_is : identity) (fs : text → text)
    (analysis_file_lst h_files : list text)
    : list Header.t * list analysis_file * list event :=
  foldl (λ '(headers, analysis_files, evs) h,
    let '(hf, out) :=
      create_tags py_is (Header_read h (fs h)) (fs (h ++ txt ".tags")) in
    (headers ++ [hf],
     if bool_decide (h ∈ analysis_file_lst)
     then analysis_files ++ [AHeader hf] else analysis_files,
     evs ++ [Open h; Ctags h; Open (h ++ txt ".tags")] ++ (Print <$> out)))
    ([], [], []) h_files.

(** One turn of the loop over [analysis_files]. *)
Definition report_step (iter : gset Header.t → list Header.t)
    (iterS : gset Source.t → list Source.t)
    (headers : list Header.t) (sources : list Source.t)
    (acc : option (list event)) (af : analysis_file) : option (list event) :=
  match acc with
  | None => None
  | Some evs =>
      match af with
      | ASource s =>
          match Source_utility iter s headers with
          | Some rows => Some (evs ++ [Analysis (Source.filename s) (txt "HEADER:") rows])
          | None => None
          end
      | AHeader h =>
          match Header_utility iter iterS h headers sources with
          | Some rows => Some (evs ++ [Analysis (Header.filename h) (txt "SOURCE:") rows])
          | None => None
          end
      end
  end.

(** The loop over [analysis_files]. *)
Definition report (iter : gset Header.t → list Header.t)
    (iterS : gset Source.t → list Source.t)
    (headers : list Header.t) (sources : list Source.t)
    (analysis_files : list analysis_file) : option (list event) :=
  foldl (report_step iter iterS headers sources) (Some []) analysis_files.

(** [main], from the two lists [filter_files] returned.  [fs] gives the
    text of a file (every file is taken to be readable, the tag file of
    a header included), [py_is] the answers to the identity tests of
    [parse_ctag].  The result is the return code and what happened. *)
Definition main (py_is : identity) (iter : gset Header.t → list Header.t)
    (iterS : gset Source.t → list Source.t) (fs : text → text)
    (analysis_file_lst h_files c_files : list text) : option (Z * list event) :=
  match h_files with
  | [] => Some (RetCode.ERROR, [Print (print_error (txt "No header files specified."))])
  | _ :: _ =>
      match c_files with
      | [] => Some (RetCode.ERROR, [Print (print_error (txt "No source files specified."))])
      | _ :: _ =>
          let '(sources, analysis_s, evs_s) := read_sources fs analysis_file_lst c_files in
          let '(headers, analysis_h, evs_h) :=
            read_headers py_is fs analysis_file_lst h_files in
          match report iter iterS headers sources (analysis_s ++ analysis_h) with
          | Some evs => Some (RetCode.OK, evs_s ++ evs_h ++ evs)
          | None => None
          end
      end
  end.

(** ** Include directives, as the scan finds them *)

(** A non-empty run of characters of the class [p] at the head of [s],
    as long as it can be, and what follows it. *)
Definition plus_run (p : ascii → bool) (s : text) : option (text * text) :=
  match s with
  | c :: s' => if p c then Some (c :: take_run p s', drop_run p s') else None
  | [] => None
  end.

Definition is_run (p : ascii → bool) (l : text) : Prop :=
  l ≠ [] ∧ Forall (λ c, p c = true) l.

(** [is_directive s name rest]: the text [s] starts with an include
    directive naming [name], and [rest] follows the directive.  The
    directive is [#include], at most one whitespace character, one or
    more opening characters (each a double quote or [<]), the file name,
    one or more closing characters (each a double quote or [>]), as many
    as there are. *)
Definition is_directive (s name rest : text) : Prop :=
  ∃ ws opens closes,
    s = txt "#include" ++ ws ++ opens ++ name ++ closes ++ rest
    ∧ (ws = [] ∨ ∃ c, ws = [c] ∧ is_space c = true)
    ∧ is_run open_delim opens
    ∧ is_run fname_char name
    ∧ is_run close_delim closes
    ∧ (∀ c, head rest = Some c → close_delim c = false).

(** The same, computed. *)
Definition directive_tail (t : text) : option (text * text) :=
  match plus_run open_delim t with
  | Some (_, s3) =>
      match plus_run fname_char s3 with
      | Some (name, s4) =>
          match plus_run close_delim s4 with
          | Some (_, s5) => Some (name, s5)
          | None => None
          end
      | None => None
      end
  | None => None
  end.

Definition directive (s : text) : option (text * text) :=
  if startswith s (txt "#include") then
    let s1 := drop 8 s in
    directive_tail
      match s1 with
      | c :: s1' => if is_space c then s1' else s1
      | [] => []
      end
  else None.

(** ** Vocabulary of the statements *)

(** The kinds of the table of the specification, letter by letter. *)
Definition kind_table : list (text * text) :=
  [(txt "c", txt "class"); (txt "d", txt "define"); (txt "e", txt "enumerator");
   (txt "f", txt "function"); (txt "F", txt "file"); (txt "g", txt "enum_name");
   (txt "m", txt "member"); (txt "p", txt "prototype"); (txt "s", txt "struct_tag");
   (txt "t", txt "typedef"); (txt "u", txt "union"); (txt "v", txt "variable")].

(** The record [parse_ctag] leaves when the line cannot be unpacked. *)
Definition empty_tag (ctag : text) : Tag.t :=
  Tag.mk ctag None None None None None.

Definition unable_to_parse (ctag : text) : text :=
  txt "Unable to parse:   " ++ ctag.

Definition identifier_kinds : list text := [txt "d"; txt "e"; txt "f"; txt "t"].

(** ** Sample inputs *)

(** Two headers that include each other, a header that includes
    itself, and a source to ask from. *)
Definition cyc_a : Header.t := Header.mk (txt "a.h") [] [txt "b.h"] [] ∅.
Definition cyc_b : Header.t := Header.mk (txt "b.h") [] [txt "a.h"] [] ∅.
Definition self_inc : Header.t := Header.mk (txt "s.h") [] [txt "s.h"] [] ∅.
Definition some_source : Source.t := Source.mk (txt "m.c") [] [txt "a.h"] [] ∅.

(** A source that includes [b.h] and refers to [FOO], and the header
    [b.h] that defines [FOO] and [BAR]. *)
Definition ex_src : Source.t :=
  Source.mk (txt "a.c") [] [txt "b.h"] [txt "FOO"; txt "x"] {[txt "FOO"; txt "x"]}.
Definition ex_hdr : Header.t :=
  Header.mk (txt "b.h") [] [] [txt "FOO"; txt "BAR"] {[txt "FOO"; txt "BAR"]}.

Definition ex_good_line : text :=
  txt "FOO" ++ TAB :: txt "b.h" ++ TAB :: txt "1" ++ TAB :: txt "d".

(** Seventeen empty block comments in a row. *)
Definition seventeen_comments : text :=
  Nat.iter 17 (λ s, txt "/**/" ++ s) [].

(** ** Reachability through include chains *)

(** [reachable U l h]: the header [h] of the universe [U] is named by
    the list [l], or by the include list of a header that is reachable
    itself. *)
Inductive reachable (U : gset Header.t) (l : list text) : Header.t → Prop :=
| reach_named h :
    h ∈ U → Header.filename h ∈ l → reachable U l h
| reach_include h a :
    reachable U l h → a ∈ U → Header.filename a ∈ Header.include_lst h →
    reachable U l a.


(** ** Vocabulary for the tag file *)

(** The name a line of the tag file adds to the tag list of its header:
    the first field, when the line has four fields, the fourth is one
    of [d], [e], [f], [t] and the interpreter takes it for the object
    of its literal. *)
Definition tag_name_of (py_is : identity) (ctag : text) : option text :=
  match split TAB ctag with
  | name :: _ :: _ :: kind :: _ =>
      if bool_decide (kind ∈ identifier_kinds) && py_is kind kind
      then Some name else None
  | _ => None
  end.

(** What the loop of [create_tags] prints for a line. *)
Definition tag_report_of (py_is : identity) (ctag : text) : list text :=
  match ctag with
  | [] => []
  | _ :: _ => (parse_ctag py_is ctag).2
  end.


(** ** Tags of a source, as the scan finds them *)

(** [is_tag_at s name rest]: the text [s] starts with a character that
    is not a word character, then the word [name] (as long as it can
    be), then another character that is not a word character; [rest]
    follows that character. *)
Definition is_tag_at (s name rest : text) : Prop :=
  ∃ c d, s = c :: name ++ d :: rest
    ∧ is_word c = false ∧ is_run is_word name ∧ is_word d = false.

(** The same, computed. *)
Definition tag_at (s : text) : option (text * text) :=
  match s with
  | c :: s1 =>
      if negb (is_word c) then
        match plus_run is_word s1 with
        | Some (name, _ :: rest) => Some (name, rest)
        | _ => None
        end
      else None
  | [] => None
  end.


(** ** The file lists and the command line *)

Definition BACKSLASH : ascii := chr 92.

(** [s.endswith(suffix)] *)
Definition endswith (s suffix : text) : bool :=
  startswith (reverse s) (reverse suffix).

(** [s.lstrip(chars)] *)
Definition lstrip (s chars : text) : text :=
  drop_run (λ c, bool_decide (c ∈ chars)) s.

(** [os.path.join(a, b)] (POSIX). *)
Definition os_path_join (a b : text) : text :=
  if startswith b [os_path_sep] then b
  else if bool_decide (a = []) || endswith a [os_path_sep] then a ++ b
  else a ++ os_path_sep :: b.

(** [print_verbose(string)]: the lines it prints. *)
Definition print_verbose (verbose_flag : bool) (string : text) : list text :=
  if verbose_flag then [string] else [].

(** What [exclude_lst] holds and what is looked up in it: a path is a
    [str], the result of [glob.glob] is a list of them. *)
Inductive pyval :=
| PStr (s : text)
| PList (l : list text).

(** [a == b]: a string and a list are never equal. *)
Definition py_eqb (a b : pyval) : bool :=
  match a, b with
  | PStr s, PStr t => bool_decide (s = t)
  | PList l, PList m => bool_decide (l = m)
  | _, _ => false
  end.

(** [x in l] *)
Definition py_in (x : pyval) (l : list pyval) : bool := existsb (py_eqb x) l.

(** The paths the loop over [os.walk('.')] builds, in its order.  [walk]
    is what [os.walk] yields: (relpath, dirs, files). *)
Definition walk_paths (walk : list (text * list text * list text)) : list text :=
  '(relpath, _, files) ← walk;
  (λ f, lstrip (os_path_join relpath f) [chr 46; chr 47; BACKSLASH]) <$> files.

(** [filter_files(ext_tpl, file_lst, exclude_file_lst, recurse)]: the
    sorted list and the lines [print_verbose] writes.  [exclude_file_lst]
    is [None] when the option was not given; [glob] is [glob.glob]. *)
Definition filter_files (verbose_flag : bool) (glob : text → list text)
    (walk : list (text * list text * list text))
    (ext_tpl : text) (file_lst : list text) (exclude_file_lst : option (list text))
    (recurse : bool) : list text * list text :=
  let excl := default [] exclude_file_lst in
  let exclude_lst := (λ x, PList (glob x)) <$> excl in
  let out := excl ≫= (λ x, print_verbose verbose_flag (txt "Excluded: " ++ x)) in
  let keep d := endswith d ext_tpl && negb (py_in (PStr d) exclude_lst) in
  let file_set : gset text :=
    if recurse then list_to_set (filter (λ d, keep d = true) (walk_paths walk))
    else list_to_set (filter (λ d, keep d = true) file_lst) in
  (sort_text (elements file_set), out).

Module Args.
(** What [parse_arguments] returns; an option that was not given is
    [None], the two flags are [False]. *)
Record t := mk {
  analysis_lst : option (list text);
  file_lst : option (list text);
  verbose : bool;
  recursive : bool;
  exclude_lst : option (list text)
}.
End Args.

(** How [main] ends: it returns a code, or [set(None)] raises. *)
Inductive exit :=
| Exit (retcode : Z)
| TypeError.

(** [main], from the parsed command line. *)
Definition main_args (py_is : identity) (iter : gset Header.t → list Header.t)
    (iterS : gset Source.t → list Source.t) (fs : text → text)
    (glob : text → list text) (walk : list (text * list text * list text))
    (args : Args.t) : option (exit * list event) :=
  match Args.analysis_lst args, Args.file_lst args with
  | Some al, Some fl =>
      let analysis_file_lst := elements (list_to_set al : gset text) in
      let full_file_lst :=
        elements ((list_to_set fl : gset text) ∪ list_to_set al) in
      let '(h_files, out_h) :=
        filter_files (Args.verbose args) glob walk (txt ".h") full_file_lst
          (Args.exclude_lst args) (Args.recursive args) in
      let '(c_files, out_c) :=
        filter_files (Args.verbose args) glob walk (txt ".c") full_file_lst
          (Args.exclude_lst args) (Args.recursive args) in
      match main py_is iter iterS fs analysis_file_lst h_files c_files with
      | Some (retcode, evs) =>
          Some (Exit retcode, (Print <$> out_h ++ out_c) ++ evs)
      | None => None
      end
  | _, _ => Some (TypeError, [])
  end.

(** The files the reports of a trace are about, the files it opens and
    the headers it runs ctags on, in the order of the trace. *)
Definition subjects (evs : list event) : list text :=
  omap (λ e, match e with Analysis s _ _ => Some s | _ => None end) evs.

Definition opened (evs : list event) : list text :=
  omap (λ e, match e with Open f => Some f | _ => None end) evs.

Definition tagged (evs : list event) : list text :=
  omap (λ e, match e with Ctags f => Some f | _ => None end) evs.

(** The bodies of the three loops of [main]: [Source(c)] read, [Header(h)]
    read and tagged (with what [create_tags] prints), and the report of
    one analysis file. *)
Definition Source_of (fs : text → text) (c : text) : Source.t :=
  Source_read c (fs c).

Definition Header_of (py_is : identity) (fs : text → text) (h : text)
    : Header.t * list text :=
  create_tags py_is (Header_read h (fs h)) (fs (h ++ txt ".tags")).

Definition report_of (iter : gset Header.t → list Header.t)
    (iterS : gset Source.t → list Source.t)
    (headers : list Header.t) (sources : list Source.t)
    (af : analysis_file) : option event :=
  match af with
  | ASource s =>
      Analysis (Source.filename s) (txt "HEADER:") <$> Source_utility iter s headers
  | AHeader h =>
      Analysis (Header.filename h) (txt "SOURCE:")
        <$> Header_utility iter iterS h headers sources
  end.

(** What the loop over [h_files] does to the outside, header by header. *)
Definition header_events (py_is : identity) (fs : text → text) (h_files : list text)
    : list event :=
  h ← h_files;
  [Open h; Ctags h; Open (h ++ txt ".tags")] ++ (Print <$> (Header_of py_is fs h).2).

(** * Properties *)

(** ** The model on small inputs *)

Example strip_ex1 :
  Source_strip (txt "int a; // one
/* two
   three */ int b;") = txt "int a; 
 int b;".
Proof. vm_compute. reflexivity. Qed.

(** [Header.read] leaves a block comment that spans two lines. *)
Example strip_ex2 :
  Header_strip (txt "/* one" ++ NL :: txt "two */ int b; /* c */ // d")
  = txt "/* one" ++ NL :: txt "two */ int b;  ".
Proof. vm_compute. reflexivity. Qed.

Example includes_ex1 :
  parse_includes (txt "#include <a.h>" ++ NL :: txt "#include<b-1.h>" ++ NL
                    :: txt "#include  <c.h>" ++ NL :: txt "#include <a.h>")
  = [txt "a.h"; txt "b-1.h"; txt "a.h"].
Proof. vm_compute. reflexivity. Qed.

Example parse_ctag_ex1 :
  parse_ctag shares_all (txt "FOO" ++ TAB :: txt "/p/q/b.h" ++ TAB
                :: txt "12;" ++ DQUOTE :: TAB :: txt "d" ++ TAB :: txt "file:")
  = ({| Tag.ctag := txt "FOO" ++ TAB :: txt "/p/q/b.h" ++ TAB
                      :: txt "12;" ++ DQUOTE :: TAB :: txt "d" ++ TAB :: txt "file:";
        Tag.name := Some (txt "FOO");
        Tag.path := Some (txt "/p/q");
        Tag.file := Some (txt "b.h");
        Tag.addr := Some (txt "12");
        Tag.kind := Some (txt "define") |}, []).
Proof. vm_compute. reflexivity. Qed.

Example parse_ctag_ex2 :
  parse_ctag cpython_3_11 (txt "FOO" ++ TAB :: txt "/p/q/b.h" ++ TAB
                :: txt "12;" ++ DQUOTE :: TAB :: txt "d" ++ TAB :: txt "file:")
  = ({| Tag.ctag := txt "FOO" ++ TAB :: txt "/p/q/b.h" ++ TAB
                      :: txt "12;" ++ DQUOTE :: TAB :: txt "d" ++ TAB :: txt "file:";
        Tag.name := Some (txt "FOO");
        Tag.path := Some (txt "/p/q");
        Tag.file := Some (txt "b.h");
        Tag.addr := Some (txt "12");
        Tag.kind := Some [] |}, [print_error (txt "Unknown kind: d")]).
Proof. vm_compute. reflexivity. Qed.

(** ** The substitution and search loops *)

Section ReLoops.
Variables (flags : Z) (r : Re.regex).

Lemma sub_go_skip repl left n s :
  Re.sub_go flags r repl left n s = Re.sub_go flags r repl left 0 (drop n s).
Proof.
  revert n. induction s as [|c s IH]; intros [|n]; try reflexivity.
  simpl. apply IH.
Qed.

Lemma sub_go_match repl left pre rest g :
  left ≠ Some 0 → pre ≠ [] →
  Re.match_at flags r (pre ++ rest) = Some (rest, g) →
  Re.sub_go flags r repl left 0 (pre ++ rest)
  = repl ++ Re.sub_go flags r repl (pred <$> left) 0 rest.
Proof.
  intros Hl Hpre Hm. destruct pre as [|c pre]; [done|].
  change ((c :: pre) ++ rest) with (c :: (pre ++ rest)) in *.
  cbn [Re.sub_go]. rewrite Hm.
  replace (length (c :: pre ++ rest) - length rest) with (S (length pre))
    by (cbn [length]; rewrite length_app; lia).
  rewrite sub_go_skip, drop_app_length.
  destruct left as [[|m]|]; done.
Qed.

Lemma sub_go_nomatch repl left c s :
  left ≠ Some 0 → Re.match_at flags r (c :: s) = None →
  Re.sub_go flags r repl left 0 (c :: s) = c :: Re.sub_go flags r repl left 0 s.
Proof.
  intros Hl Hm. cbn [Re.sub_go]. rewrite Hm. destruct left as [[|m]|]; done.
Qed.

Lemma sub_go_no_match_id repl left s :
  Re.has_match flags r s = false → Re.sub_go flags r repl left 0 s = s.
Proof.
  induction s as [|c s IH]; [done|]. cbn [Re.has_match].
  destruct (Re.match_at flags r (c :: s)) eqn:Hm; [done|]. intros Hs.
  destruct (decide (left = Some 0)) as [->|Hl]; [done|].
  rewrite sub_go_nomatch by done. by rewrite IH.
Qed.

(** With an empty replacement the result is the input with some
    characters deleted. *)
Lemma sub_go_sublist left n s : Re.sub_go flags r [] left n s `sublist_of` s.
Proof.
  revert left n. induction s as [|c s IH]; intros left n; [done|].
  cbn [Re.sub_go]. destruct n as [|n]; [|apply sublist_cons, IH].
  assert (c :: Re.sub_go flags r [] left 0 s `sublist_of` c :: s)
    by apply sublist_skip, IH.
  destruct left as [[|m]|]; [done| |].
  - destruct (Re.match_at flags r (c :: s)) as [[rest g]|]; [|done].
    destruct (length (c :: s) - length rest); [done|]. apply sublist_cons, IH.
  - destruct (Re.match_at flags r (c :: s)) as [[rest g]|]; [|done].
    destruct (length (c :: s) - length rest); [done|]. apply sublist_cons, IH.
Qed.

Lemma findall_go_skip n s :
  Re.findall_go flags r n s = Re.findall_go flags r 0 (drop n s).
Proof.
  revert n. induction s as [|c s IH]; intros [|n]; try reflexivity.
  simpl. apply IH.
Qed.

Lemma findall_go_match pre rest g :
  pre ≠ [] → Re.match_at flags r (pre ++ rest) = Some (rest, g) →
  Re.findall_go flags r 0 (pre ++ rest)
  = default [] g :: Re.findall_go flags r 0 rest.
Proof.
  intros Hpre Hm. destruct pre as [|c pre]; [done|].
  change ((c :: pre) ++ rest) with (c :: (pre ++ rest)) in *.
  cbn [Re.findall_go]. rewrite Hm.
  replace (length (c :: pre ++ rest) - length rest) with (S (length pre))
    by (cbn [length]; rewrite length_app; lia).
  by rewrite findall_go_skip, drop_app_length.
Qed.

Lemma findall_go_nomatch c s :
  Re.match_at flags r (c :: s) = None →
  Re.findall_go flags r 0 (c :: s) = Re.findall_go flags r 0 s.
Proof. intros Hm. cbn [Re.findall_go]. by rewrite Hm. Qed.
End ReLoops.

(** ** The matcher only moves forward *)

Section MatcherProgress.
Context {R : Type}.
Variable flags : Z.

Lemma star_greedy_progress a (k : text → option R) s x :
  Re.star_greedy flags a k s = Some x →
  ∃ pre s', s = pre ++ s' ∧ k s' = Some x.
Proof.
  induction s as [|c s IH]; simpl.
  - intros H. by exists [], [].
  - destruct (Re.atom_ok flags a c); [|intros H; by exists [], (c :: s)].
    destruct (Re.star_greedy flags a k s) as [y|] eqn:E.
    + intros [= ->]. destruct (IH eq_refl) as (pre & s' & -> & Hk).
      by exists (c :: pre), s'.
    + intros H. by exists [], (c :: s).
Qed.

Lemma star_lazy_progress a (k : text → option R) s x :
  Re.star_lazy flags a k s = Some x →
  ∃ pre s', s = pre ++ s' ∧ k s' = Some x.
Proof.
  induction s as [|c s IH]; simpl.
  - destruct (k []) eqn:E; [|done]. intros [= ->]. by exists [], [].
  - destruct (k (c :: s)) eqn:E.
    + intros [= ->]. by exists [], (c :: s).
    + destruct (Re.atom_ok flags a c); [|done].
      intros (pre & s' & -> & Hk)%IH. by exists (c :: pre), s'.
Qed.

(** Whatever the continuation receives is what is left of the text
    after at least [min_len r] characters. *)
Lemma rmatch_progress r :
  ∀ (k : text → option text → option R) s g x,
    Re.rmatch flags r k s g = Some x →
    ∃ pre s' g', s = pre ++ s' ∧ Re.min_len r ≤ length pre ∧ k s' g' = Some x.
Proof.
  induction r as [|a|r1 IH1 r2 IH2|a|a|a|a|r IH]; intros k s g x; cbn [Re.rmatch Re.min_len].
  - intros H. exists [], s, g. by split; [|split; [simpl; lia|]].
  - destruct s as [|c s]; [done|]. destruct (Re.atom_ok flags a c); [|done].
    intros H. exists [c], s, g. by split; [|split; [simpl; lia|]].
  - intros (p1 & s1 & g1 & -> & Hl1 & (p2 & s2 & g2 & -> & Hl2 & Hk)%IH2)%IH1.
    exists (p1 ++ p2), s2, g2. rewrite length_app, <- app_assoc.
    split; [done|]. split; [lia|done].
  - destruct s as [|c s]; [intros H; exists [], [], g; by split; [|split; [simpl; lia|]]|].
    destruct (Re.atom_ok flags a c);
      [|intros H; exists [], (c :: s), g; by split; [|split; [simpl; lia|]]].
    destruct (k s g) eqn:E.
    + intros [= ->]. exists [c], s, g. by split; [|split; [simpl; lia|]].
    + intros H. exists [], (c :: s), g. by split; [|split; [simpl; lia|]].
  - intros (pre & s' & -> & Hk)%star_greedy_progress.
    exists pre, s', g. split; [done|]. split; [lia|done].
  - intros (pre & s' & -> & Hk)%star_lazy_progress.
    exists pre, s', g. split; [done|]. split; [lia|done].
  - destruct s as [|c s]; [done|]. destruct (Re.atom_ok flags a c); [|done].
    intros (pre & s' & -> & Hk)%star_greedy_progress.
    exists (c :: pre), s', g. split; [done|]. split; [simpl; lia|done].
  - intros (pre & s' & g' & -> & Hl & Hk)%IH. eauto 10.
Qed.
End MatcherProgress.

(** A match at the head of [s] leaves a suffix of [s], shorter by at
    least [min_len r]. *)
Lemma match_at_progress flags r s rest g :
  Re.match_at flags r s = Some (rest, g) →
  ∃ pre, s = pre ++ rest ∧ Re.min_len r ≤ length pre.
Proof.
  intros (pre & s' & g' & -> & Hl & [= -> ->])%rmatch_progress. by exists pre.
Qed.

(** The four patterns of the program never match the empty string. *)
Lemma patterns_consume :
  Re.min_len line_comment_re = 2 ∧ Re.min_len block_comment_re = 4
  ∧ Re.min_len includes_re = 11 ∧ Re.min_len tagname_re = 3.
Proof. by vm_compute. Qed.

(** So the loops resume right after each match. *)
Lemma sub_go_unfold flags r repl left c s :
  0 < Re.min_len r → left ≠ Some 0 →
  Re.sub_go flags r repl left 0 (c :: s)
  = match Re.match_at flags r (c :: s) with
    | Some (rest, _) => repl ++ Re.sub_go flags r repl (pred <$> left) 0 rest
    | None => c :: Re.sub_go flags r repl left 0 s
    end.
Proof.
  intros Hr Hl. destruct (Re.match_at flags r (c :: s)) as [[rest g]|] eqn:Hm.
  - destruct (match_at_progress _ _ _ _ _ Hm) as (pre & E & Hpre).
    rewrite E in Hm |- *. apply (sub_go_match _ _ _ _ _ _ g); [done| |done].
    intros ->. simpl in Hpre. lia.
  - by apply sub_go_nomatch.
Qed.

Lemma findall_go_unfold flags r c s :
  0 < Re.min_len r →
  Re.findall_go flags r 0 (c :: s)
  = match Re.match_at flags r (c :: s) with
    | Some (rest, g) => default [] g :: Re.findall_go flags r 0 rest
    | None => Re.findall_go flags r 0 s
    end.
Proof.
  intros Hr. destruct (Re.match_at flags r (c :: s)) as [[rest g]|] eqn:Hm.
  - destruct (match_at_progress _ _ _ _ _ Hm) as (pre & E & Hpre).
    rewrite E in Hm |- *. apply findall_go_match; [|done].
    intros ->. simpl in Hpre. lia.
  - by apply findall_go_nomatch.
Qed.

(** ** Strings *)

Lemma startswith_app s p : startswith (p ++ s) p = true.
Proof.
  induction p as [|a p IH]; [by destruct s|].
  simpl. by rewrite Ascii.eqb_refl, IH.
Qed.

Lemma startswith_inv s p : startswith s p = true → s = p ++ drop (length p) s.
Proof.
  revert s. induction p as [|a p IH]; intros s; [done|].
  destruct s as [|c s]; [done|]. simpl.
  intros [Hc Hs]%andb_true_iff. apply Ascii.eqb_eq in Hc as ->.
  f_equal. by apply IH.
Qed.

Lemma occurs_startswith p s : startswith s p = true → occurs p s = true.
Proof. destruct s; simpl; [done|]. by intros ->. Qed.

Lemma occurs_suffix p s1 s2 : occurs p (s1 ++ s2) = false → occurs p s2 = false.
Proof.
  induction s1 as [|c s1 IH]; [done|]. simpl.
  intros [_ H]%orb_false_iff. by apply IH.
Qed.

Lemma occurs_cons p c s : occurs p (c :: s) = false → occurs p s = false.
Proof. apply (occurs_suffix p [c] s). Qed.

Lemma after_Some p s rest :
  after p s = Some rest → ∃ pre, s = pre ++ p ++ rest.
Proof.
  induction s as [|c s IH]; cbn [after].
  - destruct p; [|done]. intros [= <-]. by exists [].
  - destruct (startswith (c :: s) p) eqn:E.
    + intros [= <-]. exists []. by apply startswith_inv.
    + intros [pre ->]%IH. by exists (c :: pre).
Qed.

Lemma after_None p s : after p s = None ↔ occurs p s = false.
Proof.
  induction s as [|c s IH]; cbn [after occurs].
  - by destruct p.
  - destruct (startswith (c :: s) p); simpl; [done|]. apply IH.
Qed.

Lemma take_drop_run p s : take_run p s ++ drop_run p s = s.
Proof.
  induction s as [|c s IH]; [done|]. simpl.
  destruct (p c); [|done]. simpl. by rewrite IH.
Qed.

Lemma take_run_Forall p s : Forall (λ c, p c = true) (take_run p s).
Proof.
  induction s as [|c s IH]; simpl; [done|].
  destruct (p c) eqn:E; [|done]. by constructor.
Qed.

Lemma drop_run_head p s c : head (drop_run p s) = Some c → p c = false.
Proof.
  induction s as [|d s IH]; simpl; [done|].
  destruct (p d) eqn:E; [done|]. simpl. by intros [= <-].
Qed.

Lemma run_app p run rest :
  Forall (λ c, p c = true) run →
  (∀ c, head rest = Some c → p c = false) →
  take_run p (run ++ rest) = run ∧ drop_run p (run ++ rest) = rest.
Proof.
  intros Hrun Hrest. induction Hrun as [|c run Hc _ [IH1 IH2]]; simpl.
  - destruct rest as [|c rest]; [done|]. simpl.
    by rewrite (Hrest c eq_refl).
  - rewrite Hc. by rewrite IH1, IH2.
Qed.

(** ** The matcher on the patterns of the program *)

Section MatcherFacts.
Context {R : Type}.
Variable flags : Z.

Lemma rmatch_lit p (k : text → option text → option R) s g :
  Re.rmatch flags (Re.lit p) k s g
  = if startswith s p then k (drop (length p) s) g else None.
Proof.
  revert s. induction p as [|a p IH]; intros s; [done|].
  destruct s as [|c s]; [done|]. simpl.
  destruct (Ascii.eqb c a); [apply IH|done].
Qed.

(** When the continuation accepts whatever is left, a greedy
    repetition takes the whole run. *)
Lemma star_greedy_total a (f : text → R) s :
  Re.star_greedy flags a (λ s1, Some (f s1)) s
  = Some (f (drop_run (Re.atom_ok flags a) s)).
Proof.
  induction s as [|c s IH]; [done|]. simpl.
  destruct (Re.atom_ok flags a c); [by rewrite IH|done].
Qed.

(** When the continuation rejects every text that starts with a
    character of the class, a greedy repetition takes the whole run
    or fails. *)
Lemma star_greedy_run a (k : text → option R) s :
  (∀ c t, Re.atom_ok flags a c = true → k (c :: t) = None) →
  Re.star_greedy flags a k s = k (drop_run (Re.atom_ok flags a) s).
Proof.
  intros Hk. induction s as [|c s IH]; [done|]. simpl.
  destruct (Re.atom_ok flags a c) eqn:E; [|done].
  rewrite IH. destruct (k (drop_run _ s)); [done|]. by apply Hk.
Qed.
End MatcherFacts.

Lemma match_line s :
  Re.match_at Re.NOFLAG line_comment_re s
  = if startswith s (txt "//") then Some (drop_run not_nl (drop 2 s), None)
    else None.
Proof.
  unfold Re.match_at, line_comment_re.
  cbn [Re.rmatch]. rewrite rmatch_lit.
  destruct (startswith s (txt "//")); [|done].
  cbn [Re.rmatch]. by rewrite (star_greedy_total _ _ (λ s1, (s1, None))).
Qed.

Lemma star_lazy_close (s : text) :
  Re.star_lazy Re.DOTALL Re.Dot
    (λ s1, Re.rmatch Re.DOTALL (Re.lit (txt "*/")) (λ s2 g, Some (s2, g)) s1 None) s
  = (λ rest, (rest, None)) <$> after (txt "*/") s.
Proof.
  induction s as [|c s IH]; [done|].
  cbn [Re.star_lazy after]. rewrite rmatch_lit.
  destruct (startswith (c :: s) (txt "*/")); [done|].
  change (Re.atom_ok Re.DOTALL Re.Dot c) with true. cbv iota. apply IH.
Qed.

Lemma match_block s :
  Re.match_at Re.DOTALL block_comment_re s
  = if startswith s (txt "/*")
    then (λ rest, (rest, None)) <$> after (txt "*/") (drop 2 s)
    else None.
Proof.
  unfold Re.match_at, block_comment_re.
  cbn [Re.rmatch]. rewrite rmatch_lit.
  destruct (startswith s (txt "/*")); [|done].
  cbn [Re.rmatch]. apply star_lazy_close.
Qed.

(** ** The text normaliser of [Source.read] *)

(** Induction on the length of a text: the passes resume after a match,
    on a shorter text. *)
Ltac by_length s IH :=
  induction s as [s IH] using (induction_ltof1 _ (@length ascii));
  unfold ltof in IH.

Lemma drop_run_length p s : length (drop_run p s) ≤ length s.
Proof.
  induction s as [|c s IH]; simpl; [done|].
  destruct (p c); simpl; lia.
Qed.

Lemma drop_run_nl_head s c :
  head (drop_run not_nl s) = Some c → c = NL.
Proof.
  intros H%drop_run_head. unfold not_nl in H.
  apply negb_false_iff, Ascii.eqb_eq in H. done.
Qed.

Lemma strip_line_match s :
  startswith s (txt "//") = true →
  strip_line s = strip_line (drop_run not_nl (drop 2 s)).
Proof.
  intros Hs. unfold strip_line, Re.sub. cbn [Z.eqb].
  pose proof (match_line s) as Hm. rewrite Hs in Hm.
  pose proof (startswith_inv _ _ Hs) as Hd. cbn [txt list_ascii_of_string length] in Hd.
  rewrite <- (take_drop_run not_nl (drop 2 s)) in Hd.
  rewrite Hd at 1. rewrite Hd in Hm at 1. rewrite app_assoc in *.
  by rewrite (sub_go_match _ _ [] None _ _ None) by done.
Qed.

Lemma strip_line_nomatch c s :
  startswith (c :: s) (txt "//") = false →
  strip_line (c :: s) = c :: strip_line s.
Proof.
  intros Hs. unfold strip_line, Re.sub. cbn [Z.eqb].
  apply sub_go_nomatch; [done|]. by rewrite match_line, Hs.
Qed.

Lemma strip_line_head s :
  head (strip_line s) = Some "/"%char → head s = Some "/"%char.
Proof.
  destruct s as [|c s]; [done|].
  destruct (startswith (c :: s) (txt "//")) eqn:Hs.
  - rewrite strip_line_match by done.
    destruct (drop_run not_nl (drop 2 (c :: s))) as [|d t] eqn:E; [done|].
    assert (d = NL) as -> by (apply (drop_run_nl_head (drop 2 (c :: s))); by rewrite E).
    rewrite strip_line_nomatch by done. done.
  - rewrite strip_line_nomatch by done. done.
Qed.

Lemma startswith_2 (c : ascii) (s : text) (a b : ascii) :
  startswith (c :: s) [a; b] = true ↔ c = a ∧ head s = Some b.
Proof.
  destruct s as [|d s]; simpl.
  - rewrite andb_false_r. split; [done|]. by intros [_ ?].
  - rewrite andb_true_r, andb_true_iff, !Ascii.eqb_eq.
    split; [by intros [-> ->]|]. by intros [-> [= ->]].
Qed.

(** No [//] is left after the first pass. *)
Lemma strip_line_no_dslash s : occurs (txt "//") (strip_line s) = false.
Proof.
  by_length s IH. destruct s as [|c s]; [done|].
  destruct (startswith (c :: s) (txt "//")) eqn:Hs.
  - rewrite strip_line_match by done. apply IH.
    pose proof (drop_run_length not_nl (drop 2 (c :: s))).
    pose proof (length_drop (c :: s) 2). simpl in *. lia.
  - rewrite strip_line_nomatch by done. cbn [occurs].
    rewrite IH by (simpl; lia). rewrite orb_false_r.
    apply not_true_is_false. intros [-> Hh%strip_line_head]%startswith_2.
    apply not_true_iff_false in Hs. apply Hs, startswith_2. done.
Qed.

(** A closing [*/] is never created by the first pass. *)
Lemma strip_line_no_close s :
  occurs (txt "*/") s = false → occurs (txt "*/") (strip_line s) = false.
Proof.
  by_length s IH. destruct s as [|c s]; [done|]. intros Hocc.
  destruct (startswith (c :: s) (txt "//")) eqn:Hs.
  - rewrite strip_line_match by done. apply IH.
    + pose proof (drop_run_length not_nl (drop 2 (c :: s))).
      pose proof (length_drop (c :: s) 2). simpl in *. lia.
    + rewrite <- (take_drop (2 : nat) (c :: s)) in Hocc.
      apply occurs_suffix in Hocc.
      rewrite <- (take_drop_run not_nl (drop 2 (c :: s))) in Hocc.
      by apply occurs_suffix in Hocc.
  - rewrite strip_line_nomatch by done. cbn [occurs].
    rewrite IH; [|simpl; lia|by apply occurs_cons in Hocc]. rewrite orb_false_r.
    apply not_true_is_false. intros [-> Hh%strip_line_head]%startswith_2.
    cbn [occurs] in Hocc. apply orb_false_iff in Hocc as [Hocc _].
    apply not_true_iff_false in Hocc. apply Hocc, startswith_2. done.
Qed.

Lemma no_dslash_no_line s :
  occurs (txt "//") s = false → Re.has_match Re.NOFLAG line_comment_re s = false.
Proof.
  induction s as [|c s IH]; [done|]. cbn [occurs Re.has_match].
  intros [Hs Ho]%orb_false_iff. rewrite match_line, Hs. by apply IH.
Qed.

Lemma no_close_no_block s :
  occurs (txt "*/") s = false → Re.has_match Re.DOTALL block_comment_re s = false.
Proof.
  induction s as [|c s IH]; [done|]. cbn [Re.has_match]. intros Ho.
  pose proof (occurs_cons _ _ _ Ho) as Ho'.
  rewrite match_block. destruct (startswith (c :: s) (txt "/*")) eqn:Hs.
  - assert (after (txt "*/") (drop 2 (c :: s)) = None) as ->.
    { apply after_None. rewrite <- (take_drop (2 : nat) (c :: s)) in Ho.
      by apply occurs_suffix in Ho. }
    by apply IH.
  - by apply IH.
Qed.

Lemma strip_block_match s rest :
  startswith s (txt "/*") = true → after (txt "*/") (drop 2 s) = Some rest →
  strip_block s = strip_block rest ∧ length rest < length s
  ∧ ∃ pre, s = pre ++ rest.
Proof.
  intros Hs Ha. pose proof (match_block s) as Hm. rewrite Hs, Ha in Hm.
  pose proof (startswith_inv _ _ Hs) as Hd. cbn [txt list_ascii_of_string length] in Hd.
  apply after_Some in Ha as [pre Hpre]. rewrite Hpre in Hd.
  assert (s = (txt "/*" ++ pre ++ txt "*/") ++ rest) as E
    by (rewrite Hd at 1; by rewrite <- !app_assoc).
  split; [|split].
  - unfold strip_block, Re.sub. cbn [Z.eqb]. rewrite E in Hm |- * at 1.
    by rewrite (sub_go_match _ _ [] None _ _ None) by done.
  - rewrite E, length_app. simpl. lia.
  - eauto.
Qed.

Lemma strip_block_nomatch c s :
  Re.match_at Re.DOTALL block_comment_re (c :: s) = None →
  strip_block (c :: s) = c :: strip_block s.
Proof.
  intros Hm. unfold strip_block, Re.sub. cbn [Z.eqb].
  by apply sub_go_nomatch.
Qed.

(** Without a closing [*/] the second pass changes nothing: an
    unterminated block comment stays where it is. *)
Lemma strip_block_id s : occurs (txt "*/") s = false → strip_block s = s.
Proof. intros H. by apply sub_go_no_match_id, no_close_no_block. Qed.

Lemma strip_block_after_slash s :
  occurs (txt "//") ("/"%char :: s) = false →
  s = [] ∨ ∃ x t, s = x :: t ∧ x ≠ "/"%char ∧ strip_block s = x :: strip_block t.
Proof.
  intros Ho. destruct s as [|x t]; [by left|right]. exists x, t.
  assert (x ≠ "/"%char) as Hx.
  { intros ->. done. }
  split; [done|]. split; [done|]. apply strip_block_nomatch.
  rewrite match_block. simpl. apply Ascii.eqb_neq in Hx. by rewrite Hx.
Qed.

(** On a text without [//], the second pass leaves neither a [//] nor a
    complete block comment. *)
Lemma strip_block_clean s :
  occurs (txt "//") s = false →
  occurs (txt "//") (strip_block s) = false
  ∧ Re.has_match Re.DOTALL block_comment_re (strip_block s) = false.
Proof.
  by_length s IH. destruct s as [|c s]; [done|]. intros Ho.
  destruct (Re.match_at Re.DOTALL block_comment_re (c :: s)) as [[rest g]|] eqn:Hm.
  - rewrite match_block in Hm.
    destruct (startswith (c :: s) (txt "/*")) eqn:Hs; [|done].
    destruct (after (txt "*/") (drop 2 (c :: s))) as [rest'|] eqn:Ha; [|done].
    destruct (strip_block_match _ _ Hs Ha) as (-> & Hlen & pre & Hpre).
    apply IH; [done|]. rewrite Hpre in Ho. by apply occurs_suffix in Ho.
  - rewrite strip_block_nomatch by done.
    destruct (IH s) as [H1 H2]; [simpl; lia|by apply occurs_cons in Ho|].
    split.
    + cbn [occurs]. rewrite H1, orb_false_r.
      apply not_true_is_false. intros [-> Hh]%startswith_2.
      destruct (strip_block_after_slash s Ho) as [->|(x & t & -> & Hx & Hb)]; [done|].
      rewrite Hb in Hh. simpl in Hh. congruence.
    + cbn [Re.has_match]. rewrite H2.
      destruct (Re.match_at Re.DOTALL block_comment_re (c :: strip_block s))
        as [[rest g]|] eqn:Hm'; [|done]. exfalso.
      rewrite match_block in Hm'.
      destruct (startswith (c :: strip_block s) (txt "/*")) eqn:Hs; [|done].
      apply startswith_2 in Hs as [-> Hh].
      destruct (strip_block_after_slash s Ho) as [->|(x & t & -> & Hx & Hb)]; [done|].
      rewrite Hb in Hh, Hm'. simpl in Hh. injection Hh as ->.
      rewrite match_block in Hm. simpl in Hm, Hm'. rewrite drop_0 in Hm, Hm'.
      change ["*"%char; "/"%char] with (txt "*/") in Hm, Hm'.
      destruct (after (txt "*/") t) eqn:Ha; [done|].
      apply after_None in Ha. rewrite (strip_block_id t Ha) in Hm'.
      apply after_None in Ha. by rewrite Ha in Hm'.
Qed.

Lemma Source_strip_eq data : Source_strip data = strip_block (strip_line data).
Proof. reflexivity. Qed.

(** After [Source.read]'s normaliser neither pattern matches anywhere. *)
Lemma Source_strip_clean data :
  Re.has_match Re.NOFLAG line_comment_re (Source_strip data) = false
  ∧ Re.has_match Re.DOTALL block_comment_re (Source_strip data) = false.
Proof.
  rewrite Source_strip_eq.
  destruct (strip_block_clean (strip_line data) (strip_line_no_dslash data)) as [H1 H2].
  split; [by apply no_dslash_no_line|done].
Qed.

Lemma Source_strip_idempotent data :
  Source_strip (Source_strip data) = Source_strip data.
Proof.
  destruct (Source_strip_clean data) as [H1 H2].
  rewrite (Source_strip_eq (Source_strip data)).
  unfold strip_line, strip_block, Re.sub. cbn [Z.eqb].
  rewrite (sub_go_no_match_id _ _ _ _ _ H1).
  by rewrite (sub_go_no_match_id _ _ _ _ _ H2).
Qed.

(** C1 (as amended): [Source.read]'s normaliser returns the text with
    every line comment and then every block comment removed, and keeps
    every other character in order.  The first pass goes through the
    text from the left: where the text starts with [//] it drops the
    characters up to the end of the line (the newline stays) and goes
    on, elsewhere it keeps the character.  The second pass does the
    same on what the first pass left: where the text starts with [/*]
    and a [*/] follows, it drops everything through the first such
    [*/], on one line or across lines, and goes on; elsewhere it keeps
    the character.  So in the result neither comment pattern matches
    anywhere: no [//], and no [/*] with a [*/] after it.  The result of
    either normaliser is the input with characters deleted, so it is no
    longer than the input, and holds no [//]; both are total functions.
    A text in which
    neither pattern matches is returned unchanged, and an unterminated
    block comment is not consumed: when the input holds no [*/], only
    the line comments go. *)
Theorem strip_removes_comments (data : text) :
  Re.has_match Re.NOFLAG line_comment_re (Source_strip data) = false
  ∧ Re.has_match Re.DOTALL block_comment_re (Source_strip data) = false
  ∧ Source_strip data `sublist_of` data
  ∧ length (Source_strip data) ≤ length data
  ∧ Header_strip data `sublist_of` data
  ∧ length (Header_strip data) ≤ length data
  ∧ (Re.has_match Re.NOFLAG line_comment_re data = false →
     Re.has_match Re.DOTALL block_comment_re data = false →
     Source_strip data = data)
  ∧ (occurs (txt "*/") data = false → Source_strip data = strip_line data)
  ∧ Source_strip data = strip_block (strip_line data)
  ∧ strip_line [] = []
  ∧ (∀ s, startswith s (txt "//") = true →
       strip_line s = strip_line (drop_run not_nl (drop 2 s)))
  ∧ (∀ c s, startswith (c :: s) (txt "//") = false →
       strip_line (c :: s) = c :: strip_line s)
  ∧ strip_block [] = []
  ∧ (∀ s rest, startswith s (txt "/*") = true →
       after (txt "*/") (drop 2 s) = Some rest →
       strip_block s = strip_block rest)
  ∧ (∀ c s, startswith (c :: s) (txt "/*") = false
            ∨ after (txt "*/") (drop 2 (c :: s)) = None →
       strip_block (c :: s) = c :: strip_block s)
  ∧ Re.has_match Re.NOFLAG line_comment_re (Header_strip data) = false.
Proof.
  destruct (Source_strip_clean data) as [H1 H2].
  assert (Source_strip data `sublist_of` data) as Hs.
  { unfold Source_strip, Re.sub. cbn [Z.eqb].
    etransitivity; apply sub_go_sublist. }
  assert (Header_strip data `sublist_of` data) as Hh.
  { unfold Header_strip, Re.sub. cbn [Z.eqb].
    etransitivity; apply sub_go_sublist. }
  split; [done|]. split; [done|]. split; [done|].
  split; [by apply sublist_length|]. split; [done|].
  split; [by apply sublist_length|]. split; [|split].
  - intros Hl Hb. unfold Source_strip, Re.sub. cbn [Z.eqb].
    rewrite (sub_go_no_match_id _ _ _ _ _ Hl).
    by rewrite (sub_go_no_match_id _ _ _ _ _ Hb).
  - intros Hc. rewrite Source_strip_eq.
    by apply strip_block_id, strip_line_no_close.
  - split; [apply Source_strip_eq|]. split; [done|].
    split; [apply strip_line_match|]. split; [apply strip_line_nomatch|].
    split; [done|]. split; [|split].
    + intros s rest Hst Ha. by destruct (strip_block_match s rest Hst Ha) as [-> _].
    + intros c s Hno. apply strip_block_nomatch. rewrite match_block.
      destruct Hno as [-> | Hno]; [done|].
      rewrite Hno. by destruct (startswith (c :: s) (txt "/*")).
    + apply no_dslash_no_line.
      apply (strip_line_no_dslash
               (Re.sub block_comment_re [] data Re.DOTALL Re.NOFLAG)).
Qed.

Lemma strip_removes_comments_witness :
  Source_strip (txt "a/*b // c") = strip_line (txt "a/*b // c").
Proof.
  apply (proj1 (proj2 (proj2 (proj2 (proj2 (proj2 (proj2 (proj2
    (strip_removes_comments (txt "a/*b // c")))))))))).
  vm_compute. reflexivity.
Defined.

(** C1, as stated, fails: an unterminated block comment is not consumed
    to the end of the file; it stays in the text, with both normalisers. *)
Lemma unterminated_block_kept :
  Source_strip (txt "a/*b") = txt "a/*b"
  ∧ Header_strip (txt "a/*b") = txt "a/*b"
  ∧ Source_strip (txt "a/*b") ≠ txt "a".
Proof. vm_compute. repeat split; discriminate. Qed.

(** C9: [Source.read]'s normaliser is idempotent on every text;
    [Header.read]'s is not: of seventeen block comments the first pass
    removes sixteen ([re.DOTALL] stands where [count] is read) and the
    second pass removes the last. *)
Theorem normaliser_idempotence :
  (∀ data, Source_strip (Source_strip data) = Source_strip data)
  ∧ Header_strip seventeen_comments = txt "/**/"
  ∧ Header_strip (Header_strip seventeen_comments) = []
  ∧ Header_strip (Header_strip seventeen_comments) ≠ Header_strip seventeen_comments.
Proof.
  split; [apply Source_strip_idempotent|].
  vm_compute. repeat split; discriminate.
Qed.

(** ** The include parser *)

Lemma class_space_open c : is_space c = true → open_delim c = false.
Proof. destruct c as [[] [] [] [] [] [] [] []]; vm_compute; congruence. Qed.

Lemma class_open_fname c : open_delim c = true → fname_char c = false.
Proof. destruct c as [[] [] [] [] [] [] [] []]; vm_compute; congruence. Qed.

Lemma class_fname_close c : fname_char c = true → close_delim c = false.
Proof. destruct c as [[] [] [] [] [] [] [] []]; vm_compute; congruence. Qed.

Lemma take_run_length p s :
  take (length s - length (drop_run p s)) s = take_run p s.
Proof.
  assert (length s - length (drop_run p s) = length (take_run p s)) as ->.
  { rewrite <- (take_drop_run p s) at 1. rewrite length_app. lia. }
  rewrite <- (take_drop_run p s) at 2. by rewrite take_app_length.
Qed.

Lemma plus_run_spec p s run rest :
  plus_run p s = Some (run, rest)
  ↔ s = run ++ rest ∧ is_run p run ∧ (∀ c, head rest = Some c → p c = false).
Proof.
  unfold plus_run, is_run. split.
  - destruct s as [|c s]; [done|]. destruct (p c) eqn:Hc; [|done].
    intros [= <- <-]. split; [|split; [split|]].
    + simpl. by rewrite take_drop_run.
    + done.
    + constructor; [done|apply take_run_Forall].
    + apply drop_run_head.
  - intros (-> & [Hne Hall] & Hrest). destruct run as [|c run]; [done|].
    apply Forall_cons in Hall as [Hc Hall]. simpl. rewrite Hc.
    by destruct (run_app p run rest Hall Hrest) as [-> ->].
Qed.

Section PlusFacts.
Context {R : Type}.
Variables (flags : Z) (p : ascii → bool).

Lemma rmatch_seq r1 r2 (k : text → option text → option R) s g :
  Re.rmatch flags (Re.Seq r1 r2) k s g
  = Re.rmatch flags r1 (Re.rmatch flags r2 k) s g.
Proof. reflexivity. Qed.

Lemma rmatch_opt a (k : text → option text → option R) s g :
  Re.rmatch flags (Re.Opt a) k s g
  = match s with
    | c :: s' =>
        if Re.atom_ok flags a c then
          match k s' g with
          | Some r => Some r
          | None => k s g
          end
        else k s g
    | [] => k [] g
    end.
Proof. by destruct s. Qed.

(** A greedy [+] followed by something that cannot start with a
    character of the class takes the longest run, or fails. *)
Lemma rmatch_plus_run (k : text → option text → option R) s g :
  (∀ c t, p c = true → k (c :: t) g = None) →
  Re.rmatch flags (Re.Plus (Re.Set_ p)) k s g
  = match plus_run p s with
    | Some (_, rest) => k rest g
    | None => None
    end.
Proof.
  intros Hk. destruct s as [|c s]; [done|]. cbn [Re.rmatch plus_run Re.atom_ok].
  destruct (p c); [|done]. by rewrite star_greedy_run.
Qed.

(** The same with nothing after it. *)
Lemma rmatch_plus_last (f : text → option text → R) s g :
  Re.rmatch flags (Re.Plus (Re.Set_ p)) (λ s1 g1, Some (f s1 g1)) s g
  = match plus_run p s with
    | Some (_, rest) => Some (f rest g)
    | None => None
    end.
Proof.
  destruct s as [|c s]; [done|]. cbn [Re.rmatch plus_run Re.atom_ok].
  destruct (p c); [|done]. by rewrite (star_greedy_total _ _ (λ s1, f s1 g)).
Qed.

(** The same inside a group: the group is the run. *)
Lemma rmatch_group_plus_run (k : text → option text → option R) s g :
  (∀ c t g', p c = true → k (c :: t) g' = None) →
  Re.rmatch flags (Re.Group (Re.Plus (Re.Set_ p))) k s g
  = match plus_run p s with
    | Some (name, rest) => k rest (Some name)
    | None => None
    end.
Proof.
  intros Hk. destruct s as [|c s]; [done|]. cbn [Re.rmatch plus_run Re.atom_ok].
  destruct (p c); [|done]. rewrite star_greedy_run by (intros; by apply Hk).
  cbn [Re.atom_ok]. do 2 f_equal.
  change (length (c :: s)) with (S (length s)).
  pose proof (drop_run_length p s).
  rewrite Nat.sub_succ_l by done. cbn [take]. f_equal. apply take_run_length.
Qed.
End PlusFacts.

Lemma plus_run_not p (c : ascii) (t : text) : p c = false → plus_run p (c :: t) = None.
Proof. intros H. simpl. by rewrite H. Qed.

Lemma match_directive_tail t :
  Re.rmatch Re.NOFLAG
    (Re.Seq (Re.Plus (Re.Set_ open_delim))
      (Re.Seq (Re.Group (Re.Plus (Re.Set_ fname_char))) (Re.Plus (Re.Set_ close_delim))))
    (λ s1 g1, Some (s1, g1)) t None
  = (λ '(name, rest), (rest, Some name)) <$> directive_tail t.
Proof.
  assert (∀ s g, Re.rmatch Re.NOFLAG
      (Re.Seq (Re.Group (Re.Plus (Re.Set_ fname_char))) (Re.Plus (Re.Set_ close_delim)))
      (λ s1 g1, Some (s1, g1)) s g
    = match plus_run fname_char s with
      | Some (name, s4) =>
          match plus_run close_delim s4 with
          | Some (_, s5) => Some (s5, Some name)
          | None => None
          end
      | None => None
      end) as Hname.
  { intros s g. rewrite rmatch_seq, rmatch_group_plus_run.
    - destruct (plus_run fname_char s) as [[name s4]|]; [|done].
      apply (rmatch_plus_last _ _ (λ s1 g1, (s1, g1))).
    - intros c u g' Hc. rewrite (rmatch_plus_last _ _ (λ s1 g1, (s1, g1))).
      by rewrite plus_run_not by by apply class_fname_close. }
  unfold directive_tail. rewrite rmatch_seq, rmatch_plus_run.
  - destruct (plus_run open_delim t) as [[? s3]|]; [|done].
    rewrite Hname. destruct (plus_run fname_char s3) as [[name s4]|]; [|done].
    by destruct (plus_run close_delim s4) as [[? s5]|].
  - intros c u Hc. rewrite Hname.
    by rewrite plus_run_not by by apply class_open_fname.
Qed.

(** The pattern matches at the head of [s] exactly when [s] starts with
    a directive; backtracking never finds another way to match. *)
Lemma match_includes s :
  Re.match_at Re.NOFLAG includes_re s
  = (λ '(name, rest), (rest, Some name)) <$> directive s.
Proof.
  unfold Re.match_at, includes_re, directive.
  rewrite rmatch_seq, rmatch_lit.
  destruct (startswith s (txt "#include")); [|done].
  change (length (txt "#include")) with 8.
  rewrite rmatch_seq, rmatch_opt. destruct (drop 8 s) as [|c s1].
  - apply match_directive_tail.
  - cbn [Re.atom_ok]. destruct (is_space c) eqn:Hc; [|apply match_directive_tail].
    rewrite (match_directive_tail s1).
    destruct (_ <$> _) eqn:E; [done|].
    rewrite match_directive_tail. unfold directive_tail at 1.
    by rewrite plus_run_not by by apply class_space_open.
Qed.

Lemma is_run_head p l rest c :
  is_run p l → head (l ++ rest) = Some c → p c = true.
Proof.
  intros [Hne Hall]. destruct l as [|d l]; [done|].
  apply Forall_cons in Hall as [Hd _]. simpl. by intros [= <-].
Qed.

Lemma directive_tail_spec t name rest :
  directive_tail t = Some (name, rest)
  ↔ ∃ opens closes,
      t = opens ++ name ++ closes ++ rest
      ∧ is_run open_delim opens ∧ is_run fname_char name
      ∧ is_run close_delim closes
      ∧ (∀ c, head rest = Some c → close_delim c = false).
Proof.
  unfold directive_tail. split.
  - destruct (plus_run open_delim t) as [[opens s3]|] eqn:E1; [|done].
    destruct (plus_run fname_char s3) as [[name' s4]|] eqn:E2; [|done].
    destruct (plus_run close_delim s4) as [[closes s5]|] eqn:E3; [|done].
    intros [= -> ->].
    apply plus_run_spec in E1 as (-> & H1 & _).
    apply plus_run_spec in E2 as (-> & H2 & _).
    apply plus_run_spec in E3 as (-> & H3 & H4).
    by exists opens, closes.
  - intros (opens & closes & -> & H1 & H2 & H3 & H4).
    assert (plus_run open_delim (opens ++ name ++ closes ++ rest)
            = Some (opens, name ++ closes ++ rest)) as ->.
    { apply plus_run_spec. split; [done|]. split; [done|].
      intros c Hc. apply (is_run_head _ _ _ _ H2) in Hc.
      destruct (open_delim c) eqn:Ho; [|done].
      apply class_open_fname in Ho. congruence. }
    assert (plus_run fname_char (name ++ closes ++ rest)
            = Some (name, closes ++ rest)) as ->.
    { apply plus_run_spec. split; [done|]. split; [done|].
      intros c Hc. apply (is_run_head _ _ _ _ H3) in Hc.
      destruct (fname_char c) eqn:Ho; [|done].
      apply class_fname_close in Ho. congruence. }
    assert (plus_run close_delim (closes ++ rest) = Some (closes, rest)) as ->.
    { by apply plus_run_spec. }
    done.
Qed.

Lemma directive_spec s name rest :
  directive s = Some (name, rest) ↔ is_directive s name rest.
Proof.
  unfold directive, is_directive. split.
  - destruct (startswith s (txt "#include")) eqn:Hs; [|done].
    apply startswith_inv in Hs. change (length (txt "#include")) with 8 in Hs.
    destruct (drop 8 s) as [|c s1] eqn:Hd.
    { intros (opens & closes & E & [Hne _] & _)%directive_tail_spec.
      symmetry in E. by apply app_nil in E as [-> _]. }
    destruct (is_space c) eqn:Hc.
    + intros (opens & closes & -> & Hrest)%directive_tail_spec.
      exists [c], opens, closes. split; [done|]. split; [|done]. right. by exists c.
    + intros (opens & closes & E & Hrest)%directive_tail_spec.
      exists [], opens, closes. rewrite <- E. split; [done|]. split; [by left|done].
  - intros (ws & opens & closes & -> & Hws & H1 & Hrest).
    rewrite startswith_app.
    rewrite (drop_app_length (txt "#include")).
    assert (directive_tail (opens ++ name ++ closes ++ rest) = Some (name, rest)) as Ht.
    { apply directive_tail_spec. by exists opens, closes. }
    destruct Hws as [->|(c & -> & Hc)].
    + destruct opens as [|o opens]; [by destruct H1|].
      simpl. assert (is_space o = false) as ->; [|done].
      destruct H1 as [_ [Ho _]%Forall_cons].
      destruct (is_space o) eqn:Hs; [|done].
      apply class_space_open in Hs. congruence.
    + simpl. by rewrite Hc.
Qed.

Lemma is_directive_shorter s name rest :
  is_directive s name rest → ∃ pre, pre ≠ [] ∧ s = pre ++ rest.
Proof.
  intros (ws & opens & closes & -> & _).
  exists (txt "#include" ++ ws ++ opens ++ name ++ closes).
  split; [done|]. by rewrite <- !app_assoc.
Qed.

Lemma parse_includes_directive s name rest :
  is_directive s name rest → parse_includes s = name :: parse_includes rest.
Proof.
  intros Hd. destruct (is_directive_shorter _ _ _ Hd) as (pre & Hpre & ->).
  apply directive_spec in Hd.
  unfold parse_includes, Re.findall.
  rewrite (findall_go_match _ _ pre rest (Some name)); [done|done|].
  by rewrite match_includes, Hd.
Qed.

Lemma parse_includes_skip c s :
  (∀ name rest, ¬ is_directive (c :: s) name rest) →
  parse_includes (c :: s) = parse_includes s.
Proof.
  intros Hno. unfold parse_includes, Re.findall.
  apply findall_go_nomatch. rewrite match_includes.
  destruct (directive (c :: s)) as [[name rest]|] eqn:E; [|done].
  by apply directive_spec, Hno in E.
Qed.

(** C3 (as amended): the include parser scans the text from left to
    right.  Where the text starts with a directive ([#include], at most
    one whitespace character, one or more opening characters each a
    double quote or [<], a run of file name characters, one or more
    closing characters each a double quote or [>]) it records the file
    name and goes on after the directive; elsewhere it moves one
    character on.  This fixes the result: the names of the directives in
    order, duplicates kept.  The opening and closing characters need
    not match. *)
Theorem parse_includes_spec :
  parse_includes [] = []
  ∧ (∀ s name rest,
       is_directive s name rest → parse_includes s = name :: parse_includes rest)
  ∧ (∀ c s,
       (∀ name rest, ¬ is_directive (c :: s) name rest) →
       parse_includes (c :: s) = parse_includes s).
Proof.
  split; [done|]. split.
  - apply parse_includes_directive.
  - apply parse_includes_skip.
Qed.

Lemma parse_includes_spec_witness :
  parse_includes (txt "#include <a.h>" ++ [NL]) = txt "a.h" :: parse_includes [NL].
Proof.
  apply (proj1 (proj2 parse_includes_spec)).
  exists (txt " "), (txt "<"), (txt ">").
  split; [reflexivity|]. split; [right; by exists " "%char|].
  split; [split; [done|by repeat constructor]|].
  split; [split; [done|by repeat constructor]|].
  split; [split; [done|by repeat constructor]|].
  intros c [= <-]. reflexivity.
Defined.

(** C3, as stated, fails: a directive opened by a double quote and
    closed by [>] is matched. *)
Lemma mismatched_delimiters_match :
  parse_includes (txt "#include " ++ DQUOTE :: txt "a.h>") = [txt "a.h"].
Proof. vm_compute. reflexivity. Qed.

(** ** The transitive include resolver *)

Section Resolver.
Variable iter : gset Header.t → list Header.t.
Hypothesis iter_perm : ∀ X, iter X ≡ₚ elements X.

Lemma iter_elem X h : h ∈ iter X ↔ h ∈ X.
Proof. by rewrite iter_perm, elem_of_elements. Qed.

(** The loop, given that the recursive call behaves on every universe
    it is handed: the parents found stay inside what was left of the
    universe, and whatever a visited header names is found. *)
Lemma used_loop recurse (start used : gset Header.t) l P :
  (∀ l' U, U ⊆ start ∖ used →
     ∃ F, recurse l' U = Some F ∧ F ⊆ U
          ∧ ∀ h, h ∈ U → Header.filename h ∈ l' → h ∈ F) →
  P ⊆ start ∖ used →
  ∃ P', foldl (used_step recurse) (Some (P, (start ∖ used) ∖ P)) l
        = Some (P', (start ∖ used) ∖ P')
      ∧ P ⊆ P' ∧ P' ⊆ start ∖ used
      ∧ ∀ h a, h ∈ l → a ∈ start → Header.filename a ∈ Header.include_lst h →
               a ∈ used ∪ P'.
Proof.
  intros Hrec. revert P. induction l as [|h l IH]; intros P HP.
  - exists P. split; [done|]. split; [done|]. split; [done|].
    intros h a Hh. by apply elem_of_nil in Hh.
  - cbn [foldl]. unfold used_step at 2.
    destruct (Header.include_lst h) as [|i il] eqn:Hi.
    + destruct (IH P HP) as (P' & -> & H1 & H2 & H3).
      exists P'. split; [done|]. split; [done|]. split; [done|].
      intros h' a [->|Hh']%elem_of_cons Ha Hn; [|by eapply H3].
      rewrite Hi in Hn. by apply elem_of_nil in Hn.
    + destruct (Hrec (i :: il) ((start ∖ used) ∖ P)) as (F & -> & HF & Hin);
        [set_solver|].
      replace ((start ∖ used) ∖ P ∖ (P ∪ F)) with ((start ∖ used) ∖ (P ∪ F))
        by set_solver.
      destruct (IH (P ∪ F)) as (P' & -> & H1 & H2 & H3); [set_solver|].
      exists P'. split; [done|]. split; [set_solver|]. split; [done|].
      intros h' a [->|Hh']%elem_of_cons Ha Hn; [|by eapply H3].
      rewrite Hi in Hn.
      destruct (decide (a ∈ used)) as [|Hu]; [set_solver|].
      destruct (decide (a ∈ P)) as [|Hp]; [set_solver|].
      assert (a ∈ F) by (apply Hin; [set_solver|done]). set_solver.
Qed.

(** With more fuel than the universe has headers the resolver returns;
    what it returns lies in the universe, holds every header of the
    universe that the list names, and every header of the universe that
    one of those names. *)
Lemma find_used_headers_spec fuel self start_lst (start_set : gset Header.t) :
  size start_set < fuel →
  ∃ found, find_used_headers iter fuel self start_lst start_set = Some found
    ∧ found ⊆ start_set
    ∧ (∀ h, h ∈ start_set → Header.filename h ∈ start_lst → h ∈ found)
    ∧ (∀ h a, h ∈ start_set → Header.filename h ∈ start_lst →
              a ∈ start_set → Header.filename a ∈ Header.include_lst h →
              a ∈ found).
Proof.
  revert start_lst start_set. induction fuel as [|fuel IH]; intros start_lst start_set Hsz; [lia|].
  cbn [find_used_headers].
  set (used := filter (λ h, Header.filename h ∈ start_lst) start_set).
  assert (used ⊆ start_set) as Hused by (unfold used; set_solver).
  destruct (decide (used = ∅)) as [He|Hne].
  - assert (iter used = []) as ->.
    { apply Permutation_nil_r. by rewrite iter_perm, He, elements_empty. }
    cbn [foldl]. exists (used ∪ ∅). split; [done|]. split; [set_solver|].
    split; [|intros h a Hh Hn]; unfold used in *; set_solver.
  - destruct (used_loop (find_used_headers iter fuel self) start_set used (iter used) ∅)
      as (P' & Hf & _ & HP & Hnamed).
    + intros l' U HU. destruct (IH l' U) as (F & -> & HF & Hd & _).
      * apply set_choose_L in Hne as [x Hx].
        assert (U ⊂ start_set) as Hs by set_solver.
        apply subset_size in Hs. lia.
      * by exists F.
    + set_solver.
    + replace ((start_set ∖ used) ∖ ∅) with (start_set ∖ used) in Hf by set_solver.
      rewrite Hf. exists (used ∪ P'). split; [done|]. split; [set_solver|].
      split; [unfold used; set_solver|].
      intros h a Hh Hn Ha Hi. apply (Hnamed h a); [|done|done].
      apply iter_elem. unfold used. set_solver.
Qed.
End Resolver.

Lemma pair_size (a b : Header.t) : size ({[a; b]} : gset Header.t) ≤ 2.
Proof.
  rewrite size_union_alt, size_singleton.
  assert (({[b]} : gset Header.t) ∖ {[a]} ⊆ {[b]}) as H by set_solver.
  apply subseteq_size in H. rewrite size_singleton in H. lia.
Qed.

(** C2 (as amended): for headers A and B that name each other, resolving
    A's include list against the universe {A, B} returns, for every
    fuel above the size of the universe and every iteration order, and
    what it returns is exactly {A, B}: A is reached back through B. *)
Theorem mutual_include_closure
    (iter : gset Header.t → list Header.t) (self : Source.t)
    (a b : Header.t) (fuel : nat) :
  (∀ X, iter X ≡ₚ elements X) →
  Header.filename b ∈ Header.include_lst a →
  Header.filename a ∈ Header.include_lst b →
  2 < fuel →
  find_used_headers iter fuel self (Header.include_lst a) {[a; b]} = Some {[a; b]}.
Proof.
  intros Hiter Hab Hba Hfuel.
  destruct (find_used_headers_spec iter Hiter fuel self (Header.include_lst a) {[a; b]})
    as (found & -> & Hsub & Hdirect & Hnamed).
  { pose proof (pair_size a b). lia. }
  f_equal. apply set_eq. intros h. split; [apply Hsub|].
  intros [->%elem_of_singleton| ->%elem_of_singleton]%elem_of_union.
  - apply (Hnamed b a); [set_solver|done|set_solver|done].
  - apply Hdirect; [set_solver|done].
Qed.

Lemma mutual_include_closure_witness :
  find_used_headers elements 3 some_source (Header.include_lst cyc_a) {[cyc_a; cyc_b]}
  = Some {[cyc_a; cyc_b]}.
Proof.
  apply (mutual_include_closure elements some_source cyc_a cyc_b 3).
  - intros X. reflexivity.
  - apply list_elem_of_here.
  - apply list_elem_of_here.
  - lia.
Defined.

Lemma pair_l (a b : Header.t) : a ∈ ({[a; b]} : gset Header.t).
Proof. set_solver. Qed.

Lemma pair_r (a b : Header.t) : b ∈ ({[a; b]} : gset Header.t).
Proof. set_solver. Qed.

Lemma single_in (a : Header.t) : a ∈ ({[a]} : gset Header.t).
Proof. set_solver. Qed.

(** C2, as stated, fails: with a.h including b.h and b.h including a.h,
    the closure of a.h against {a.h, b.h} holds a.h as well, so it is
    not {b.h}. *)
Lemma mutual_include_not_only_b :
  ∃ found,
    find_used_headers elements 3 some_source (Header.include_lst cyc_a) {[cyc_a; cyc_b]}
    = Some found
    ∧ cyc_a ∈ found ∧ found ≠ {[cyc_b]}.
Proof.
  destruct (find_used_headers_spec elements (λ X, reflexivity _) 3 some_source
              (Header.include_lst cyc_a) {[cyc_a; cyc_b]})
    as (found & Hf & Hsub & Hdirect & Hnamed).
  { pose proof (pair_size cyc_a cyc_b). lia. }
  exists found. split; [exact Hf|].
  assert (cyc_a ∈ found) as Ha.
  { apply (Hnamed cyc_b cyc_a);
      [apply pair_r|apply list_elem_of_here|apply pair_l|apply list_elem_of_here]. }
  split; [exact Ha|]. intros E. rewrite E in Ha.
  apply elem_of_singleton in Ha. discriminate Ha.
Qed.

(** C4 (as amended): with more fuel than the universe has headers the
    resolver returns a subset of the universe, for every include list,
    universe and iteration order; so a query file that is not a member
    of the universe passed in is not in its closure.  Nothing else is
    kept out: every header of the universe that the list names is in
    the closure. *)
Theorem closure_subset
    (iter : gset Header.t → list Header.t) (self : Source.t)
    (start_lst : list text) (start_set : gset Header.t) (fuel : nat) :
  (∀ X, iter X ≡ₚ elements X) →
  size start_set < fuel →
  ∃ found,
    find_used_headers iter fuel self start_lst start_set = Some found
    ∧ found ⊆ start_set
    ∧ (∀ query : Header.t, query ∉ start_set → query ∉ found)
    ∧ (∀ h, h ∈ start_set → Header.filename h ∈ start_lst → h ∈ found).
Proof.
  intros Hiter Hfuel.
  destruct (find_used_headers_spec iter Hiter fuel self start_lst start_set Hfuel)
    as (found & Hf & Hsub & Hdirect & _).
  exists found. split; [done|]. split; [done|]. split; [set_solver|done].
Qed.

Lemma closure_subset_witness :
  ∃ found,
    find_used_headers elements 2 some_source (Header.include_lst self_inc) {[self_inc]}
    = Some found
    ∧ found ⊆ {[self_inc]}
    ∧ ∀ query : Header.t, query ∉ ({[self_inc]} : gset Header.t) → query ∉ found.
Proof.
  destruct (closure_subset elements some_source (Header.include_lst self_inc)
              {[self_inc]} 2) as (found & Hf & Hsub & Hq & _).
  - intros X. reflexivity.
  - rewrite size_singleton. lia.
  - exists found. split; [exact Hf|]. split; [exact Hsub|exact Hq].
Defined.

(** C4, as stated, fails in its second half: a header that includes
    itself is in the closure resolved from its own include list over a
    universe it belongs to. *)
Lemma closure_contains_query :
  ∃ found,
    find_used_headers elements 2 some_source (Header.include_lst self_inc) {[self_inc]}
    = Some found
    ∧ self_inc ∈ found.
Proof.
  destruct (find_used_headers_spec elements (λ X, reflexivity _) 2 some_source
              (Header.include_lst self_inc) {[self_inc]})
    as (found & Hf & _ & Hdirect & _).
  { rewrite size_singleton. lia. }
  exists found. split; [exact Hf|].
  apply Hdirect; [apply single_in|apply list_elem_of_here].
Qed.

(** ** The utility scorer *)

Lemma insert_desc_perm e l : insert_desc e l ≡ₚ e :: l.
Proof.
  induction l as [|x l IH]; [done|]. simpl.
  destruct (Qle_bool (Entry.utility x) (Entry.utility e)); [done|].
  rewrite IH. apply perm_swap.
Qed.

Lemma sorted_desc_perm l : sorted_desc l ≡ₚ l.
Proof.
  induction l as [|x l IH]; [done|]. simpl.
  by rewrite insert_desc_perm, IH.
Qed.

Lemma foldl_union {A} (f : A → gset text) (l : list A) (acc : gset text) :
  foldl (λ acc h, acc ∪ f h) acc l = acc ∪ ⋃ (f <$> l).
Proof.
  revert acc. induction l as [|x l IH]; intros acc; simpl.
  - set_solver.
  - rewrite IH. set_solver.
Qed.

Lemma union_list_perm {A} (f : A → gset text) (l1 l2 : list A) :
  l1 ≡ₚ l2 → ⋃ (f <$> l1) = ⋃ (f <$> l2).
Proof.
  intros Hp. apply set_eq. intros x. rewrite !elem_of_union_list.
  split; intros (X & HX & Hx); exists X; (split; [|done]);
    apply list_elem_of_fmap in HX as (h & -> & Hh); apply list_elem_of_fmap;
    exists h; (split; [done|]); [by rewrite <- Hp|by rewrite Hp].
Qed.

Lemma ratio_bounds (a b : gset text) :
  a ⊆ b → (0 <= ratio a b)%Q ∧ (ratio a b <= 1)%Q.
Proof.
  intros Hab%subseteq_size. unfold ratio.
  destruct (size b =? 0)%nat eqn:Hb; [done|].
  apply Nat.eqb_neq in Hb.
  assert (0 < inject_Z (Z.of_nat (size b)))%Q as Hpos.
  { rewrite <- (Zlt_Qlt 0). lia. }
  split.
  - apply Qle_shift_div_l; [done|]. rewrite Qmult_0_l.
    rewrite <- (Zle_Qle 0). lia.
  - apply Qle_shift_div_r; [done|]. rewrite Qmult_1_l.
    rewrite <- Zle_Qle. lia.
Qed.

Lemma ratio_zero_den (a b : gset text) : size b = 0 → ratio a b = 0%Q.
Proof. intros H. unfold ratio. by rewrite H. Qed.

Lemma ratio_zero_num (a b : gset text) : size a = 0 → (ratio a b == 0)%Q.
Proof.
  intros H. unfold ratio. destruct (size b =? 0)%nat; [done|].
  rewrite H. simpl. unfold Qdiv. apply Qmult_0_l.
Qed.

Lemma ratio_quotient (a b : gset text) :
  size b ≠ 0 →
  ratio a b = (inject_Z (Z.of_nat (size a)) / inject_Z (Z.of_nat (size b)))%Q.
Proof. intros H%Nat.eqb_neq. unfold ratio. by rewrite H. Qed.

Section Scorer.
Variable iter : gset Header.t → list Header.t.
Variable iterS : gset Source.t → list Source.t.
Hypothesis iter_perm : ∀ X, iter X ≡ₚ elements X.
Hypothesis iterS_perm : ∀ X, iterS X ≡ₚ elements X.

Lemma resolve_total self start_lst start_set :
  ∃ found, resolve iter self start_lst start_set = Some found ∧ found ⊆ start_set.
Proof.
  destruct (find_used_headers_spec iter iter_perm (S (size start_set)) self
              start_lst start_set) as (found & Hf & Hsub & _); [lia|].
  by exists found.
Qed.

(** The rows of [Source.utility]: one per header of the closure, scored
    against the used tag set. *)
Lemma Source_utility_rows self header_lst :
  ∃ used_header_set,
    resolve iter self (Source.include_lst self) (list_to_set header_lst)
    = Some used_header_set
    ∧ ∃ rows,
        Source_utility iter self header_lst = Some rows
        ∧ ∀ e, e ∈ rows ↔
            ∃ h, h ∈ used_header_set
              ∧ e = Source_entry self
                      (used_tags (Source.tag_set self)
                         (Header.tag_set <$> elements used_header_set)) h.
Proof.
  destruct (resolve_total self (Source.include_lst self) (list_to_set header_lst))
    as (used & Hr & _).
  exists used. split; [done|]. unfold Source_utility. rewrite Hr.
  eexists. split; [done|]. intros e.
  rewrite sorted_desc_perm, list_elem_of_fmap, foldl_union, (left_id_L ∅ (∪)).
  rewrite (union_list_perm Header.tag_set _ _ (iter_perm used)).
  unfold used_tags. split.
  - intros (h & -> & Hh). exists h. split; [|done].
    by rewrite iter_perm, elem_of_elements in Hh.
  - intros (h & Hh & ->). exists h. split; [done|].
    by rewrite iter_perm, elem_of_elements.
Qed.

Lemma find_used_sources_total self header_set source_set :
  ∃ used, find_used_sources iter iterS self header_set source_set = Some used.
Proof.
  unfold find_used_sources. generalize (∅ : gset Source.t).
  induction (iterS source_set) as [|s l IH]; intros acc; [by exists acc|].
  cbn [foldl].
  destruct (resolve_total s (Source.include_lst s) header_set) as (found & -> & _).
  apply IH.
Qed.

(** The rows of [Header.utility]: one per source that pulls the header
    in, scored against the used tag set. *)
Lemma Header_utility_rows self header_lst source_lst :
  ∃ used_source_set,
    find_used_sources iter iterS self (list_to_set header_lst) (list_to_set source_lst)
    = Some used_source_set
    ∧ ∃ rows,
        Header_utility iter iterS self header_lst source_lst = Some rows
        ∧ ∀ e, e ∈ rows ↔
            ∃ s, s ∈ used_source_set
              ∧ e = Header_entry self
                      (used_tags (Header.tag_set self)
                         (Source.tag_set <$> elements used_source_set)) s.
Proof.
  destruct (find_used_sources_total self (list_to_set header_lst) (list_to_set source_lst))
    as (used & Hr).
  exists used. split; [done|]. unfold Header_utility. rewrite Hr.
  eexists. split; [done|]. intros e.
  rewrite sorted_desc_perm, list_elem_of_fmap, foldl_union, (left_id_L ∅ (∪)).
  rewrite (union_list_perm Source.tag_set _ _ (iterS_perm used)).
  unfold used_tags. split.
  - intros (h & -> & Hh). exists h. split; [|done].
    by rewrite iterS_perm, elem_of_elements in Hh.
  - intros (h & Hh & ->). exists h. split; [done|].
    by rewrite iterS_perm, elem_of_elements.
Qed.
End Scorer.

Lemma ratio_scored (e : Entry.t) (shared used : gset text) :
  shared ⊆ used → Entry.utility e = ratio shared used → scored e shared used.
Proof.
  intros Hsub He. unfold scored. rewrite He.
  destruct (ratio_bounds shared used Hsub) as [H0 H1].
  split; [apply ratio_quotient|]. split; [done|]. split; [done|].
  split; [apply ratio_zero_den|apply ratio_zero_num].
Qed.

(** C5: every counterpart of a subject has a row, and every row belongs
    to a counterpart; the row's utility is the size of the shared tag
    set over the size of the used tag set, lies between 0 and 1, is 0
    when the used tag set is empty (the division by zero is caught) and
    0 when the shared tag set is empty.  Both for [Source.utility] and
    for [Header.utility], for every iteration order of the sets. *)
Theorem utility_ratio_spec
    (iter : gset Header.t → list Header.t) (iterS : gset Source.t → list Source.t)
    (src : Source.t) (hdr : Header.t)
    (header_lst : list Header.t) (source_lst : list Source.t) :
  (∀ X, iter X ≡ₚ elements X) →
  (∀ X, iterS X ≡ₚ elements X) →
  (∃ used_header_set rows,
     resolve iter src (Source.include_lst src) (list_to_set header_lst)
     = Some used_header_set
     ∧ Source_utility iter src header_lst = Some rows
     ∧ let used := used_tags (Source.tag_set src)
                     (Header.tag_set <$> elements used_header_set) in
       (∀ h, h ∈ used_header_set →
          ∃ e, e ∈ rows ∧ Entry.filename e = Header.filename h
               ∧ scored e (Header.tag_set h ∩ used) used)
       ∧ (∀ e, e ∈ rows →
          ∃ h, h ∈ used_header_set ∧ Entry.filename e = Header.filename h
               ∧ scored e (Header.tag_set h ∩ used) used))
  ∧ (∃ used_source_set rows,
       find_used_sources iter iterS hdr (list_to_set header_lst) (list_to_set source_lst)
       = Some used_source_set
       ∧ Header_utility iter iterS hdr header_lst source_lst = Some rows
       ∧ let used := used_tags (Header.tag_set hdr)
                       (Source.tag_set <$> elements used_source_set) in
         (∀ s, s ∈ used_source_set →
            ∃ e, e ∈ rows ∧ Entry.filename e = Source.filename s
                 ∧ scored e (Source.tag_set s ∩ used) used)
         ∧ (∀ e, e ∈ rows →
            ∃ s, s ∈ used_source_set ∧ Entry.filename e = Source.filename s
                 ∧ scored e (Source.tag_set s ∩ used) used)).
Proof.
  intros Hiter HiterS. split.
  - destruct (Source_utility_rows iter Hiter src header_lst)
      as (used & Hr & rows & Hu & Hrows).
    exists used, rows. split; [done|]. split; [done|]. cbv zeta. split.
    + intros h Hh. eexists. split; [apply Hrows; by exists h|].
      split; [done|]. apply ratio_scored; [set_solver|done].
    + intros e (h & Hh & ->)%Hrows. exists h. split; [done|].
      split; [done|]. apply ratio_scored; [set_solver|done].
  - destruct (Header_utility_rows iter iterS Hiter HiterS hdr header_lst source_lst)
      as (used & Hr & rows & Hu & Hrows).
    exists used, rows. split; [done|]. split; [done|]. cbv zeta. split.
    + intros s Hs. eexists. split; [apply Hrows; by exists s|].
      split; [done|]. apply ratio_scored; [set_solver|done].
    + intros e (s & Hs & ->)%Hrows. exists s. split; [done|].
      split; [done|]. apply ratio_scored; [set_solver|done].
Qed.

(** C10: the tags a row lists are tags of the subject and tags of the
    row's counterpart, for [Source.utility] and for [Header.utility]. *)
Theorem row_tags_shared
    (iter : gset Header.t → list Header.t) (iterS : gset Source.t → list Source.t)
    (src : Source.t) (hdr : Header.t)
    (header_lst : list Header.t) (source_lst : list Source.t) :
  (∀ X, iter X ≡ₚ elements X) →
  (∀ X, iterS X ≡ₚ elements X) →
  (∃ used_header_set rows,
     resolve iter src (Source.include_lst src) (list_to_set header_lst)
     = Some used_header_set
     ∧ Source_utility iter src header_lst = Some rows
     ∧ ∀ e, e ∈ rows →
         ∃ h, h ∈ used_header_set ∧ Entry.filename e = Header.filename h
              ∧ Entry.taglist e ⊆ Source.tag_set src
              ∧ Entry.taglist e ⊆ Header.tag_set h)
  ∧ (∃ used_source_set rows,
       find_used_sources iter iterS hdr (list_to_set header_lst) (list_to_set source_lst)
       = Some used_source_set
       ∧ Header_utility iter iterS hdr header_lst source_lst = Some rows
       ∧ ∀ e, e ∈ rows →
           ∃ s, s ∈ used_source_set ∧ Entry.filename e = Source.filename s
                ∧ Entry.taglist e ⊆ Header.tag_set hdr
                ∧ Entry.taglist e ⊆ Source.tag_set s).
Proof.
  intros Hiter HiterS. split.
  - destruct (Source_utility_rows iter Hiter src header_lst)
      as (used & Hr & rows & Hu & Hrows).
    exists used, rows. split; [done|]. split; [done|].
    intros e (h & Hh & ->)%Hrows. exists h. split; [done|]. split; [done|].
    unfold Source_entry, used_tags. cbn [Entry.taglist]. set_solver.
  - destruct (Header_utility_rows iter iterS Hiter HiterS hdr header_lst source_lst)
      as (used & Hr & rows & Hu & Hrows).
    exists used, rows. split; [done|]. split; [done|].
    intros e (s & Hs & ->)%Hrows. exists s. split; [done|]. split; [done|].
    unfold Header_entry, used_tags. cbn [Entry.taglist]. set_solver.
Qed.

Lemma utility_ratio_spec_witness :
  ∃ rows, Source_utility elements ex_src [ex_hdr] = Some rows
    ∧ ∀ e, e ∈ rows → (0 <= Entry.utility e)%Q ∧ (Entry.utility e <= 1)%Q.
Proof.
  destruct (utility_ratio_spec elements elements ex_src ex_hdr [ex_hdr] [ex_src]
              (λ X, reflexivity _) (λ X, reflexivity _))
    as [(used & rows & _ & Hu & _ & Hrows) _].
  exists rows. split; [exact Hu|]. intros e He.
  destruct (Hrows e He) as (h & _ & _ & _ & H0 & H1 & _). split; assumption.
Defined.

Lemma row_tags_shared_witness :
  ∃ rows, Header_utility elements elements ex_hdr [ex_hdr] [ex_src] = Some rows
    ∧ ∀ e, e ∈ rows → Entry.taglist e ⊆ Header.tag_set ex_hdr.
Proof.
  destruct (row_tags_shared elements elements ex_src ex_hdr [ex_hdr] [ex_src]
              (λ X, reflexivity _) (λ X, reflexivity _))
    as [_ (used & rows & _ & Hu & Hrows)].
  exists rows. split; [exact Hu|]. intros e He.
  destruct (Hrows e He) as (s & _ & _ & H1 & _). exact H1.
Defined.

(** ** The tag parser *)


Lemma shares_sound shared : sound (shares shared).
Proof. intros a b [H _]%andb_true_iff. by apply bool_decide_eq_true in H. Qed.

Lemma shares_all_sound : sound shares_all.
Proof. intros a b H. by apply bool_decide_eq_true in H. Qed.

(** On every interpreter the chain gives what it gives where [is] is
    [==] when the kind is the object of its own literal, and falls
    through to [else] when it is not. *)
Lemma kind_of_sound py_is kind :
  sound py_is →
  kind_of py_is kind = if py_is kind kind then kind_of shares_all kind else None.
Proof.
  intros Hs. destruct (py_is kind kind) eqn:Hself.
  - unfold kind_of at 1.
    repeat match goal with
    | |- (if py_is kind ?l then _ else _) = _ =>
        let E := fresh "E" in
        destruct (py_is kind l) eqn:E;
          [pose proof (Hs _ _ E); subst kind; reflexivity|]
    end.
    unfold kind_of, shares_all.
    repeat (case_bool_decide; [subst kind; congruence|]). done.
  - unfold kind_of.
    repeat match goal with
    | |- (if py_is kind ?l then _ else _) = _ =>
        let E := fresh "E" in
        destruct (py_is kind l) eqn:E;
          [pose proof (Hs _ _ E); subst kind; congruence|]
    end.
    done.
Qed.

Lemma kind_of_table kind long :
  (kind, long) ∈ kind_table → kind_of shares_all kind = Some long.
Proof.
  unfold kind_table. rewrite !elem_of_cons, elem_of_nil.
  intros H. repeat destruct H as [[= -> ->]|H]; try reflexivity. done.
Qed.

Lemma kind_of_unknown kind :
  kind ∉ kind_table.*1 → kind_of shares_all kind = None.
Proof.
  unfold kind_table. cbn [fmap list_fmap fst]. rewrite !not_elem_of_cons.
  intros H. unfold kind_of, shares_all.
  repeat (case_bool_decide; [subst kind; by repeat destruct H as [? H]|]).
  done.
Qed.

Lemma kind_of_valid kind k :
  kind_of shares_all kind = Some k →
  (k ∈ valid_tag_types ↔ kind ∈ identifier_kinds).
Proof.
  unfold kind_of, shares_all.
  repeat (case_bool_decide; [subst kind; intros [= <-]; vm_compute; split;
    (intros Hin; repeat (apply elem_of_cons in Hin as [Hin|Hin]; [try discriminate Hin|]);
     try (by apply elem_of_nil in Hin); try (repeat constructor))|]).
  done.
Qed.

Lemma parse_ctag_fields py_is ctag name file addr kind more :
  split TAB ctag = name :: file :: addr :: kind :: more →
  Tag.name (parse_ctag py_is ctag).1 = Some name
  ∧ Tag.kind (parse_ctag py_is ctag).1 = Some (default [] (kind_of py_is kind))
  ∧ (parse_ctag py_is ctag).2
    = match kind_of py_is kind with
      | Some _ => []
      | None => [print_error (txt "Unknown kind: " ++ kind)]
      end.
Proof.
  intros Hs. unfold parse_ctag. rewrite Hs. cbn [take].
  by destruct (kind_of py_is kind).
Qed.

Lemma parse_ctag_short py_is ctag :
  length (split TAB ctag) < 4 →
  parse_ctag py_is ctag = (empty_tag ctag, [unable_to_parse ctag]).
Proof.
  intros Hlen. unfold parse_ctag.
  destruct (split TAB ctag) as [|a [|b [|c [|d l]]]]; try reflexivity.
  simpl in Hlen. lia.
Qed.

Lemma create_tags_step_fields py_is st ctag name file addr kind more :
  sound py_is →
  split TAB ctag = name :: file :: addr :: kind :: more →
  create_tags_step py_is st ctag
  = (if bool_decide (kind ∈ identifier_kinds) && py_is kind kind
     then st.1 ++ [name] else st.1,
     st.2 ++ (parse_ctag py_is ctag).2).
Proof.
  intros Hsound Hs. destruct (parse_ctag_fields py_is _ _ _ _ _ _ Hs) as (Hn & Hk & _).
  unfold create_tags_step. destruct ctag as [|c ctag]; [done|].
  destruct (parse_ctag py_is (c :: ctag)) as [tag out]. cbn [fst snd] in *.
  rewrite Hk, Hn. unfold default. cbn [from_option id]. f_equal.
  rewrite (kind_of_sound py_is kind Hsound).
  destruct (py_is kind kind); [|by rewrite andb_false_r].
  rewrite andb_true_r.
  destruct (kind_of shares_all kind) as [k|] eqn:E.
  - cbn [from_option id]. apply kind_of_valid in E.
    destruct (bool_decide_reflect (k ∈ valid_tag_types)) as [H|H];
      destruct (bool_decide_reflect (kind ∈ identifier_kinds)) as [H'|H'];
      try done; exfalso; tauto.
  - cbn [from_option id].
    assert (kind ∉ identifier_kinds) as H.
    { intros H. unfold identifier_kinds in H.
      repeat (apply elem_of_cons in H as [->|H]; [discriminate E|]).
      by apply elem_of_nil in H. }
    by rewrite (bool_decide_eq_false_2 _ H).
Qed.

Lemma create_tags_step_short py_is st ctag :
  length (split TAB ctag) < 4 →
  create_tags_step py_is st ctag
  = match ctag with
    | [] => st
    | _ :: _ => (st.1, st.2 ++ [unable_to_parse ctag])
    end.
Proof.
  intros Hlen. unfold create_tags_step. destruct ctag as [|c ctag]; [done|].
  by rewrite (parse_ctag_short _ _ Hlen).
Qed.


(** C6: the kind chain of [parse_ctag] tests the kind field with [is]
    against one-character literals, so what it does depends on the
    interpreter.  On every interpreter, for a line with at least four
    tab-separated fields: a kind letter of the table (c, d, e, f, F, g,
    m, p, s, t, u, v) gives the table's name and prints nothing when
    the interpreter takes the field for the object of its literal, and
    gives the unknown kind (the empty string) with one printed error
    when it does not; any other kind gives a populated record with the
    unknown kind and one printed error, and adds no name; the loop of
    [create_tags] takes the name exactly when the letter is one of d,
    e, f, t and the identity test succeeded.  On CPython 3.11.2 the
    test fails for d: the line with the fields FOO, b.h, 1, d gets the
    unknown kind, the error is printed and the tag list of the header
    stays empty, where the table says define (and where the chain gives
    define when [is] is [==]). *)
Theorem parse_ctag_kind (py_is : identity) (ctag name file addr kind : text)
    (more : list text) :
  sound py_is →
  split TAB ctag = name :: file :: addr :: kind :: more →
  (∀ long, (kind, long) ∈ kind_table →
     (py_is kind kind = true →
        Tag.kind (parse_ctag py_is ctag).1 = Some long
        ∧ (parse_ctag py_is ctag).2 = [])
     ∧ (py_is kind kind = false →
        Tag.kind (parse_ctag py_is ctag).1 = Some []
        ∧ (parse_ctag py_is ctag).2 = [print_error (txt "Unknown kind: " ++ kind)]
        ∧ ∀ st, (create_tags_step py_is st ctag).1 = st.1))
  ∧ (kind ∉ kind_table.*1 →
     Tag.kind (parse_ctag py_is ctag).1 = Some []
     ∧ Tag.name (parse_ctag py_is ctag).1 = Some name
     ∧ (parse_ctag py_is ctag).2 = [print_error (txt "Unknown kind: " ++ kind)]
     ∧ ∀ st, (create_tags_step py_is st ctag).1 = st.1)
  ∧ (∀ st, (create_tags_step py_is st ctag).1
           = if bool_decide (kind ∈ identifier_kinds) && py_is kind kind
             then st.1 ++ [name] else st.1)
  ∧ (Tag.kind (parse_ctag cpython_3_11 ex_good_line).1 = Some []
     ∧ (parse_ctag cpython_3_11 ex_good_line).2 = [print_error (txt "Unknown kind: d")]
     ∧ (∀ st, (create_tags_step cpython_3_11 st ex_good_line).1 = st.1)
     ∧ Tag.kind (parse_ctag shares_all ex_good_line).1 = Some (txt "define")).
Proof.
  intros Hsound Hs.
  destruct (parse_ctag_fields py_is _ _ _ _ _ _ Hs) as (Hn & Hk & Ho).
  pose proof (kind_of_sound py_is kind Hsound) as Hchain.
  split; [|split; [|split]].
  - intros long Hl%kind_of_table. split.
    + intros Hself. rewrite Hself, Hl in Hchain. by rewrite Hk, Ho, Hchain.
    + intros Hself. rewrite Hself in Hchain. rewrite Hk, Ho, Hchain.
      split; [done|]. split; [done|].
      intros st. rewrite (create_tags_step_fields _ _ _ _ _ _ _ _ Hsound Hs). cbn [fst].
      by rewrite Hself, andb_false_r.
  - intros Hu. pose proof (kind_of_unknown _ Hu) as E.
    assert (kind_of py_is kind = None) as E'.
    { rewrite Hchain, E. by destruct (py_is kind kind). }
    rewrite Hk, Ho, E'. split; [done|]. split; [done|]. split; [done|].
    intros st. rewrite (create_tags_step_fields _ _ _ _ _ _ _ _ Hsound Hs). cbn [fst].
    rewrite bool_decide_eq_false_2; [done|].
    intros H. apply Hu. unfold identifier_kinds in H. unfold kind_table.
    cbn [fmap list_fmap fst].
    repeat (apply elem_of_cons in H as [->|H]; [by repeat constructor|]).
    by apply elem_of_nil in H.
  - intros st. by rewrite (create_tags_step_fields _ _ _ _ _ _ _ _ Hsound Hs).
  - split; [by vm_compute|]. split; [by vm_compute|]. split; [|by vm_compute].
    intros st.
    rewrite (create_tags_step_fields cpython_3_11 st ex_good_line
               (txt "FOO") (txt "b.h") (txt "1") (txt "d") []
               (shares_sound _) eq_refl).
    done.
Qed.

Lemma parse_ctag_kind_witness :
  Tag.kind (parse_ctag cpython_3_11 ex_good_line).1 = Some []
  ∧ (parse_ctag cpython_3_11 ex_good_line).2
    = [print_error (txt "Unknown kind: " ++ txt "d")].
Proof.
  assert ((txt "d", txt "define") ∈ kind_table) as Hin.
  { unfold kind_table. apply list_elem_of_further, list_elem_of_here. }
  destruct (proj2 (proj1 (parse_ctag_kind cpython_3_11 ex_good_line
              (txt "FOO") (txt "b.h") (txt "1") (txt "d") []
              (shares_sound _) eq_refl) (txt "define") Hin) eq_refl)
    as (Hk & Ho & _).
  split; [exact Hk|exact Ho].
Defined.









(** ** The entry point *)

Section Main.
Variable iter : gset Header.t → list Header.t.
Variable iterS : gset Source.t → list Source.t.
Hypothesis iter_perm : ∀ X, iter X ≡ₚ elements X.
Hypothesis iterS_perm : ∀ X, iterS X ≡ₚ elements X.

Lemma report_total headers sources analysis_files :
  ∃ evs, report iter iterS headers sources analysis_files = Some evs.
Proof.
  unfold report. generalize (@nil event).
  induction analysis_files as [|af l IH]; intros evs0; [by exists evs0|].
  cbn [foldl]. unfold report_step at 2. destruct af as [s|h].
  - destruct (Source_utility_rows iter iter_perm s headers) as (_ & _ & rows & -> & _).
    apply IH.
  - destruct (Header_utility_rows iter iterS iter_perm iterS_perm h headers sources)
      as (_ & _ & rows & -> & _).
    apply IH.
Qed.
End Main.

(** C8: when [filter_files] returned no header file or no source file,
    [main] prints one error and returns [RetCode.ERROR], which is not
    [RetCode.OK] and not zero; nothing is opened, no tag file is made
    and no report is written.  In every other case [main] returns
    [RetCode.OK]. *)
Theorem empty_universe_is_fatal (py_is : identity)
    (iter : gset Header.t → list Header.t) (iterS : gset Source.t → list Source.t)
    (fs : text → text) (analysis_file_lst h_files c_files : list text) :
  (∀ X, iter X ≡ₚ elements X) →
  (∀ X, iterS X ≡ₚ elements X) →
  (h_files = [] ∨ c_files = [] →
     ∃ msg, main py_is iter iterS fs analysis_file_lst h_files c_files
            = Some (RetCode.ERROR, [Print (print_error msg)]))
  ∧ RetCode.ERROR ≠ RetCode.OK ∧ RetCode.ERROR ≠ 0%Z
  ∧ (h_files ≠ [] → c_files ≠ [] →
       ∃ evs, main py_is iter iterS fs analysis_file_lst h_files c_files
              = Some (RetCode.OK, evs)).
Proof.
  intros Hiter HiterS. split; [|split; [done|split; [done|]]].
  - intros [-> | ->].
    + by eexists.
    + destruct h_files; by eexists.
  - intros Hh Hc. destruct h_files as [|h hs]; [done|].
    destruct c_files as [|c cs]; [done|]. unfold main.
    destruct (read_sources fs analysis_file_lst (c :: cs)) as [[sources an_s] evs_s].
    destruct (read_headers py_is fs analysis_file_lst (h :: hs)) as [[headers an_h] evs_h].
    destruct (report_total iter iterS Hiter HiterS headers sources (an_s ++ an_h))
      as (evs & ->).
    by eexists.
Qed.

Lemma empty_universe_is_fatal_witness :
  ∃ msg, main cpython_3_11 elements elements (λ _, []) [txt "a.c"] [] [txt "a.c"]
         = Some (RetCode.ERROR, [Print (print_error msg)]).
Proof.
  apply (empty_universe_is_fatal cpython_3_11 elements elements (λ _, []) [txt "a.c"] [] [txt "a.c"]
           (λ X, reflexivity _) (λ X, reflexivity _)).
  left. reflexivity.
Defined.

(** ** The resolver computes reachability *)

Lemma reachable_in U l h : reachable U l h → h ∈ U.
Proof. by intros [|]. Qed.

Lemma reachable_mono (U U' : gset Header.t) (l l' : list text) h :
  U ⊆ U' → (∀ x, x ∈ l → x ∈ l') → reachable U l h → reachable U' l' h.
Proof.
  intros HU Hl. induction 1 as [h Hh Hn|h a _ IH Ha Hn].
  - apply reach_named; [set_solver|by apply Hl].
  - apply (reach_include _ _ h); [done|set_solver|done].
Qed.

(** What is reachable inside a part of the universe from the include
    list of a reachable header is reachable. *)
Lemma reachable_through (U U' : gset Header.t) l h x :
  U' ⊆ U → reachable U l h → reachable U' (Header.include_lst h) x →
  reachable U l x.
Proof.
  intros HU Hh. induction 1 as [x Hx Hn|y x _ IH Hx Hn].
  - apply (reach_include _ _ h); [done|set_solver|done].
  - apply (reach_include _ _ y); [done|set_solver|done].
Qed.

Section ResolverReach.
Variable iter : gset Header.t → list Header.t.
Hypothesis iter_perm : ∀ X, iter X ≡ₚ elements X.

Lemma used_loop_reach recurse (start used : gset Header.t) (start_lst : list text)
    (ls : list Header.t) (P : gset Header.t) :
  (∀ l' U, U ⊆ start ∖ used →
     ∃ F, recurse l' U = Some F ∧ ∀ h, h ∈ F ↔ reachable U l' h) →
  (∀ h, h ∈ ls → h ∈ start ∧ Header.filename h ∈ start_lst) →
  P ⊆ start ∖ used →
  (∀ h, h ∈ P → reachable start start_lst h) →
  (∀ h a, h ∈ P → a ∈ start → Header.filename a ∈ Header.include_lst h →
          a ∈ used ∪ P) →
  ∃ P', foldl (used_step recurse) (Some (P, (start ∖ used) ∖ P)) ls
        = Some (P', (start ∖ used) ∖ P')
      ∧ P ⊆ P' ∧ P' ⊆ start ∖ used
      ∧ (∀ h, h ∈ P' → reachable start start_lst h)
      ∧ (∀ h a, h ∈ P' → a ∈ start → Header.filename a ∈ Header.include_lst h →
                a ∈ used ∪ P')
      ∧ (∀ h a, h ∈ ls → a ∈ start → Header.filename a ∈ Header.include_lst h →
                a ∈ used ∪ P').
Proof.
  intros Hrec. revert P. induction ls as [|h ls IH]; intros P Hls HP Hsound Hclosed.
  - exists P. split; [done|]. split; [done|]. split; [done|]. split; [done|].
    split; [done|]. intros h a Hh. by apply elem_of_nil in Hh.
  - cbn [foldl]. unfold used_step at 2.
    destruct (Hls h) as [Hhs Hhn]; [by left|].
    assert (∀ x, x ∈ ls → x ∈ start ∧ Header.filename x ∈ start_lst) as Hls'
      by (intros x Hx; apply Hls; by right).
    destruct (Header.include_lst h) as [|i il] eqn:Hi.
    + destruct (IH P Hls' HP Hsound Hclosed) as (P' & -> & H0 & H1 & H2 & H3 & H4).
      exists P'. split; [done|]. split; [done|]. split; [done|]. split; [done|].
      split; [done|]. intros h' a [->|Hh']%elem_of_cons Ha Hn; [|by eapply H4].
      rewrite Hi in Hn. by apply elem_of_nil in Hn.
    + destruct (Hrec (i :: il) ((start ∖ used) ∖ P)) as (F & -> & HF);
        [set_solver|].
      assert (F ⊆ (start ∖ used) ∖ P) as HFsub.
      { intros x Hx%HF. by apply reachable_in in Hx. }
      replace ((start ∖ used) ∖ P ∖ (P ∪ F)) with ((start ∖ used) ∖ (P ∪ F))
        by set_solver.
      assert (∀ a, a ∈ start → Header.filename a ∈ i :: il → a ∈ used ∪ (P ∪ F))
        as Hnamed.
      { intros a Ha Hn.
        destruct (decide (a ∈ used)) as [|Hu]; [set_solver|].
        destruct (decide (a ∈ P)) as [|Hp]; [set_solver|].
        assert (a ∈ F); [|set_solver].
        apply HF, reach_named; [set_solver|done]. }
      destruct (IH (P ∪ F)) as (P' & -> & H0 & H1 & H2 & H3 & H4).
      * done.
      * set_solver.
      * intros x [Hx|Hx%HF]%elem_of_union; [by apply Hsound|].
        apply (reachable_through start ((start ∖ used) ∖ P) start_lst h x);
          [set_solver|by apply reach_named|by rewrite Hi].
      * intros x a [Hx|Hx]%elem_of_union Ha Hn.
        { specialize (Hclosed x a Hx Ha Hn). set_solver. }
        destruct (decide (a ∈ used)) as [|Hu]; [set_solver|].
        destruct (decide (a ∈ P)) as [|Hp]; [set_solver|].
        assert (a ∈ F); [|set_solver].
        apply HF. apply (reach_include _ _ x); [by apply HF|set_solver|done].
      * exists P'. split; [done|]. split; [set_solver|]. split; [done|].
        split; [done|]. split; [done|].
        intros h' a [->|Hh']%elem_of_cons Ha Hn; [|by eapply H4].
        rewrite Hi in Hn. specialize (Hnamed a Ha Hn). set_solver.
Qed.

Lemma find_used_headers_reach fuel self start_lst (start_set : gset Header.t) :
  size start_set < fuel →
  ∃ found, find_used_headers iter fuel self start_lst start_set = Some found
    ∧ ∀ h, h ∈ found ↔ reachable start_set start_lst h.
Proof.
  revert start_lst start_set.
  induction fuel as [|fuel IH]; intros start_lst start_set Hsz; [lia|].
  cbn [find_used_headers].
  set (used := filter (λ h, Header.filename h ∈ start_lst) start_set).
  assert (∀ h, h ∈ used ↔ h ∈ start_set ∧ Header.filename h ∈ start_lst) as Hused.
  { intros h. unfold used. rewrite elem_of_filter. tauto. }
  destruct (decide (used = ∅)) as [He|Hne].
  - assert (iter used = []) as ->.
    { apply Permutation_nil_r. by rewrite iter_perm, He, elements_empty. }
    cbn [foldl]. exists (used ∪ ∅). split; [done|]. intros h. split.
    + intros Hh. assert (h ∈ used) as [? ?]%Hused by set_solver.
      by apply reach_named.
    + induction 1 as [h Hh Hn|h a _ IHh Ha Hn].
      * apply elem_of_union_l, Hused. done.
      * exfalso. assert (h ∈ used) as Hu by set_solver.
        rewrite He in Hu. by apply not_elem_of_empty in Hu.
  - destruct (used_loop_reach (find_used_headers iter fuel self) start_set used
                start_lst (iter used) ∅)
      as (P' & Hf & _ & HP & Hsound & Hclosed & Hnamed).
    + intros l' U HU. apply IH.
      apply set_choose_L in Hne as [x Hx].
      assert (U ⊂ start_set) as Hs by set_solver.
      apply subset_size in Hs. lia.
    + intros h Hh. apply Hused. by rewrite iter_perm, elem_of_elements in Hh.
    + set_solver.
    + set_solver.
    + set_solver.
    + replace ((start_set ∖ used) ∖ ∅) with (start_set ∖ used) in Hf by set_solver.
      rewrite Hf. exists (used ∪ P'). split; [done|]. intros h. split.
      * intros [[? ?]%Hused|Hh]%elem_of_union; [by apply reach_named|by apply Hsound].
      * induction 1 as [h Hh Hn|h a _ IHh Ha Hn].
        { apply elem_of_union_l, Hused. done. }
        apply elem_of_union in IHh as [Hu|Hp].
        { apply (Hnamed h a); [|done|done]. by rewrite iter_perm, elem_of_elements. }
        by apply (Hclosed h a).
Qed.
End ResolverReach.

(** X1: the resolver returns exactly the headers of the universe that
    the include list reaches: those it names, and those named by the
    include list of a header already reached.  This holds for every
    iteration order of the sets, with more fuel than the universe has
    headers. *)
Theorem closure_is_reachability
    (iter : gset Header.t → list Header.t) (self : Source.t)
    (start_lst : list text) (start_set : gset Header.t) (fuel : nat) :
  (∀ X, iter X ≡ₚ elements X) →
  size start_set < fuel →
  ∃ found,
    find_used_headers iter fuel self start_lst start_set = Some found
    ∧ ∀ h, h ∈ found ↔ reachable start_set start_lst h.
Proof. intros Hiter Hfuel. by apply find_used_headers_reach. Qed.

Lemma closure_is_reachability_witness :
  ∃ found,
    find_used_headers elements 3 some_source (Header.include_lst cyc_a) {[cyc_a; cyc_b]}
    = Some found
    ∧ ∀ h, h ∈ found ↔ reachable {[cyc_a; cyc_b]} (Header.include_lst cyc_a) h.
Proof.
  apply (closure_is_reachability elements some_source (Header.include_lst cyc_a)
           {[cyc_a; cyc_b]} 3).
  - intros X. reflexivity.
  - pose proof (pair_size cyc_a cyc_b). lia.
Defined.

(** X2: the closure does not depend on the order in which the sets are
    iterated, on the fuel, or on the object the method is called on. *)
Theorem closure_order_independent
    (iter1 iter2 : gset Header.t → list Header.t) (self1 self2 : Source.t)
    (start_lst : list text) (start_set : gset Header.t) (fuel1 fuel2 : nat) :
  (∀ X, iter1 X ≡ₚ elements X) →
  (∀ X, iter2 X ≡ₚ elements X) →
  size start_set < fuel1 → size start_set < fuel2 →
  find_used_headers iter1 fuel1 self1 start_lst start_set
  = find_used_headers iter2 fuel2 self2 start_lst start_set.
Proof.
  intros H1 H2 Hf1 Hf2.
  destruct (find_used_headers_reach iter1 H1 fuel1 self1 start_lst start_set Hf1)
    as (f1 & -> & Hr1).
  destruct (find_used_headers_reach iter2 H2 fuel2 self2 start_lst start_set Hf2)
    as (f2 & -> & Hr2).
  f_equal. apply set_eq. intros h. by rewrite Hr1, Hr2.
Qed.

Lemma closure_order_independent_witness :
  find_used_headers elements 3 some_source (Header.include_lst cyc_a) {[cyc_a; cyc_b]}
  = find_used_headers (λ X, reverse (elements X)) 5 ex_src
      (Header.include_lst cyc_a) {[cyc_a; cyc_b]}.
Proof.
  apply closure_order_independent.
  - intros X. reflexivity.
  - intros X. apply reverse_Permutation.
  - pose proof (pair_size cyc_a cyc_b). lia.
  - pose proof (pair_size cyc_a cyc_b). lia.
Defined.

(** X3: the closure grows with the universe and with the include list. *)
Theorem closure_monotone
    (iter : gset Header.t → list Header.t) (self : Source.t)
    (l1 l2 : list text) (U1 U2 : gset Header.t) (fuel1 fuel2 : nat) :
  (∀ X, iter X ≡ₚ elements X) →
  size U1 < fuel1 → size U2 < fuel2 →
  U1 ⊆ U2 → l1 ⊆ l2 →
  ∃ f1 f2,
    find_used_headers iter fuel1 self l1 U1 = Some f1
    ∧ find_used_headers iter fuel2 self l2 U2 = Some f2
    ∧ f1 ⊆ f2.
Proof.
  intros Hiter Hf1 Hf2 HU Hl.
  destruct (find_used_headers_reach iter Hiter fuel1 self l1 U1 Hf1) as (f1 & E1 & Hr1).
  destruct (find_used_headers_reach iter Hiter fuel2 self l2 U2 Hf2) as (f2 & E2 & Hr2).
  exists f1, f2. split; [done|]. split; [done|].
  intros h Hh%Hr1. apply Hr2. by apply (reachable_mono U1 U2 l1 l2).
Qed.

Lemma closure_monotone_witness :
  ∃ f1 f2,
    find_used_headers elements 2 some_source [txt "a.h"] {[cyc_a]} = Some f1
    ∧ find_used_headers elements 3 some_source [txt "a.h"; txt "b.h"] {[cyc_a; cyc_b]}
      = Some f2
    ∧ f1 ⊆ f2.
Proof.
  apply closure_monotone.
  - intros X. reflexivity.
  - rewrite size_singleton. lia.
  - pose proof (pair_size cyc_a cyc_b). lia.
  - apply union_subseteq_l.
  - apply (sublist_subseteq _ _ (sublist_skip _ _ _ (sublist_cons _ _ _ (sublist_nil)))).
Defined.

(** X4: resolving the same include list against its own closure gives
    the closure back. *)
Theorem closure_idempotent
    (iter : gset Header.t → list Header.t) (self : Source.t)
    (start_lst : list text) (start_set : gset Header.t) (fuel : nat) :
  (∀ X, iter X ≡ₚ elements X) →
  size start_set < fuel →
  ∃ found,
    find_used_headers iter fuel self start_lst start_set = Some found
    ∧ find_used_headers iter fuel self start_lst found = Some found.
Proof.
  intros Hiter Hfuel.
  destruct (find_used_headers_reach iter Hiter fuel self start_lst start_set Hfuel)
    as (found & E & Hr).
  exists found. split; [done|].
  assert (found ⊆ start_set) as Hsub.
  { intros h Hh%Hr. by apply reachable_in in Hh. }
  destruct (find_used_headers_reach iter Hiter fuel self start_lst found)
    as (again & -> & Hr').
  { apply subseteq_size in Hsub. lia. }
  f_equal. apply set_eq. intros h. rewrite Hr'. split.
  - apply reachable_in.
  - intros Hh%Hr. induction Hh as [h Hh Hn|h a Hh IHh Ha Hn].
    + apply reach_named; [|done]. by apply Hr, reach_named.
    + apply (reach_include _ _ h); [done| |done].
      apply Hr. by apply (reach_include _ _ h).
Qed.

Lemma closure_idempotent_witness :
  ∃ found,
    find_used_headers elements 3 some_source (Header.include_lst cyc_a) {[cyc_a; cyc_b]}
    = Some found
    ∧ find_used_headers elements 3 some_source (Header.include_lst cyc_a) found
      = Some found.
Proof.
  apply closure_idempotent.
  - intros X. reflexivity.
  - pose proof (pair_size cyc_a cyc_b). lia.
Defined.

(** ** Sources that pull a header in *)

Section UsedSources.
Variable iter : gset Header.t → list Header.t.
Variable iterS : gset Source.t → list Source.t.
Hypothesis iter_perm : ∀ X, iter X ≡ₚ elements X.
Hypothesis iterS_perm : ∀ X, iterS X ≡ₚ elements X.

Lemma resolve_reach self start_lst start_set :
  ∃ found, resolve iter self start_lst start_set = Some found
    ∧ ∀ h, h ∈ found ↔ reachable start_set start_lst h.
Proof. apply (find_used_headers_reach iter iter_perm). lia. Qed.

Lemma add_if_named_spec (self : Header.t) (s : Source.t)
    (l : list Header.t) (acc : gset Source.t) x :
  x ∈ foldl (λ used_set sh,
               if decide (Header.filename self = Header.filename sh)
               then used_set ∪ {[s]} else used_set) acc l
  ↔ x ∈ acc ∨ (x = s ∧ ∃ sh, sh ∈ l ∧ Header.filename sh = Header.filename self).
Proof.
  revert acc. induction l as [|sh l IH]; intros acc; cbn [foldl].
  - split; [by left|]. intros [|(_ & sh & Hsh & _)]; [done|].
    by apply elem_of_nil in Hsh.
  - rewrite IH. destruct (decide (Header.filename self = Header.filename sh)) as [E|E].
    + rewrite elem_of_union, elem_of_singleton. split.
      * intros [[?| ->]|(-> & sh' & Hin & Hfn)]; [by left| |].
        -- right. split; [done|]. exists sh. split; [by left|done].
        -- right. split; [done|]. exists sh'. split; [by right|done].
      * intros [|(-> & sh' & Hin & Hfn)]; [by left; left|]. left. by right.
    + split.
      * intros [|(-> & sh' & Hin & Hfn)]; [by left|].
        right. split; [done|]. exists sh'. split; [by right|done].
      * intros [|(-> & sh' & [->|Hin]%elem_of_cons & Hfn)]; [by left|congruence|].
        right. split; [done|]. by exists sh'.
Qed.

Lemma find_used_sources_reach (self : Header.t) header_set source_set :
  ∃ used,
    find_used_sources iter iterS self header_set source_set = Some used
    ∧ ∀ s, s ∈ used ↔
        s ∈ source_set
        ∧ ∃ sh, reachable header_set (Source.include_lst s) sh
                ∧ Header.filename sh = Header.filename self.
Proof.
  unfold find_used_sources.
  assert (∀ (ls : list Source.t) (acc : gset Source.t),
    ∃ used,
      foldl (λ acc s,
        match acc with
        | None => None
        | Some used_set =>
            match resolve iter s (Source.include_lst s) header_set with
            | None => None
            | Some s_header_set =>
                Some (foldl (λ used_set sh,
                        if decide (Header.filename self = Header.filename sh)
                        then used_set ∪ {[s]} else used_set)
                      used_set (iter s_header_set))
            end
        end) (Some acc) ls = Some used
      ∧ ∀ s, s ∈ used ↔
          s ∈ acc ∨ (s ∈ ls ∧ ∃ sh, reachable header_set (Source.include_lst s) sh
                               ∧ Header.filename sh = Header.filename self)) as Hloop.
  { induction ls as [|s ls IH]; intros acc; cbn [foldl].
    - exists acc. split; [done|]. intros s. split; [by left|].
      intros [|[Hs _]]; [done|]. by apply elem_of_nil in Hs.
    - destruct (resolve_reach s (Source.include_lst s) header_set) as (F & -> & HF).
      destruct (IH (foldl (λ used_set sh,
                        if decide (Header.filename self = Header.filename sh)
                        then used_set ∪ {[s]} else used_set) acc (iter F)))
        as (used & -> & Hused).
      exists used. split; [done|]. intros x. rewrite Hused, add_if_named_spec.
      split.
      + intros [[|(-> & sh & Hsh & Hfn)]|(Hx & Hr)].
        * by left.
        * right. split; [by left|]. exists sh. split; [|done].
          apply HF. by rewrite iter_perm, elem_of_elements in Hsh.
        * right. split; [by right|done].
      + intros [|([->|Hx]%elem_of_cons & sh & Hsh & Hfn)].
        * by left; left.
        * left. right. split; [done|]. exists sh. split; [|done].
          rewrite iter_perm, elem_of_elements. by apply HF.
        * right. split; [done|]. by exists sh. }
  destruct (Hloop (iterS source_set) ∅) as (used & -> & Hused).
  exists used. split; [done|]. intros s. rewrite Hused, iterS_perm, elem_of_elements.
  split; [intros [?%not_elem_of_empty|]; done|by right].
Qed.
End UsedSources.

(** X5: [Header.find_used_sources] returns exactly the sources of the
    given set whose include closure over the given headers holds a
    header with the file name of the subject; the subject itself need
    not be one of the headers given. *)
Theorem used_sources_are_the_includers
    (iter : gset Header.t → list Header.t) (iterS : gset Source.t → list Source.t)
    (self : Header.t) (header_set : gset Header.t) (source_set : gset Source.t) :
  (∀ X, iter X ≡ₚ elements X) →
  (∀ X, iterS X ≡ₚ elements X) →
  ∃ used,
    find_used_sources iter iterS self header_set source_set = Some used
    ∧ ∀ s, s ∈ used ↔
        s ∈ source_set
        ∧ ∃ sh, reachable header_set (Source.include_lst s) sh
                ∧ Header.filename sh = Header.filename self.
Proof. intros H1 H2. by apply find_used_sources_reach. Qed.

Lemma used_sources_are_the_includers_witness :
  ∃ used,
    find_used_sources elements elements ex_hdr {[ex_hdr]} {[ex_src]} = Some used
    ∧ ∀ s, s ∈ used ↔
        s ∈ ({[ex_src]} : gset Source.t)
        ∧ ∃ sh, reachable {[ex_hdr]} (Source.include_lst s) sh
                ∧ Header.filename sh = Header.filename ex_hdr.
Proof.
  apply used_sources_are_the_includers; intros X; reflexivity.
Defined.

(** ** The rows of a report *)

Lemma insert_desc_sorted e l :
  StronglySorted (λ a b, (Entry.utility b <= Entry.utility a)%Q) l →
  StronglySorted (λ a b, (Entry.utility b <= Entry.utility a)%Q) (insert_desc e l).
Proof.
  induction 1 as [|x l Hs IH Hx]; cbn [insert_desc].
  - by repeat constructor.
  - destruct (Qle_bool (Entry.utility x) (Entry.utility e)) eqn:E.
    + apply Qle_bool_iff in E. constructor; [by constructor|].
      constructor; [done|].
      eapply Forall_impl; [exact Hx|]. intros y Hy. cbv beta in *.
      by apply (Qle_trans _ (Entry.utility x)).
    + assert (Entry.utility e <= Entry.utility x)%Q as Hle.
      { apply Qlt_le_weak, Qnot_le_lt. intros H%Qle_bool_iff. congruence. }
      constructor; [done|].
      rewrite (insert_desc_perm e l). by constructor.
Qed.

Lemma sorted_desc_sorted l :
  StronglySorted (λ a b, (Entry.utility b <= Entry.utility a)%Q) (sorted_desc l).
Proof.
  induction l as [|e l IH]; [constructor|]. by apply insert_desc_sorted.
Qed.

Lemma insert_desc_stable q e l :
  StronglySorted (λ a b, (Entry.utility b <= Entry.utility a)%Q) l →
  filter (λ x, Qeq_bool (Entry.utility x) q = true) (insert_desc e l)
  = filter (λ x, Qeq_bool (Entry.utility x) q = true) (e :: l).
Proof.
  induction 1 as [|x l Hs IH Hx]; [done|]. cbn [insert_desc].
  destruct (Qle_bool (Entry.utility x) (Entry.utility e)) eqn:E; [done|].
  assert (Entry.utility e < Entry.utility x)%Q as Hlt.
  { apply Qnot_le_lt. intros H%Qle_bool_iff. congruence. }
  destruct (Qeq_bool (Entry.utility e) q) eqn:Eq.
  - assert (Qeq_bool (Entry.utility x) q = false) as Ex.
    { apply not_true_is_false. intros Hx'%Qeq_bool_iff.
      apply Qeq_bool_iff in Eq. rewrite Eq, Hx' in Hlt.
      by apply Qlt_irrefl in Hlt. }
    rewrite (filter_cons_False _ x) by (by rewrite Ex).
    rewrite IH. rewrite (filter_cons_True _ e) by done.
    rewrite (filter_cons_True _ e) by done.
    by rewrite (filter_cons_False _ x) by (by rewrite Ex).
  - rewrite (filter_cons_False _ e (x :: l)) by (by rewrite Eq).
    rewrite (filter_cons _ x (insert_desc e l)), IH.
    rewrite (filter_cons_False _ e l) by (by rewrite Eq).
    by rewrite (filter_cons _ x l).
Qed.

Lemma sorted_desc_stable q l :
  filter (λ x, Qeq_bool (Entry.utility x) q = true) (sorted_desc l)
  = filter (λ x, Qeq_bool (Entry.utility x) q = true) l.
Proof.
  induction l as [|e l IH]; [done|]. cbn [sorted_desc foldr].
  change (foldr insert_desc [] l) with (sorted_desc l).
  rewrite insert_desc_stable by apply sorted_desc_sorted.
  rewrite !filter_cons, IH. done.
Qed.

Section Rows.
Variable iter : gset Header.t → list Header.t.
Variable iterS : gset Source.t → list Source.t.
Hypothesis iter_perm : ∀ X, iter X ≡ₚ elements X.
Hypothesis iterS_perm : ∀ X, iterS X ≡ₚ elements X.

Lemma Source_utility_eq self header_lst :
  ∃ closure,
    resolve iter self (Source.include_lst self) (list_to_set header_lst) = Some closure
    ∧ (∀ h, h ∈ closure ↔
         reachable (list_to_set header_lst) (Source.include_lst self) h)
    ∧ Source_utility iter self header_lst
      = Some (sorted_desc
                (Source_entry self
                   (used_tags (Source.tag_set self)
                      (Header.tag_set <$> elements closure))
                 <$> iter closure)).
Proof.
  destruct (resolve_reach iter iter_perm self (Source.include_lst self)
              (list_to_set header_lst)) as (closure & Hr & Hreach).
  exists closure. split; [done|]. split; [done|].
  unfold Source_utility. rewrite Hr. do 3 f_equal.
  rewrite foldl_union, (left_id_L ∅ (∪)).
  by rewrite (union_list_perm Header.tag_set _ _ (iter_perm closure)).
Qed.

Lemma Header_utility_eq self header_lst source_lst :
  ∃ users,
    find_used_sources iter iterS self (list_to_set header_lst) (list_to_set source_lst)
    = Some users
    ∧ (∀ s, s ∈ users ↔
         s ∈ source_lst
         ∧ ∃ sh, reachable (list_to_set header_lst) (Source.include_lst s) sh
                 ∧ Header.filename sh = Header.filename self)
    ∧ Header_utility iter iterS self header_lst source_lst
      = Some (sorted_desc
                (Header_entry self
                   (used_tags (Header.tag_set self)
                      (Source.tag_set <$> elements users))
                 <$> iterS users)).
Proof.
  destruct (find_used_sources_reach iter iterS iter_perm iterS_perm self
              (list_to_set header_lst) (list_to_set source_lst))
    as (users & Hr & Hreach).
  exists users. split; [done|]. split.
  { intros s. rewrite Hreach, elem_of_list_to_set. done. }
  unfold Header_utility. rewrite Hr. do 3 f_equal.
  rewrite foldl_union, (left_id_L ∅ (∪)).
  by rewrite (union_list_perm Source.tag_set _ _ (iterS_perm users)).
Qed.
End Rows.

Lemma ratio_times (a b : gset text) :
  size b ≠ 0 →
  (inject_Z (Z.of_nat (size b)) * ratio a b == inject_Z (Z.of_nat (size a)))%Q.
Proof.
  intros Hb. rewrite (ratio_quotient a b Hb). apply Qmult_div_r.
  intros H. unfold Qeq in H. simpl in H. lia.
Qed.

Lemma ratio_is_zero (a b : gset text) :
  a ⊆ b → (ratio a b == 0)%Q ↔ a = ∅.
Proof.
  intros Hab. split.
  - intros Hz. apply leibniz_equiv, size_empty_iff.
    destruct (decide (size b = 0)) as [Hb|Hb].
    + apply subseteq_size in Hab. lia.
    + pose proof (ratio_times a b Hb) as Ht. rewrite Hz, Qmult_0_r in Ht.
      unfold Qeq in Ht. simpl in Ht. lia.
  - intros ->. apply ratio_zero_num. by rewrite size_empty.
Qed.

Lemma ratio_is_one (a b : gset text) :
  a ⊆ b → (ratio a b == 1)%Q ↔ b ≠ ∅ ∧ a = b.
Proof.
  intros Hab. split.
  - intros H1. assert (size b ≠ 0) as Hb.
    { intros Hb. rewrite (ratio_zero_den a b Hb) in H1. discriminate H1. }
    split; [intros ->; by rewrite size_empty in Hb|].
    pose proof (ratio_times a b Hb) as Ht. rewrite H1, Qmult_1_r in Ht.
    unfold Qeq in Ht. simpl in Ht.
    apply set_subseteq_size_eq; [done|lia].
  - intros [Hb ->]. assert (size b ≠ 0) as Hs.
    { intros Hs%size_empty_iff. by apply leibniz_equiv in Hs. }
    pose proof (ratio_times b b Hs) as Ht.
    assert (¬ (inject_Z (Z.of_nat (size b)) == 0)%Q) as Hn.
    { intros H. unfold Qeq in H. simpl in H. lia. }
    apply (Qmult_inj_l _ _ _ Hn). by rewrite Ht, Qmult_1_r.
Qed.

Lemma used_tags_covered {A} (f : A → gset text) (X : list A) (subject : gset text) t :
  t ∈ used_tags subject (f <$> X) → ∃ x, x ∈ X ∧ t ∈ f x ∩ used_tags subject (f <$> X).
Proof.
  intros Ht. pose proof Ht as Ht'. unfold used_tags in Ht.
  apply elem_of_intersection in Ht as [(Y & HY & HtY)%elem_of_union_list _].
  apply list_elem_of_fmap in HY as (x & -> & Hx).
  exists x. split; [done|]. by apply elem_of_intersection.
Qed.

(** X6: [Source.utility] and [Header.utility] print one row per
    counterpart, in order of decreasing utility; rows of equal utility
    stay in the order in which the set of counterparts is iterated. *)
Theorem report_rows_ordered
    (iter : gset Header.t → list Header.t) (iterS : gset Source.t → list Source.t)
    (src : Source.t) (hdr : Header.t)
    (header_lst : list Header.t) (source_lst : list Source.t) :
  (∀ X, iter X ≡ₚ elements X) →
  (∀ X, iterS X ≡ₚ elements X) →
  (∃ closure rows,
     resolve iter src (Source.include_lst src) (list_to_set header_lst) = Some closure
     ∧ Source_utility iter src header_lst = Some rows
     ∧ length rows = size closure
     ∧ Entry.filename <$> rows ≡ₚ Header.filename <$> elements closure
     ∧ StronglySorted (λ a b, (Entry.utility b <= Entry.utility a)%Q) rows
     ∧ ∀ q, filter (λ e, Qeq_bool (Entry.utility e) q = true) rows
            = filter (λ e, Qeq_bool (Entry.utility e) q = true)
                (Source_entry src
                   (used_tags (Source.tag_set src)
                      (Header.tag_set <$> elements closure)) <$> iter closure))
  ∧ (∃ users rows,
       find_used_sources iter iterS hdr (list_to_set header_lst) (list_to_set source_lst)
       = Some users
       ∧ Header_utility iter iterS hdr header_lst source_lst = Some rows
       ∧ length rows = size users
       ∧ Entry.filename <$> rows ≡ₚ Source.filename <$> elements users
       ∧ StronglySorted (λ a b, (Entry.utility b <= Entry.utility a)%Q) rows
       ∧ ∀ q, filter (λ e, Qeq_bool (Entry.utility e) q = true) rows
              = filter (λ e, Qeq_bool (Entry.utility e) q = true)
                  (Header_entry hdr
                     (used_tags (Header.tag_set hdr)
                        (Source.tag_set <$> elements users)) <$> iterS users)).
Proof.
  intros Hiter HiterS. split.
  - destruct (Source_utility_eq iter Hiter src header_lst) as (closure & Hr & _ & Hu).
    eexists closure, _. split; [done|]. split; [exact Hu|].
    split; [|split; [|split]].
    + by rewrite sorted_desc_perm, length_fmap, Hiter.
    + rewrite sorted_desc_perm, <- list_fmap_compose, Hiter. done.
    + apply sorted_desc_sorted.
    + intros q. apply sorted_desc_stable.
  - destruct (Header_utility_eq iter iterS Hiter HiterS hdr header_lst source_lst)
      as (users & Hr & _ & Hu).
    eexists users, _. split; [done|]. split; [exact Hu|].
    split; [|split; [|split]].
    + by rewrite sorted_desc_perm, length_fmap, HiterS.
    + rewrite sorted_desc_perm, <- list_fmap_compose, HiterS. done.
    + apply sorted_desc_sorted.
    + intros q. apply sorted_desc_stable.
Qed.

Lemma report_rows_ordered_witness :
  ∃ rows, Source_utility elements ex_src [ex_hdr] = Some rows
    ∧ StronglySorted (λ a b, (Entry.utility b <= Entry.utility a)%Q) rows.
Proof.
  destruct (report_rows_ordered elements elements ex_src ex_hdr [ex_hdr] [ex_src]
              (λ X, reflexivity _) (λ X, reflexivity _))
    as [(closure & rows & _ & Hu & _ & _ & Hs & _) _].
  exists rows. split; [exact Hu|exact Hs].
Defined.

(** X7: a row of [Source.utility] is marked [direct] exactly when the
    row's file name is in the include list of the source, and is blank
    otherwise; every header given that the source names gets a row
    marked [direct].  A row of [Header.utility] is marked [direct]
    exactly when the source of the row names the header. *)
Theorem direct_rows
    (iter : gset Header.t → list Header.t) (iterS : gset Source.t → list Source.t)
    (src : Source.t) (hdr : Header.t)
    (header_lst : list Header.t) (source_lst : list Source.t) :
  (∀ X, iter X ≡ₚ elements X) →
  (∀ X, iterS X ≡ₚ elements X) →
  (∃ rows,
     Source_utility iter src header_lst = Some rows
     ∧ (∀ e, e ∈ rows →
          (Entry.type e = txt "direct" ∨ Entry.type e = [])
          ∧ (Entry.type e = txt "direct"
             ↔ Entry.filename e ∈ Source.include_lst src))
     ∧ (∀ h, h ∈ header_lst → Header.filename h ∈ Source.include_lst src →
          ∃ e, e ∈ rows ∧ Entry.filename e = Header.filename h
               ∧ Entry.type e = txt "direct"))
  ∧ (∃ rows,
       Header_utility iter iterS hdr header_lst source_lst = Some rows
       ∧ ∀ e, e ∈ rows →
           ∃ s, s ∈ source_lst ∧ Entry.filename e = Source.filename s
             ∧ (Entry.type e = txt "direct" ∨ Entry.type e = [])
             ∧ (Entry.type e = txt "direct"
                ↔ Header.filename hdr ∈ Source.include_lst s)).
Proof.
  intros Hiter HiterS. split.
  - destruct (Source_utility_eq iter Hiter src header_lst) as (closure & Hr & Hreach & Hu).
    eexists. split; [exact Hu|]. split.
    + intros e. rewrite sorted_desc_perm, list_elem_of_fmap.
      intros (h & -> & Hh). unfold Source_entry. cbn [Entry.type Entry.filename].
      destruct (bool_decide_reflect (Header.filename h ∈ Source.include_lst src)).
      * split; [by left|done].
      * split; [by right|]. split; [discriminate|done].
    + intros h Hh Hn. eexists. split.
      * rewrite sorted_desc_perm. apply list_elem_of_fmap. exists h. split; [done|].
        rewrite Hiter, elem_of_elements. apply Hreach, reach_named; [|done].
        by apply elem_of_list_to_set.
      * unfold Source_entry. cbn [Entry.type Entry.filename]. split; [done|].
        by rewrite bool_decide_eq_true_2.
  - destruct (Header_utility_eq iter iterS Hiter HiterS hdr header_lst source_lst)
      as (users & Hr & Hreach & Hu).
    eexists. split; [exact Hu|].
    intros e. rewrite sorted_desc_perm, list_elem_of_fmap.
    intros (s & -> & Hs). exists s.
    rewrite HiterS, elem_of_elements in Hs. apply Hreach in Hs as [Hs _].
    split; [done|]. unfold Header_entry. cbn [Entry.type Entry.filename].
    split; [done|].
    destruct (bool_decide_reflect (Header.filename hdr ∈ Source.include_lst s)).
    + split; [by left|done].
    + split; [by right|]. split; [discriminate|done].
Qed.

Lemma direct_rows_witness :
  ∃ rows, Source_utility elements ex_src [ex_hdr] = Some rows
    ∧ ∃ e, e ∈ rows ∧ Entry.filename e = txt "b.h" ∧ Entry.type e = txt "direct".
Proof.
  destruct (direct_rows elements elements ex_src ex_hdr [ex_hdr] [ex_src]
              (λ X, reflexivity _) (λ X, reflexivity _))
    as [(rows & Hu & _ & Hd) _].
  exists rows. split; [exact Hu|].
  apply (Hd ex_hdr); apply list_elem_of_here.
Defined.

(** X8: in a report of [Source.utility] a row has utility 0 exactly
    when it lists no tag, and utility 1 exactly when the used tag set is
    not empty and the row lists all of it; when the used tag set is not
    empty, some row has a utility above 0. *)
Theorem utility_extremes
    (iter : gset Header.t → list Header.t)
    (src : Source.t) (header_lst : list Header.t) :
  (∀ X, iter X ≡ₚ elements X) →
  ∃ closure rows,
    resolve iter src (Source.include_lst src) (list_to_set header_lst) = Some closure
    ∧ Source_utility iter src header_lst = Some rows
    ∧ let used := used_tags (Source.tag_set src)
                    (Header.tag_set <$> elements closure) in
      (∀ e, e ∈ rows →
         ((Entry.utility e == 0)%Q ↔ Entry.taglist e = ∅)
         ∧ ((Entry.utility e == 1)%Q ↔ used ≠ ∅ ∧ Entry.taglist e = used))
      ∧ (used ≠ ∅ → ∃ e, e ∈ rows ∧ (0 < Entry.utility e)%Q).
Proof.
  intros Hiter.
  destruct (Source_utility_eq iter Hiter src header_lst) as (closure & Hr & _ & Hu).
  eexists closure, _. split; [done|]. split; [exact Hu|]. cbv zeta. split.
  - intros e. rewrite sorted_desc_perm, list_elem_of_fmap.
    intros (h & -> & Hh). unfold Source_entry. cbn [Entry.utility Entry.taglist].
    split; [apply ratio_is_zero|apply ratio_is_one]; set_solver.
  - intros Hne. apply set_choose_L in Hne as [t Ht].
    apply used_tags_covered in Ht as (h & Hh & Ht).
    eexists. split.
    + rewrite sorted_desc_perm. apply list_elem_of_fmap. exists h. split; [done|].
      by rewrite Hiter.
    + unfold Source_entry. cbn [Entry.utility].
      set (used := used_tags _ _) in *.
      destruct (ratio_bounds (Header.tag_set h ∩ used) used) as [H0 _]; [set_solver|].
      apply Qle_lt_or_eq in H0 as [|H0]; [done|]. exfalso.
      symmetry in H0. apply ratio_is_zero in H0; [|set_solver].
      rewrite H0 in Ht. by apply not_elem_of_empty in Ht.
Qed.

Lemma utility_extremes_witness :
  ∃ rows, Source_utility elements ex_src [ex_hdr] = Some rows
    ∧ ∀ e, e ∈ rows → ((Entry.utility e == 0)%Q ↔ Entry.taglist e = ∅).
Proof.
  destruct (utility_extremes elements ex_src [ex_hdr] (λ X, reflexivity _))
    as (closure & rows & _ & Hu & Hrows & _).
  exists rows. split; [exact Hu|]. intros e He. exact (proj1 (Hrows e He)).
Defined.

(** ** Decoding a tag line *)

Lemma split_join sep s : join [sep] (split sep s) = s.
Proof.
  induction s as [|c s IH]; [done|]. cbn [split].
  destruct (Ascii.eqb_spec c sep) as [->|Hc].
  - cbn [join]. destruct (split sep s) as [|h t] eqn:E.
    + by destruct s; simpl in E; [|destruct (Ascii.eqb _ _), (split sep _)].
    + by rewrite IH.
  - destruct (split sep s) as [|h t] eqn:E.
    + by destruct s; simpl in E; [|destruct (Ascii.eqb _ _), (split sep _)].
    + rewrite <- IH. by destruct t.
Qed.

Lemma split_fields sep s : Forall (λ f, sep ∉ f) (split sep s).
Proof.
  induction s as [|c s IH]; cbn [split].
  - constructor; [apply not_elem_of_nil|constructor].
  - destruct (Ascii.eqb_spec c sep) as [->|Hc].
    + constructor; [apply not_elem_of_nil|done].
    + destruct (split sep s) as [|h t]; [repeat constructor; set_solver|].
      apply Forall_cons in IH as [Hh Ht]. constructor; [|done].
      intros [?|?]%elem_of_cons; congruence.
Qed.

Lemma split_snoc sep s :
  ∃ parts lastf, split sep s = parts ++ [lastf]
    ∧ removelast (split sep s) = parts ∧ List.last (split sep s) [] = lastf.
Proof.
  assert (split sep s ≠ []) as Hne.
  { destruct s as [|c s]; [done|]. simpl.
    destruct (Ascii.eqb c sep); [done|]. by destruct (split sep s). }
  destruct (exists_last Hne) as (parts & lastf & E).
  exists parts, lastf. rewrite E. split; [done|].
  by rewrite removelast_last, last_last.
Qed.

Lemma join_snoc sep (parts : list text) lastf :
  join [sep] (parts ++ [lastf])
  = match parts with
    | [] => lastf
    | _ :: _ => join [sep] parts ++ sep :: lastf
    end.
Proof.
  induction parts as [|p parts IH]; [done|].
  change ((p :: parts) ++ [lastf]) with (p :: (parts ++ [lastf])).
  cbn [join]. destruct parts as [|q parts]; [done|].
  change ((q :: parts) ++ [lastf]) with (q :: (parts ++ [lastf])) in *.
  rewrite IH. by rewrite <- !app_assoc.
Qed.

(** [s.rstrip(chars)] cuts the longest tail made of the characters. *)
Lemma rstrip_spec s chars :
  ∃ tail, s = rstrip s chars ++ tail
    ∧ Forall (λ c, c ∈ chars) tail
    ∧ ∀ c, last (rstrip s chars) = Some c → c ∉ chars.
Proof.
  unfold rstrip. set (p := λ c, bool_decide (c ∈ chars)).
  exists (reverse (take_run p (reverse s))). split; [|split].
  - rewrite <- reverse_app, take_drop_run. by rewrite reverse_involutive.
  - apply Forall_reverse. eapply Forall_impl; [apply take_run_Forall|].
    intros c Hc. by apply bool_decide_eq_true in Hc.
  - intros c Hc. pose proof (drop_run_head p (reverse s) c) as Hh.
    destruct (drop_run p (reverse s)) as [|d t] eqn:E; [done|].
    rewrite reverse_cons, last_snoc in Hc. injection Hc as ->.
    specialize (Hh eq_refl). by apply bool_decide_eq_false in Hh.
Qed.

(** X9: on a line with at least four tab-separated fields [parse_ctag]
    keeps the name as it is; the file field is cut at its last path
    separator into path and file, which put together give the field
    back, and the file part holds no separator; the address is the
    address field without its longest tail of [;] and double quote
    characters; fields after the fourth change nothing but the copy of
    the line kept in the record. *)
Theorem parse_ctag_decoding (py_is : identity) (ctag name file addr kind : text)
    (more : list text) :
  split TAB ctag = name :: file :: addr :: kind :: more →
  ∃ p f a,
    Tag.ctag (parse_ctag py_is ctag).1 = ctag
    ∧ Tag.name (parse_ctag py_is ctag).1 = Some name
    ∧ Tag.path (parse_ctag py_is ctag).1 = Some p
    ∧ Tag.file (parse_ctag py_is ctag).1 = Some f
    ∧ Tag.addr (parse_ctag py_is ctag).1 = Some a
    ∧ (os_path_sep ∉ f)
    ∧ (os_path_sep ∈ file → file = p ++ (os_path_sep :: f))
    ∧ (os_path_sep ∉ file → p = [] ∧ f = file)
    ∧ (∃ tail, addr = a ++ tail
         ∧ Forall (λ c, c = ";"%char ∨ c = DQUOTE) tail
         ∧ ∀ c, last a = Some c → c ≠ ";"%char ∧ c ≠ DQUOTE)
    ∧ ∀ ctag' more',
        split TAB ctag' = name :: file :: addr :: kind :: more' →
        (parse_ctag py_is ctag').2 = (parse_ctag py_is ctag).2
        ∧ Tag.name (parse_ctag py_is ctag').1 = Some name
        ∧ Tag.path (parse_ctag py_is ctag').1 = Some p
        ∧ Tag.file (parse_ctag py_is ctag').1 = Some f
        ∧ Tag.addr (parse_ctag py_is ctag').1 = Some a
        ∧ Tag.kind (parse_ctag py_is ctag').1 = Tag.kind (parse_ctag py_is ctag).1.
Proof.
  intros Hs.
  exists (join [os_path_sep] (removelast (split os_path_sep file))),
         (List.last (split os_path_sep file) []),
         (rstrip addr (txt ";" ++ [DQUOTE])).
  assert (∀ c m, split TAB c = name :: file :: addr :: kind :: m →
    parse_ctag py_is c
    = (Tag.mk c (Some name)
         (Some (join [os_path_sep] (removelast (split os_path_sep file))))
         (Some (List.last (split os_path_sep file) []))
         (Some (rstrip addr (txt ";" ++ [DQUOTE])))
         (Some (default [] (kind_of py_is kind))),
       match kind_of py_is kind with
       | Some _ => []
       | None => [print_error (txt "Unknown kind: " ++ kind)]
       end)) as Hparse.
  { intros c m Hc. unfold parse_ctag. rewrite Hc. cbn [take].
    by destruct (kind_of py_is kind). }
  rewrite (Hparse ctag more Hs). cbn [fst snd Tag.ctag Tag.name Tag.path Tag.file Tag.addr].
  do 5 (split; [done|]).
  destruct (split_snoc os_path_sep file) as (parts & lastf & E & -> & ->).
  pose proof (split_fields os_path_sep file) as Hf. rewrite E in Hf.
  apply Forall_app in Hf as [Hparts [Hlast _]%Forall_cons].
  pose proof (split_join os_path_sep file) as Hj. rewrite E, join_snoc in Hj.
  split; [done|]. split; [|split; [|split]].
  - intros Hin. destruct parts as [|q parts]; [|done].
    rewrite <- Hj in Hin. done.
  - intros Hnin. destruct parts as [|q parts]; [done|].
    exfalso. apply Hnin. rewrite <- Hj. apply elem_of_app. right. by left.
  - destruct (rstrip_spec addr (txt ";" ++ [DQUOTE])) as (tail & Ht & Hall & Hl).
    exists tail. split; [done|]. split.
    + eapply Forall_impl; [exact Hall|]. intros c Hc. cbn in Hc.
      apply elem_of_cons in Hc as [->|Hc]; [by left|].
      apply list_elem_of_singleton in Hc as ->. by right.
    + intros c Hc. specialize (Hl c Hc). split; intros ->; apply Hl.
      * by left.
      * right. by left.
  - intros ctag' more' Hs'. rewrite (Hparse ctag' more' Hs').
    cbn [fst snd Tag.name Tag.path Tag.file Tag.addr Tag.kind].
    by rewrite E, removelast_last, last_last.
Qed.

Lemma parse_ctag_decoding_witness :
  ∃ p f a,
    Tag.path (parse_ctag cpython_3_11 ex_good_line).1 = Some p
    ∧ Tag.file (parse_ctag cpython_3_11 ex_good_line).1 = Some f
    ∧ Tag.addr (parse_ctag cpython_3_11 ex_good_line).1 = Some a
    ∧ os_path_sep ∉ f.
Proof.
  destruct (parse_ctag_decoding cpython_3_11 ex_good_line
              (txt "FOO") (txt "b.h") (txt "1") (txt "d") [])
    as (p & f & a & _ & _ & Hp & Hf & Ha & Hsep & _).
  - vm_compute. reflexivity.
  - exists p, f, a. repeat split; assumption.
Defined.

(** ** The tag list of a header *)

Lemma create_tags_step_spec py_is st ctag :
  sound py_is →
  create_tags_step py_is st ctag
  = (st.1 ++ option_list (tag_name_of py_is ctag), st.2 ++ tag_report_of py_is ctag).
Proof.
  intros Hsound. destruct ctag as [|c ctag].
  - destruct st. cbn. by rewrite !app_nil_r.
  - unfold tag_name_of, tag_report_of.
    destruct (split TAB (c :: ctag)) as [|f1 [|f2 [|f3 [|f4 more]]]] eqn:E;
      try (rewrite (create_tags_step_short py_is st (c :: ctag)) by (rewrite E; simpl; lia);
           rewrite (parse_ctag_short py_is (c :: ctag)) by (rewrite E; simpl; lia);
           cbn; by rewrite app_nil_r).
    rewrite (create_tags_step_fields py_is st _ _ _ _ _ _ Hsound E).
    destruct (bool_decide (f4 ∈ identifier_kinds) && py_is f4 f4); cbn;
      by rewrite ?app_nil_r.
Qed.

Lemma create_tags_loop_spec py_is lines st :
  sound py_is →
  foldl (create_tags_step py_is) st lines
  = (st.1 ++ omap (tag_name_of py_is) lines,
     st.2 ++ concat (tag_report_of py_is <$> lines)).
Proof.
  intros Hsound. revert st. induction lines as [|l lines IH]; intros st.
  - destruct st. cbn. by rewrite !app_nil_r.
  - cbn [foldl]. rewrite IH, create_tags_step_spec by done. cbn [fst snd].
    rewrite <- !app_assoc. cbn [omap list_omap fmap list_fmap concat].
    f_equal. f_equal. unfold option_list. by destruct (tag_name_of py_is l).
Qed.

(** X10: [create_tags] appends to the tag list of the header, in the
    order of the tag file, the name field of every line that is not a
    [!_] line, has at least four tab-separated fields, has kind [d],
    [e], [f] or [t] and whose kind field the interpreter takes for the
    object of its literal; nothing else is appended and repeated names
    stay in the list.  On an interpreter that takes none of the four
    for the object of its literal the tag list stays as it was.  The
    tag set is the set of the list, and the file name, the text and the
    include list of the header are left as they were. *)
Theorem create_tags_batch (py_is : identity) (self : Header.t) (data : text) :
  sound py_is →
  Header.tag_lst (create_tags py_is self data).1
  = Header.tag_lst self ++ omap (tag_name_of py_is) (ctag_lst data)
  ∧ Header.tag_set (create_tags py_is self data).1
    = list_to_set (Header.tag_lst (create_tags py_is self data).1)
  ∧ (create_tags py_is self data).2 = concat (tag_report_of py_is <$> ctag_lst data)
  ∧ Header.filename (create_tags py_is self data).1 = Header.filename self
  ∧ Header.data (create_tags py_is self data).1 = Header.data self
  ∧ Header.include_lst (create_tags py_is self data).1 = Header.include_lst self
  ∧ (∀ n, n ∈ omap (tag_name_of py_is) (ctag_lst data) ↔
       ∃ line file addr kind more,
         line ∈ split NL data ∧ startswith line (txt "!_") = false
         ∧ split TAB line = n :: file :: addr :: kind :: more
         ∧ kind ∈ identifier_kinds ∧ py_is kind kind = true)
  ∧ ((∀ k, k ∈ identifier_kinds → py_is k k = false) →
     Header.tag_lst (create_tags py_is self data).1 = Header.tag_lst self).
Proof.
  intros Hsound.
  assert (∀ n, n ∈ omap (tag_name_of py_is) (ctag_lst data) ↔
       ∃ line file addr kind more,
         line ∈ split NL data ∧ startswith line (txt "!_") = false
         ∧ split TAB line = n :: file :: addr :: kind :: more
         ∧ kind ∈ identifier_kinds ∧ py_is kind kind = true) as Hmem.
  { intros n. rewrite list_elem_of_omap. unfold ctag_lst. split.
    - intros (line & [Hs Hin]%list_elem_of_filter & Hn).
      unfold tag_name_of in Hn.
      destruct (split TAB line) as [|f1 [|f2 [|f3 [|f4 more]]]] eqn:E; try done.
      destruct (bool_decide_reflect (f4 ∈ identifier_kinds)) as [Hk|]; [|done].
      destruct (py_is f4 f4) eqn:Hself; [|done].
      injection Hn as ->. exists line, f2, f3, f4, more.
      split; [done|]. split; [by apply negb_true_iff in Hs|done].
    - intros (line & file & addr & kind & more & Hin & Hs & E & Hk & Hself).
      exists line. split.
      + apply list_elem_of_filter. split; [by rewrite Hs|done].
      + unfold tag_name_of. rewrite E, Hself. by rewrite bool_decide_eq_true_2. }
  unfold create_tags. rewrite create_tags_loop_spec by done.
  cbn [fst snd Header.tag_lst Header.tag_set Header.filename Header.data
       Header.include_lst app].
  do 6 (split; [done|]). split; [exact Hmem|].
  intros Hnone.
  destruct (omap (tag_name_of py_is) (ctag_lst data)) as [|n l] eqn:E;
    [by rewrite app_nil_r|].
  exfalso.
  destruct (proj1 (Hmem n)) as (line & file & addr & kind & more & _ & _ & _ & Hk & Hself);
    [by left|].
  by rewrite (Hnone kind Hk) in Hself.
Qed.

Lemma create_tags_batch_witness :
  Header.tag_lst (create_tags cpython_3_11 (Header_read (txt "b.h") [])
                    (ex_good_line ++ [NL])).1
  = Header.tag_lst (Header_read (txt "b.h") []).
Proof.
  apply (create_tags_batch cpython_3_11 (Header_read (txt "b.h") [])
           (ex_good_line ++ [NL]) (shares_sound _)).
  intros k Hk. unfold identifier_kinds in Hk.
  repeat (apply elem_of_cons in Hk as [->|Hk]; [reflexivity|]).
  by apply elem_of_nil in Hk.
Defined.

(** ** The tags of a source *)

Lemma rmatch_atom {R} flags a (k : text → option text → option R) s g :
  Re.rmatch flags (Re.Atom a) k s g
  = match s with
    | c :: s' => if Re.atom_ok flags a c then k s' g else None
    | [] => None
    end.
Proof. by destruct s. Qed.

Lemma match_tagname s :
  Re.match_at Re.NOFLAG tagname_re s
  = (λ '(name, rest), (rest, Some name)) <$> tag_at s.
Proof.
  unfold Re.match_at, tagname_re, tag_at. rewrite rmatch_seq, rmatch_atom.
  destruct s as [|c s]; [done|]. cbn [Re.atom_ok].
  destruct (negb (is_word c)); [|done].
  rewrite rmatch_seq, rmatch_group_plus_run.
  - destruct (plus_run is_word s) as [[name rest1]|] eqn:E; [|done].
    apply plus_run_spec in E as (_ & _ & Hrest). rewrite rmatch_atom.
    destruct rest1 as [|d rest]; [done|]. cbn [Re.atom_ok].
    by rewrite (Hrest d eq_refl).
  - intros d t g' Hd. rewrite rmatch_atom. cbn [Re.atom_ok]. by rewrite Hd.
Qed.

Lemma tag_at_spec s name rest :
  tag_at s = Some (name, rest) ↔ is_tag_at s name rest.
Proof.
  unfold tag_at, is_tag_at. split.
  - destruct s as [|c s]; [done|]. destruct (is_word c) eqn:Hc; [done|]. cbn [negb].
    destruct (plus_run is_word s) as [[name' [|d rest']]|] eqn:E; try done.
    intros [= -> ->]. apply plus_run_spec in E as (-> & Hrun & Hrest).
    exists c, d. split; [done|]. split; [done|]. split; [done|]. by apply Hrest.
  - intros (c & d & -> & Hc & Hrun & Hd). rewrite Hc. cbn [negb].
    assert (plus_run is_word (name ++ d :: rest) = Some (name, d :: rest)) as ->; [|done].
    apply plus_run_spec. split; [done|]. split; [done|]. by intros ? [= <-].
Qed.

Lemma scan_tags_unfold c s :
  Re.findall tagname_re (c :: s) Re.NOFLAG
  = match tag_at (c :: s) with
    | Some (name, rest) => name :: Re.findall tagname_re rest Re.NOFLAG
    | None => Re.findall tagname_re s Re.NOFLAG
    end.
Proof.
  unfold Re.findall. rewrite findall_go_unfold by (vm_compute; lia).
  rewrite match_tagname. by destruct (tag_at (c :: s)) as [[name rest]|].
Qed.

Lemma tag_at_shorter s name rest :
  tag_at s = Some (name, rest) → length rest < length s.
Proof.
  intros (c & d & -> & _)%tag_at_spec. simpl. rewrite length_app. simpl. lia.
Qed.

(** Every tag the scan returns is a word that stands in the text
    between two characters that are not word characters. *)
Lemma scan_tags_occur s t :
  t ∈ Re.findall tagname_re s Re.NOFLAG →
  is_run is_word t
  ∧ ∃ pre c d post,
      s = pre ++ c :: t ++ d :: post ∧ is_word c = false ∧ is_word d = false.
Proof.
  revert t. by_length s IH. intros t. destruct s as [|c s]; [by intros ?%elem_of_nil|].
  rewrite scan_tags_unfold.
  destruct (tag_at (c :: s)) as [[name rest]|] eqn:E.
  - intros [->|Ht]%elem_of_cons.
    + apply tag_at_spec in E as (c' & d & E & Hc & Hrun & Hd).
      split; [done|]. exists [], c', d, rest. done.
    + destruct (IH rest (tag_at_shorter _ _ _ E) t Ht)
        as (Hrun & pre & c' & d & post & -> & Hc & Hd).
      split; [done|]. apply tag_at_spec in E as (c0 & d0 & -> & _).
      exists (c0 :: name ++ d0 :: pre), c', d, post.
      split; [|done]. cbn. by rewrite <- !app_assoc.
  - intros Ht. destruct (IH s ltac:(simpl; lia) t Ht)
      as (Hrun & pre & c' & d & post & -> & Hc & Hd).
    split; [done|]. by exists (c :: pre), c', d, post.
Qed.

(** X11: the tag scan of [Source.read] goes through the text from left
    to right.  Where the text starts with a character that is not a
    word character, a word and another character that is not a word
    character, the word is a tag and the scan goes on after that second
    character; elsewhere it moves one character on.  So a word at the
    very start or the very end of the text is not found, and neither is
    a word that follows a tag after one separating character. *)
Theorem tag_scan_spec :
  Re.findall tagname_re [] Re.NOFLAG = []
  ∧ (∀ s name rest,
       is_tag_at s name rest →
       Re.findall tagname_re s Re.NOFLAG
       = name :: Re.findall tagname_re rest Re.NOFLAG)
  ∧ (∀ c s,
       (∀ name rest, ¬ is_tag_at (c :: s) name rest) →
       Re.findall tagname_re (c :: s) Re.NOFLAG
       = Re.findall tagname_re s Re.NOFLAG)
  ∧ (∀ w, is_run is_word w → Re.findall tagname_re w Re.NOFLAG = [])
  ∧ (∀ c w, is_run is_word w → Re.findall tagname_re (c :: w) Re.NOFLAG = [])
  ∧ (∀ c w1 d w2 e,
       is_word c = false → is_run is_word w1 → is_word d = false →
       is_run is_word w2 → is_word e = false →
       Re.findall tagname_re (c :: w1 ++ d :: w2 ++ [e]) Re.NOFLAG = [w1]).
Proof.
  assert (∀ w, Forall (λ c, is_word c = true) w →
               Re.findall tagname_re w Re.NOFLAG = []) as Hwords.
  { induction w as [|c w IH]; intros Hw; [done|].
    apply Forall_cons in Hw as [Hc Hw]. rewrite scan_tags_unfold.
    unfold tag_at. rewrite Hc. cbn [negb]. by apply IH. }
  assert (∀ c w, Forall (λ c, is_word c = true) w →
                 Re.findall tagname_re (c :: w) Re.NOFLAG = []) as Hstart.
  { intros c w Hw. rewrite scan_tags_unfold. unfold tag_at.
    destruct (negb (is_word c)); [|by apply Hwords].
    destruct (plus_run is_word w) as [[name [|d rest]]|] eqn:E;
      try by apply Hwords.
    apply plus_run_spec in E as (-> & _ & Hd).
    apply Forall_app in Hw as [_ [Hd' _]%Forall_cons].
    rewrite (Hd d eq_refl) in Hd'. discriminate. }
  split; [done|]. split; [|split; [|split; [|split]]].
  - intros s name rest Hd.
    destruct s as [|c s]; [by destruct Hd as (? & ? & ? & _)|].
    rewrite scan_tags_unfold. apply tag_at_spec in Hd. by rewrite Hd.
  - intros c s Hno. rewrite scan_tags_unfold.
    destruct (tag_at (c :: s)) as [[name rest]|] eqn:E; [|done].
    by apply tag_at_spec, Hno in E.
  - intros w [_ Hw]. by apply Hwords.
  - intros c w [_ Hw]. by apply Hstart.
  - intros c w1 d w2 e Hc H1 Hd [_ H2] He.
    rewrite scan_tags_unfold.
    assert (tag_at (c :: w1 ++ d :: w2 ++ [e]) = Some (w1, w2 ++ [e])) as ->.
    { apply tag_at_spec. by exists c, d. }
    f_equal. clear -H2 He Hwords. induction H2 as [|x w2 Hx H2 IH].
    + cbn [app]. rewrite scan_tags_unfold. unfold tag_at. by rewrite He.
    + cbn [app]. rewrite scan_tags_unfold. unfold tag_at. rewrite Hx. cbn [negb].
      exact IH.
Qed.

Lemma tag_scan_spec_witness :
  Re.findall tagname_re (txt " a b ") Re.NOFLAG = [txt "a"].
Proof.
  apply (proj2 (proj2 (proj2 (proj2 (proj2 tag_scan_spec))))
           " "%char (txt "a") " "%char (txt "b") " "%char).
  - reflexivity.
  - split; [discriminate|]. repeat constructor.
  - reflexivity.
  - split; [discriminate|]. repeat constructor.
  - reflexivity.
Defined.

(** ** What [Source.read] leaves in the object *)

Lemma nat_of_ascii_inj a b : nat_of_ascii a = nat_of_ascii b → a = b.
Proof.
  intros H. rewrite <- (ascii_nat_embedding a), <- (ascii_nat_embedding b).
  by rewrite H.
Qed.

Lemma text_leb_total a b : text_leb a b = false → text_leb b a = true.
Proof.
  revert b. induction a as [|x a IH]; intros [|y b]; cbn [text_leb]; try done.
  destruct (Ascii.eqb_spec x y) as [->|Hxy].
  - rewrite Ascii.eqb_refl. apply IH.
  - assert (Ascii.eqb y x = false) as -> by (apply Ascii.eqb_neq; congruence).
    intros H%Nat.ltb_ge. apply Nat.ltb_lt.
    assert (nat_of_ascii x ≠ nat_of_ascii y) by (intros ?%nat_of_ascii_inj; done).
    lia.
Qed.

Lemma text_leb_trans a b c :
  text_leb a b = true → text_leb b c = true → text_leb a c = true.
Proof.
  revert b c. induction a as [|x a IH]; intros [|y b] [|z c]; cbn [text_leb]; try done.
  destruct (Ascii.eqb_spec x y) as [->|Hxy].
  - destruct (Ascii.eqb_spec y z) as [->|Hyz]; [apply IH|done].
  - destruct (Ascii.eqb_spec y z) as [->|Hyz].
    + assert (Ascii.eqb x z = false) as -> by (by apply Ascii.eqb_neq). done.
    + intros H1%Nat.ltb_lt H2%Nat.ltb_lt.
      destruct (Ascii.eqb_spec x z) as [->|Hxz]; [lia|]. apply Nat.ltb_lt. lia.
Qed.

Lemma insert_text_perm x l : insert_text x l ≡ₚ x :: l.
Proof.
  induction l as [|y l IH]; [done|]. cbn [insert_text].
  destruct (text_leb x y); [done|]. rewrite IH. apply perm_swap.
Qed.

Lemma sort_text_perm l : sort_text l ≡ₚ l.
Proof.
  induction l as [|x l IH]; [done|]. cbn [sort_text foldr].
  by rewrite insert_text_perm, IH.
Qed.

Lemma insert_text_sorted x l :
  StronglySorted (λ a b, text_leb a b = true) l →
  StronglySorted (λ a b, text_leb a b = true) (insert_text x l).
Proof.
  induction 1 as [|y l Hs IH Hy]; cbn [insert_text].
  - by repeat constructor.
  - destruct (text_leb x y) eqn:E.
    + constructor; [by constructor|]. constructor; [done|].
      eapply Forall_impl; [exact Hy|]. intros z Hz. by apply (text_leb_trans x y z).
    + constructor; [done|]. rewrite insert_text_perm.
      constructor; [by apply text_leb_total|done].
Qed.

Lemma sort_text_sorted l : StronglySorted (λ a b, text_leb a b = true) (sort_text l).
Proof.
  induction l as [|x l IH]; [constructor|]. by apply insert_text_sorted.
Qed.

(** X12: after [Source.read] the tag list of a source is sorted and
    holds no tag twice, and the tag set holds the same tags; every tag
    is a non-empty run of word characters that stands in the stripped
    text between two characters that are not word characters; the
    include list is what the include parser finds in the stripped
    text. *)
Theorem Source_read_tags (filename raw : text) :
  Source.filename (Source_read filename raw) = filename
  ∧ Source.data (Source_read filename raw) = Source_strip raw
  ∧ Source.include_lst (Source_read filename raw) = parse_includes (Source_strip raw)
  ∧ StronglySorted (λ a b, text_leb a b = true)
      (Source.tag_lst (Source_read filename raw))
  ∧ NoDup (Source.tag_lst (Source_read filename raw))
  ∧ (∀ t, t ∈ Source.tag_set (Source_read filename raw)
          ↔ t ∈ Source.tag_lst (Source_read filename raw))
  ∧ (∀ t, t ∈ Source.tag_set (Source_read filename raw)
          ↔ t ∈ Re.findall tagname_re (Source_strip raw) Re.NOFLAG)
  ∧ ∀ t, t ∈ Source.tag_set (Source_read filename raw) →
      is_run is_word t
      ∧ ∃ pre c d post,
          Source_strip raw = pre ++ c :: t ++ d :: post
          ∧ is_word c = false ∧ is_word d = false.
Proof.
  unfold Source_read.
  cbn [Source.filename Source.data Source.include_lst Source.tag_lst Source.tag_set].
  set (found := Re.findall tagname_re (Source_strip raw) Re.NOFLAG).
  assert (∀ t, t ∈ (list_to_set (sort_text (elements (list_to_set found : gset text)))
                    : gset text) ↔ t ∈ found) as Hset.
  { intros t. rewrite elem_of_list_to_set, sort_text_perm, elem_of_elements.
    apply elem_of_list_to_set. }
  do 3 (split; [done|]). split; [apply sort_text_sorted|].
  split; [rewrite sort_text_perm; apply NoDup_elements|].
  split; [intros t; apply elem_of_list_to_set|].
  split; [done|].
  intros t Ht%Hset. by apply scan_tags_occur.
Qed.

(** ** The text normaliser of [Header.read] *)

Lemma match_block_start flags s :
  startswith s (txt "/*") = false → Re.match_at flags block_comment_re s = None.
Proof.
  intros Hs. unfold Re.match_at, block_comment_re. by rewrite rmatch_seq, rmatch_lit, Hs.
Qed.

Lemma no_open_no_block flags s :
  occurs (txt "/*") s = false → Re.has_match flags block_comment_re s = false.
Proof.
  induction s as [|c s IH]; [done|]. cbn [occurs Re.has_match].
  intros [Hs Ho]%orb_false_iff. rewrite (match_block_start flags _ Hs). by apply IH.
Qed.

Lemma strip_line_head_other s x :
  head (strip_line s) = Some x → x = NL ∨ head s = Some x.
Proof.
  destruct s as [|c s]; [done|].
  destruct (startswith (c :: s) (txt "//")) eqn:Hs.
  - rewrite strip_line_match by done.
    destruct (drop_run not_nl (drop 2 (c :: s))) as [|d t] eqn:E; [done|].
    assert (d = NL) as -> by (apply (drop_run_nl_head (drop 2 (c :: s))); by rewrite E).
    rewrite strip_line_nomatch by done. intros [= <-]. by left.
  - rewrite strip_line_nomatch by done. by right.
Qed.

Lemma strip_line_no_open s :
  occurs (txt "/*") s = false → occurs (txt "/*") (strip_line s) = false.
Proof.
  by_length s IH. destruct s as [|c s]; [done|]. intros Hocc.
  destruct (startswith (c :: s) (txt "//")) eqn:Hs.
  - rewrite strip_line_match by done. apply IH.
    + pose proof (drop_run_length not_nl (drop 2 (c :: s))).
      pose proof (length_drop (c :: s) 2). simpl in *. lia.
    + rewrite <- (take_drop (2 : nat) (c :: s)) in Hocc.
      apply occurs_suffix in Hocc.
      rewrite <- (take_drop_run not_nl (drop 2 (c :: s))) in Hocc.
      by apply occurs_suffix in Hocc.
  - rewrite strip_line_nomatch by done. cbn [occurs].
    rewrite IH; [|simpl; lia|by apply occurs_cons in Hocc]. rewrite orb_false_r.
    apply not_true_is_false. intros [-> Hh]%startswith_2.
    apply strip_line_head_other in Hh as [Hh|Hh]; [discriminate Hh|].
    cbn [occurs] in Hocc. apply orb_false_iff in Hocc as [Hocc _].
    apply not_true_iff_false in Hocc. apply Hocc, startswith_2. done.
Qed.

(** X13: [Header.read]'s normaliser leaves no [//] in the text.  On a
    text in which the block comment pattern (on one line) matches
    nowhere it removes the line comments and nothing else, and on a
    text without [/*] it returns what [Source.read]'s normaliser
    returns. *)
Theorem Header_strip_line_comments (data : text) :
  Re.has_match Re.NOFLAG line_comment_re (Header_strip data) = false
  ∧ occurs (txt "//") (Header_strip data) = false
  ∧ (Re.has_match Re.NOFLAG block_comment_re data = false →
     Header_strip data = strip_line data)
  ∧ (occurs (txt "/*") data = false →
     Header_strip data = strip_line data ∧ Source_strip data = strip_line data).
Proof.
  assert (∀ t, Header_strip t
               = strip_line (Re.sub block_comment_re [] t Re.DOTALL Re.NOFLAG)) as Hh
    by done.
  split; [|split; [|split]].
  - rewrite Hh. apply no_dslash_no_line, strip_line_no_dslash.
  - rewrite Hh. apply strip_line_no_dslash.
  - intros Hb. rewrite Hh. unfold Re.sub. cbn [Z.eqb].
    by rewrite (sub_go_no_match_id _ _ _ _ _ Hb).
  - intros Ho. split.
    + rewrite Hh. unfold Re.sub. cbn [Z.eqb].
      by rewrite (sub_go_no_match_id _ _ _ _ _ (no_open_no_block _ _ Ho)).
    + rewrite Source_strip_eq. unfold strip_block, Re.sub. cbn [Z.eqb].
      apply sub_go_no_match_id, no_open_no_block. by apply strip_line_no_open.
Qed.

Lemma Header_strip_line_comments_witness :
  Header_strip (txt "int a; // b") = strip_line (txt "int a; // b")
  ∧ Source_strip (txt "int a; // b") = strip_line (txt "int a; // b").
Proof.
  apply (proj2 (proj2 (proj2 (Header_strip_line_comments (txt "int a; // b"))))).
  vm_compute. reflexivity.
Defined.

(** ** The file lists *)

Lemma text_leb_antisym a b : text_leb a b = true → text_leb b a = true → a = b.
Proof.
  revert b. induction a as [|x a IH]; intros [|y b]; cbn [text_leb]; try done.
  destruct (Ascii.eqb_spec x y) as [->|Hxy].
  - rewrite Ascii.eqb_refl. intros H1 H2. f_equal. by apply IH.
  - assert (Ascii.eqb y x = false) as -> by (apply Ascii.eqb_neq; congruence).
    intros H1%Nat.ltb_lt H2%Nat.ltb_lt. lia.
Qed.

Lemma sorted_text_unique l1 l2 :
  StronglySorted (λ a b, text_leb a b = true) l1 →
  StronglySorted (λ a b, text_leb a b = true) l2 →
  NoDup l1 → NoDup l2 → (∀ x, x ∈ l1 ↔ x ∈ l2) → l1 = l2.
Proof.
  intros H1 H2 N1 N2 Hm.
  apply (StronglySorted_unique_strong (λ a b, text_leb a b = true)); try done.
  - intros x1 x2 _ _. apply text_leb_antisym.
  - by apply NoDup_Permutation.
Qed.

Lemma sort_elements_nodup (X : gset text) : NoDup (sort_text (elements X)).
Proof. rewrite sort_text_perm. apply NoDup_elements. Qed.

Lemma sort_elements_elem (X : gset text) x : x ∈ sort_text (elements X) ↔ x ∈ X.
Proof. by rewrite sort_text_perm, elem_of_elements. Qed.

Lemma sorted_filter {A} (R : A → A → Prop) (P : A → Prop) `{!∀ x, Decision (P x)} l :
  StronglySorted R l → StronglySorted R (filter P l).
Proof.
  induction 1 as [|x l Hs IH Hx]; [constructor|].
  rewrite filter_cons. destruct (decide (P x)); [|done].
  constructor; [done|]. apply Forall_forall. intros y [_ Hy]%list_elem_of_filter.
  rewrite Forall_forall in Hx. by apply Hx.
Qed.

Lemma py_in_globbed (glob : text → list text) d excl :
  py_in (PStr d) ((λ x, PList (glob x)) <$> excl) = false.
Proof. induction excl as [|x excl IH]; [done|]. exact IH. Qed.

Lemma lstrip_head s chars c : head (lstrip s chars) = Some c → c ∉ chars.
Proof.
  intros H%drop_run_head. by apply bool_decide_eq_false in H.
Qed.

Lemma lstrip_suffix s chars : ∃ pre, s = pre ++ lstrip s chars ∧ Forall (.∈ chars) pre.
Proof.
  exists (take_run (λ c, bool_decide (c ∈ chars)) s). split.
  - unfold lstrip. by rewrite take_drop_run.
  - eapply Forall_impl; [apply take_run_Forall|]. intros c Hc.
    by apply bool_decide_eq_true in Hc.
Qed.

Lemma endswith_spec s suffix : endswith s suffix = true ↔ ∃ pre, s = pre ++ suffix.
Proof.
  unfold endswith. split.
  - intros H%startswith_inv. exists (reverse (drop (length (reverse suffix)) (reverse s))).
    rewrite <- (reverse_involutive suffix) at 2. rewrite <- reverse_app, <- H.
    by rewrite reverse_involutive.
  - intros [pre ->]. rewrite reverse_app. apply startswith_app.
Qed.

Lemma endswith_h_not_c f : endswith f (txt ".h") = true → endswith f (txt ".c") = false.
Proof.
  intros [pre ->]%endswith_spec. apply not_true_iff_false.
  intros [pre' H]%endswith_spec.
  apply (f_equal reverse) in H. rewrite !reverse_app in H. by injection H.
Qed.

Lemma filter_files_elem verbose_flag glob walk ext_tpl file_lst exclude_file_lst recurse f :
  f ∈ (filter_files verbose_flag glob walk ext_tpl file_lst exclude_file_lst recurse).1
  ↔ endswith f ext_tpl = true
    ∧ f ∈ (if recurse then walk_paths walk else file_lst).
Proof.
  unfold filter_files. cbn [fst]. rewrite sort_elements_elem.
  destruct recurse; rewrite elem_of_list_to_set, list_elem_of_filter,
    py_in_globbed, andb_true_r; done.
Qed.

Lemma filter_files_sorted verbose_flag glob walk ext_tpl file_lst exclude_file_lst recurse :
  StronglySorted (λ a b, text_leb a b = true)
    (filter_files verbose_flag glob walk ext_tpl file_lst exclude_file_lst recurse).1
  ∧ NoDup (filter_files verbose_flag glob walk ext_tpl file_lst exclude_file_lst recurse).1.
Proof.
  unfold filter_files. cbn [fst]. split; [apply sort_text_sorted|apply sort_elements_nodup].
Qed.

Lemma filter_files_indep verbose_flag glob walk ext_tpl file_lst exclude_file_lst recurse
    verbose_flag' glob' exclude_file_lst' :
  (filter_files verbose_flag' glob' walk ext_tpl file_lst exclude_file_lst' recurse).1
  = (filter_files verbose_flag glob walk ext_tpl file_lst exclude_file_lst recurse).1.
Proof.
  destruct (filter_files_sorted verbose_flag glob walk ext_tpl file_lst exclude_file_lst
              recurse) as [Hs Hn].
  destruct (filter_files_sorted verbose_flag' glob' walk ext_tpl file_lst
              exclude_file_lst' recurse) as [Hs' Hn'].
  apply sorted_text_unique; try done.
  intros x. by rewrite !filter_files_elem.
Qed.

Lemma filter_files_echo verbose_flag glob walk ext_tpl file_lst exclude_file_lst recurse :
  (filter_files verbose_flag glob walk ext_tpl file_lst exclude_file_lst recurse).2
  = if verbose_flag
    then (λ x, txt "Excluded: " ++ x) <$> default [] exclude_file_lst
    else [].
Proof.
  unfold filter_files, print_verbose. cbn [snd].
  destruct verbose_flag.
  - induction (default [] exclude_file_lst) as [|x l IH]; [done|].
    cbn [mbind list_bind fmap list_fmap app]. by rewrite <- IH.
  - induction (default [] exclude_file_lst) as [|x l IH]; [done|].
    cbn [mbind list_bind app]. exact IH.
Qed.

Lemma walk_paths_elem walk p :
  p ∈ walk_paths walk ↔
    ∃ relpath dirs files f,
      (relpath, dirs, files) ∈ walk ∧ f ∈ files
      ∧ p = lstrip (os_path_join relpath f) [chr 46; chr 47; BACKSLASH].
Proof.
  unfold walk_paths. rewrite list_elem_of_bind. split.
  - intros ([[relpath dirs] files] & (f & -> & Hf)%list_elem_of_fmap & Hw).
    by exists relpath, dirs, files, f.
  - intros (relpath & dirs & files & f & Hw & Hf & ->).
    exists (relpath, dirs, files). split; [|done].
    apply list_elem_of_fmap. by exists f.
Qed.

(** X14: [filter_files] returns a list in ascending order without
    repetition.  Without [recurse] it holds the paths of [file_lst] that
    end with the extension, with [recurse] the paths built from
    [os.walk] that end with it; those never start with a dot, a slash
    or a backslash, each being the joined path with its leading run of
    such characters cut off.  The exclusion list has no effect on the
    returned list: a path is looked up among the lists [glob] returned,
    not among their members.  Every exclusion pattern is echoed in
    verbose mode. *)
Theorem filter_files_spec (verbose_flag : bool) (glob : text → list text)
    (walk : list (text * list text * list text)) (ext_tpl : text)
    (file_lst : list text) (exclude_file_lst : option (list text)) (recurse : bool) :
  let res :=
    (filter_files verbose_flag glob walk ext_tpl file_lst exclude_file_lst recurse).1 in
  StronglySorted (λ a b, text_leb a b = true) res
  ∧ NoDup res
  ∧ (∀ f, f ∈ res ↔
       (∃ pre, f = pre ++ ext_tpl)
       ∧ if recurse
         then ∃ relpath dirs files name pre,
                (relpath, dirs, files) ∈ walk ∧ name ∈ files
                ∧ os_path_join relpath name = pre ++ f
                ∧ Forall (.∈ [chr 46; chr 47; BACKSLASH]) pre
                ∧ ∀ c, head f = Some c → c ∉ [chr 46; chr 47; BACKSLASH]
         else f ∈ file_lst)
  ∧ (∀ verbose_flag' glob' exclude_file_lst',
       (filter_files verbose_flag' glob' walk ext_tpl file_lst exclude_file_lst' recurse).1
       = res)
  ∧ (filter_files verbose_flag glob walk ext_tpl file_lst exclude_file_lst recurse).2
    = if verbose_flag
      then (λ x, txt "Excluded: " ++ x) <$> default [] exclude_file_lst
      else [].
Proof.
  intros res. subst res.
  destruct (filter_files_sorted verbose_flag glob walk ext_tpl file_lst exclude_file_lst
              recurse) as [Hs Hn].
  split; [done|]. split; [done|]. split; [|split].
  - intros f. rewrite filter_files_elem, endswith_spec.
    destruct recurse; [|done]. rewrite walk_paths_elem. split.
    + intros [He (relpath & dirs & files & name & Hw & Hf & ->)]. split; [done|].
      destruct (lstrip_suffix (os_path_join relpath name) [chr 46; chr 47; BACKSLASH])
        as (pre & Hp & Hpre).
      exists relpath, dirs, files, name, pre. do 4 (split; [done|]).
      intros c. apply lstrip_head.
    + intros [He (relpath & dirs & files & name & pre & Hw & Hf & Hj & Hpre & Hh)].
      split; [done|]. exists relpath, dirs, files, name. do 2 (split; [done|]).
      rewrite Hj. unfold lstrip.
      symmetry. apply (run_app (λ c, bool_decide (c ∈ [chr 46; chr 47; BACKSLASH]))).
      * eapply Forall_impl; [exact Hpre|]. intros c Hc. by apply bool_decide_eq_true.
      * intros c Hc. apply bool_decide_eq_false. by apply Hh.
  - intros verbose_flag' glob' exclude_file_lst'. apply filter_files_indep.
  - apply filter_files_echo.
Qed.

(** ** The entry point *)

Lemma read_sources_spec fs (a c_files : list text) :
  read_sources fs a c_files
  = (Source_of fs <$> c_files,
     (λ c, ASource (Source_of fs c)) <$> filter (.∈ a) c_files,
     Open <$> c_files).
Proof.
  unfold read_sources.
  enough (∀ acc,
    foldl (λ '(sources, analysis_files, evs) c,
      let cf := Source_read c (fs c) in
      (sources ++ [cf],
       if bool_decide (c ∈ a) then analysis_files ++ [ASource cf] else analysis_files,
       evs ++ [Open c])) acc c_files
    = (acc.1.1 ++ (Source_of fs <$> c_files),
       acc.1.2 ++ ((λ c, ASource (Source_of fs c)) <$> filter (.∈ a) c_files),
       acc.2 ++ (Open <$> c_files))) as H by (by rewrite H).
  induction c_files as [|c cs IH]; intros [[s0 a0] e0]; cbn [foldl fst snd].
  - by rewrite !app_nil_r.
  - rewrite IH. cbn [fst snd]. rewrite filter_cons. unfold Source_of at 2 4.
    destruct (decide (c ∈ a)) as [Hc|Hc].
    + rewrite bool_decide_eq_true_2 by done. cbn [fmap list_fmap].
      by rewrite <- !app_assoc.
    + rewrite bool_decide_eq_false_2 by done. cbn [fmap list_fmap].
      by rewrite <- !app_assoc.
Qed.

Lemma read_headers_spec py_is fs (a h_files : list text) :
  read_headers py_is fs a h_files
  = ((λ h, (Header_of py_is fs h).1) <$> h_files,
     (λ h, AHeader (Header_of py_is fs h).1) <$> filter (.∈ a) h_files,
     header_events py_is fs h_files).
Proof.
  unfold read_headers, header_events.
  enough (∀ acc,
    foldl (λ '(headers, analysis_files, evs) h,
      let '(hf, out) := create_tags py_is (Header_read h (fs h)) (fs (h ++ txt ".tags")) in
      (headers ++ [hf],
       if bool_decide (h ∈ a) then analysis_files ++ [AHeader hf] else analysis_files,
       evs ++ [Open h; Ctags h; Open (h ++ txt ".tags")] ++ (Print <$> out)))
      acc h_files
    = (acc.1.1 ++ ((λ h, (Header_of py_is fs h).1) <$> h_files),
       acc.1.2 ++ ((λ h, AHeader (Header_of py_is fs h).1) <$> filter (.∈ a) h_files),
       acc.2 ++ (h ← h_files;
                 [Open h; Ctags h; Open (h ++ txt ".tags")]
                 ++ (Print <$> (Header_of py_is fs h).2)))) as H by (by rewrite H).
  induction h_files as [|h hs IH]; intros [[s0 a0] e0]; cbn [foldl fst snd].
  - by rewrite !app_nil_r.
  - rewrite IH. rewrite filter_cons.
    destruct (decide (h ∈ a)) as [Hc|Hc];
      [rewrite bool_decide_eq_true_2 by done|rewrite bool_decide_eq_false_2 by done];
      cbn [fmap list_fmap mbind list_bind]; unfold Header_of;
      destruct (create_tags py_is (Header_read h (fs h)) (fs (h ++ txt ".tags"))) as [hf out];
      cbn [fst snd]; by rewrite <- !app_assoc.
Qed.

Lemma fmap_self {A} (f : A → A) (l : list A) : (∀ x, f x = x) → f <$> l = l.
Proof.
  intros Hf. induction l as [|x l IH]; [done|]. cbn [fmap list_fmap]. by rewrite Hf, IH.
Qed.

Lemma Source_of_filename fs c : Source.filename (Source_of fs c) = c.
Proof. done. Qed.

Lemma Header_of_filename py_is fs h : Header.filename (Header_of py_is fs h).1 = h.
Proof.
  unfold Header_of, create_tags.
  by destruct (foldl (create_tags_step py_is) _ _).
Qed.

Section Entry.
Variable iter : gset Header.t → list Header.t.
Variable iterS : gset Source.t → list Source.t.
Hypothesis iter_perm : ∀ X, iter X ≡ₚ elements X.
Hypothesis iterS_perm : ∀ X, iterS X ≡ₚ elements X.

Lemma report_of_total headers sources af :
  ∃ e, report_of iter iterS headers sources af = Some e.
Proof.
  destruct af as [s|h]; cbn [report_of].
  - destruct (Source_utility_rows iter iter_perm s headers) as (_ & _ & rows & -> & _).
    by eexists.
  - destruct (Header_utility_rows iter iterS iter_perm iterS_perm h headers sources)
      as (_ & _ & rows & -> & _).
    by eexists.
Qed.

Lemma report_spec headers sources analysis_files :
  ∃ reports,
    report iter iterS headers sources analysis_files = Some reports
    ∧ Forall2 (λ af e, report_of iter iterS headers sources af = Some e)
        analysis_files reports.
Proof.
  unfold report.
  enough (∀ evs0, ∃ reports,
    foldl (report_step iter iterS headers sources) (Some evs0) analysis_files
    = Some (evs0 ++ reports)
    ∧ Forall2 (λ af e, report_of iter iterS headers sources af = Some e)
        analysis_files reports) as H by apply (H []).
  induction analysis_files as [|af l IH]; intros evs0.
  - exists []. by rewrite app_nil_r.
  - destruct (report_of_total headers sources af) as [e He].
    cbn [foldl]. unfold report_step at 2.
    destruct af as [s|h]; cbn [report_of] in He.
    + destruct (Source_utility iter s headers) as [rows|] eqn:E; [|done].
      destruct (IH (evs0 ++ [Analysis (Source.filename s) (txt "HEADER:") rows]))
        as (reports & -> & HF).
      exists (e :: reports). rewrite <- app_assoc. injection He as <-.
      split; [done|]. constructor; [|done]. cbn [report_of]. by rewrite E.
    + destruct (Header_utility iter iterS h headers sources) as [rows|] eqn:E; [|done].
      destruct (IH (evs0 ++ [Analysis (Header.filename h) (txt "SOURCE:") rows]))
        as (reports & -> & HF).
      exists (e :: reports). rewrite <- app_assoc. injection He as <-.
      split; [done|]. constructor; [|done]. cbn [report_of]. by rewrite E.
Qed.

Lemma reports_subjects headers sources analysis_files reports :
  Forall2 (λ af e, report_of iter iterS headers sources af = Some e)
    analysis_files reports →
  subjects reports
  = (λ af, match af with
           | ASource s => Source.filename s
           | AHeader h => Header.filename h
           end) <$> analysis_files
  ∧ opened reports = [] ∧ tagged reports = [].
Proof.
  induction 1 as [|af e afs es He HF (IH1 & IH2 & IH3)]; [done|].
  destruct af as [s|h]; cbn [report_of] in He.
  - destruct (Source_utility iter s headers); [|done]. injection He as <-.
    unfold subjects, opened, tagged in *.
    cbn [omap list_omap fmap list_fmap]. by rewrite IH1, IH2, IH3.
  - destruct (Header_utility iter iterS h headers sources); [|done]. injection He as <-.
    unfold subjects, opened, tagged in *.
    cbn [omap list_omap fmap list_fmap]. by rewrite IH1, IH2, IH3.
Qed.

(** [main] on two non-empty lists. *)
Lemma main_runs py_is fs (a h_files c_files : list text) :
  h_files ≠ [] → c_files ≠ [] →
  ∃ reports,
    main py_is iter iterS fs a h_files c_files
    = Some (RetCode.OK, (Open <$> c_files) ++ header_events py_is fs h_files ++ reports)
    ∧ Forall2 (λ af e,
        report_of iter iterS ((λ h, (Header_of py_is fs h).1) <$> h_files)
          (Source_of fs <$> c_files) af = Some e)
        (((λ c, ASource (Source_of fs c)) <$> filter (.∈ a) c_files)
         ++ ((λ h, AHeader (Header_of py_is fs h).1) <$> filter (.∈ a) h_files))
        reports.
Proof.
  intros Hh Hc. unfold main.
  destruct h_files as [|h hs]; [done|]. destruct c_files as [|c cs]; [done|].
  rewrite read_sources_spec, read_headers_spec.
  destruct (report_spec ((λ h, (Header_of py_is fs h).1) <$> (h :: hs))
              (Source_of fs <$> (c :: cs))
              (((λ c, ASource (Source_of fs c)) <$> filter (.∈ a) (c :: cs))
               ++ ((λ h, AHeader (Header_of py_is fs h).1) <$> filter (.∈ a) (h :: hs))))
    as (reports & -> & HF).
  by exists reports.
Qed.

Lemma subjects_app e1 e2 : subjects (e1 ++ e2) = subjects e1 ++ subjects e2.
Proof. unfold subjects. apply omap_app. Qed.

Lemma opened_app e1 e2 : opened (e1 ++ e2) = opened e1 ++ opened e2.
Proof. unfold opened. apply omap_app. Qed.

Lemma tagged_app e1 e2 : tagged (e1 ++ e2) = tagged e1 ++ tagged e2.
Proof. unfold tagged. apply omap_app. Qed.

Lemma prints_silent (out : list text) :
  subjects (Print <$> out) = [] ∧ opened (Print <$> out) = []
  ∧ tagged (Print <$> out) = [].
Proof. induction out as [|x out (IH1 & IH2 & IH3)]; [done|]. done. Qed.

Lemma opens_silent (l : list text) :
  subjects (Open <$> l) = [] ∧ opened (Open <$> l) = l ∧ tagged (Open <$> l) = [].
Proof.
  induction l as [|x l (IH1 & IH2 & IH3)]; [done|].
  split; [done|]. split; [|done].
  unfold opened in *. cbn [fmap list_fmap omap list_omap]. by rewrite IH2.
Qed.

Lemma header_events_silent py_is fs h_files :
  subjects (header_events py_is fs h_files) = []
  ∧ opened (header_events py_is fs h_files) = (h ← h_files; [h; h ++ txt ".tags"])
  ∧ tagged (header_events py_is fs h_files) = h_files.
Proof.
  unfold header_events.
  induction h_files as [|h hs (IH1 & IH2 & IH3)]; [done|].
  cbn [mbind list_bind]. rewrite subjects_app, opened_app, tagged_app, IH1, IH2, IH3.
  rewrite subjects_app, opened_app, tagged_app.
  destruct (prints_silent (Header_of py_is fs h).2) as (-> & -> & ->). done.
Qed.

Lemma main_events py_is fs (a h_files c_files : list text) :
  h_files ≠ [] → c_files ≠ [] →
  ∃ evs,
    main py_is iter iterS fs a h_files c_files = Some (RetCode.OK, evs)
    ∧ subjects evs = filter (.∈ a) c_files ++ filter (.∈ a) h_files
    ∧ opened evs = c_files ++ (h ← h_files; [h; h ++ txt ".tags"])
    ∧ tagged evs = h_files.
Proof.
  intros Hh Hc. destruct (main_runs py_is fs a h_files c_files Hh Hc) as (reports & -> & HF).
  eexists. split; [done|].
  destruct (reports_subjects _ _ _ _ HF) as (Hs & Ho & Ht).
  destruct (opens_silent c_files) as (Hs1 & Ho1 & Ht1).
  destruct (header_events_silent py_is fs h_files) as (Hs2 & Ho2 & Ht2).
  rewrite !subjects_app, !opened_app, !tagged_app, Hs, Ho, Ht, Hs1, Ho1, Ht1, Hs2, Ho2, Ht2.
  rewrite !app_nil_r. cbn [app]. split; [|done].
  rewrite fmap_app, <- !list_fmap_compose. f_equal.
  - by apply fmap_self.
  - apply fmap_self. intros x. apply Header_of_filename.
Qed.
End Entry.

(** X15: when both lists [filter_files] returned are non-empty, [main]
    returns [RetCode.OK] after opening every source, then opening and
    tagging every header, and only then reporting.  There is one report
    per file of the two lists that is named in the analysis list, the
    sources first, each group in the order of its list; a name of the
    analysis list that is in neither list gets no report and no
    message.  Every report of a source is computed against all headers
    read, every report of a header against all headers and sources. *)
Theorem main_trace (py_is : identity) (iter : gset Header.t → list Header.t)
    (iterS : gset Source.t → list Source.t) (fs : text → text)
    (analysis_file_lst h_files c_files : list text) :
  (∀ X, iter X ≡ₚ elements X) →
  (∀ X, iterS X ≡ₚ elements X) →
  h_files ≠ [] → c_files ≠ [] →
  ∃ reports,
    main py_is iter iterS fs analysis_file_lst h_files c_files
    = Some (RetCode.OK, (Open <$> c_files) ++ header_events py_is fs h_files ++ reports)
    ∧ subjects reports
      = filter (.∈ analysis_file_lst) c_files ++ filter (.∈ analysis_file_lst) h_files
    ∧ length reports = length (subjects reports)
    ∧ tagged ((Open <$> c_files) ++ header_events py_is fs h_files ++ reports) = h_files
    ∧ opened ((Open <$> c_files) ++ header_events py_is fs h_files ++ reports)
      = c_files ++ (h ← h_files; [h; h ++ txt ".tags"])
    ∧ ∀ subject heading rows,
        Analysis subject heading rows ∈ reports →
        subject ∈ analysis_file_lst
        ∧ ((heading = txt "HEADER:" ∧ subject ∈ c_files
            ∧ Source_utility iter (Source_of fs subject)
                ((λ h, (Header_of py_is fs h).1) <$> h_files) = Some rows)
           ∨ (heading = txt "SOURCE:" ∧ subject ∈ h_files
              ∧ Header_utility iter iterS (Header_of py_is fs subject).1
                  ((λ h, (Header_of py_is fs h).1) <$> h_files)
                  (Source_of fs <$> c_files) = Some rows)).
Proof.
  intros Hiter HiterS Hh Hc.
  destruct (main_runs iter iterS Hiter HiterS py_is fs analysis_file_lst h_files c_files Hh Hc)
    as (reports & Hm & HF).
  exists reports. split; [done|].
  destruct (reports_subjects iter iterS _ _ _ _ HF) as (Hs & Ho & Ht).
  destruct (opens_silent c_files) as (Hs1 & Ho1 & Ht1).
  destruct (header_events_silent py_is fs h_files) as (Hs2 & Ho2 & Ht2).
  split; [|split; [|split; [|split]]].
  - rewrite Hs, fmap_app, <- !list_fmap_compose. f_equal.
    + by apply fmap_self.
    + apply fmap_self. intros x. apply Header_of_filename.
  - rewrite Hs, length_fmap. symmetry. by eapply Forall2_length.
  - by rewrite !tagged_app, Ht, Ht1, Ht2, app_nil_r.
  - by rewrite !opened_app, Ho, Ho1, Ho2, app_nil_r.
  - intros subject heading rows [i Hi]%list_elem_of_lookup.
    destruct (Forall2_lookup_r _ _ _ _ _ HF Hi) as (af & Haf & Hrep).
    apply list_elem_of_lookup_2 in Haf.
    apply elem_of_app in Haf as [Haf|Haf].
    + apply list_elem_of_fmap in Haf as (c & -> & [Hca Hcc]%list_elem_of_filter).
      cbn [report_of] in Hrep.
      destruct (Source_utility _ _ _) as [rows'|] eqn:E; [|done].
      injection Hrep as <- <- <-. split; [done|]. left. done.
    + apply list_elem_of_fmap in Haf as (h & -> & [Hha Hhh]%list_elem_of_filter).
      cbn [report_of] in Hrep.
      destruct (Header_utility _ _ _ _ _) as [rows'|] eqn:E; [|done].
      injection Hrep as Hn <- <-. rewrite Header_of_filename in Hn. subst subject.
      split; [done|]. right. done.
Qed.

Lemma main_trace_witness :
  ∃ reports,
    main cpython_3_11 elements elements (λ _, []) [txt "a.c"] [txt "a.h"] [txt "a.c"]
    = Some (RetCode.OK,
            (Open <$> [txt "a.c"]) ++ header_events cpython_3_11 (λ _, []) [txt "a.h"] ++ reports)
    ∧ subjects reports
      = filter (.∈ [txt "a.c"]) [txt "a.c"] ++ filter (.∈ [txt "a.c"]) [txt "a.h"].
Proof.
  destruct (main_trace cpython_3_11 elements elements (λ _, []) [txt "a.c"] [txt "a.h"] [txt "a.c"]
              (λ X, reflexivity _) (λ X, reflexivity _)) as (reports & H1 & H2 & _);
    [done|done|].
  exists reports. by split.
Defined.

(** ** The command line *)

Lemma universe_elem (fl al : list text) f :
  f ∈ elements ((list_to_set fl : gset text) ∪ list_to_set al) ↔ f ∈ fl ++ al.
Proof. rewrite elem_of_elements, elem_of_union, !elem_of_list_to_set, elem_of_app. done. Qed.

Lemma filter_files_args verbose_flag glob walk ext_tpl (fl al : list text) excl :
  (filter_files verbose_flag glob walk ext_tpl
     (elements ((list_to_set fl : gset text) ∪ list_to_set al)) excl false).1
  = sort_text (elements (list_to_set
      (filter (λ f, endswith f ext_tpl = true) (fl ++ al)) : gset text)).
Proof.
  destruct (filter_files_sorted verbose_flag glob walk ext_tpl
              (elements ((list_to_set fl : gset text) ∪ list_to_set al)) excl false)
    as [Hs Hn].
  apply sorted_text_unique; try done.
  - apply sort_text_sorted.
  - apply sort_elements_nodup.
  - intros x. rewrite filter_files_elem, sort_elements_elem, elem_of_list_to_set,
      list_elem_of_filter, universe_elem. done.
Qed.

Lemma sorted_set_nil (l : list text) :
  sort_text (elements (list_to_set l : gset text)) = [] ↔ l = [].
Proof.
  split.
  - intros H. destruct l as [|x l]; [done|]. exfalso.
    assert (x ∈ sort_text (elements (list_to_set (x :: l) : gset text))) as Hx.
    { rewrite sort_elements_elem, elem_of_list_to_set. by left. }
    rewrite H in Hx. by apply elem_of_nil in Hx.
  - intros ->. by rewrite list_to_set_nil, elements_empty.
Qed.

Lemma filter_nil_iff {A} (P : A → Prop) `{!∀ x, Decision (P x)} (l : list A) :
  filter P l = [] ↔ ∀ x, x ∈ l → ¬ P x.
Proof.
  split.
  - intros Hnil x Hx HP. assert (x ∈ filter P l) as Hf by (by apply list_elem_of_filter).
    rewrite Hnil in Hf. by apply elem_of_nil in Hf.
  - intros Hall. destruct (filter P l) as [|x l'] eqn:E; [done|]. exfalso.
    assert (x ∈ filter P l) as [HP Hx]%list_elem_of_filter by (rewrite E; by left).
    by apply (Hall x).
Qed.

Lemma analysed_files (ext_tpl : text) (fl al : list text) :
  filter (.∈ elements (list_to_set al : gset text))
    (sort_text (elements (list_to_set
       (filter (λ f, endswith f ext_tpl = true) (fl ++ al)) : gset text)))
  = sort_text (elements (list_to_set
      (filter (λ f, endswith f ext_tpl = true) al) : gset text)).
Proof.
  apply sorted_text_unique.
  - apply sorted_filter, sort_text_sorted.
  - apply sort_text_sorted.
  - apply NoDup_filter, sort_elements_nodup.
  - apply sort_elements_nodup.
  - intros x. rewrite list_elem_of_filter, !sort_elements_elem, elem_of_elements,
      !elem_of_list_to_set, !list_elem_of_filter, elem_of_app. naive_solver.
Qed.

(** X16: [main] from the command line.  Without [-a] or without [-f]
    it ends in a [TypeError] before anything is printed.  With both and
    without [-r]: when no path of the two options ends with [.h], or
    none ends with [.c], it prints the matching error and returns
    [RetCode.ERROR]; otherwise it returns [RetCode.OK] and reports on
    exactly the analysis paths that end with [.c] and then those that
    end with [.h], each once and each group in ascending order.  The
    analysis paths are part of the universe, every header of which is
    tagged.  In verbose mode every exclusion pattern is echoed twice;
    the exclusions change nothing else. *)
Theorem main_args_spec (py_is : identity) (iter : gset Header.t → list Header.t)
    (iterS : gset Source.t → list Source.t) (fs : text → text)
    (glob : text → list text) (walk : list (text * list text * list text))
    (args : Args.t) :
  (∀ X, iter X ≡ₚ elements X) →
  (∀ X, iterS X ≡ₚ elements X) →
  (Args.analysis_lst args = None ∨ Args.file_lst args = None →
     main_args py_is iter iterS fs glob walk args = Some (TypeError, []))
  ∧ ∀ al fl,
      Args.analysis_lst args = Some al → Args.file_lst args = Some fl →
      Args.recursive args = false →
      let echo :=
        if Args.verbose args
        then (λ x, txt "Excluded: " ++ x) <$> default [] (Args.exclude_lst args)
        else [] in
      let sorted_set (l : list text) := sort_text (elements (list_to_set l : gset text)) in
      let with_ext (e : text) (l : list text) := filter (λ f, endswith f e = true) l in
      ((∀ f, f ∈ fl ++ al → endswith f (txt ".h") = false) →
         main_args py_is iter iterS fs glob walk args
         = Some (Exit RetCode.ERROR,
                 (Print <$> echo ++ echo)
                 ++ [Print (print_error (txt "No header files specified."))]))
      ∧ ((∃ f, f ∈ fl ++ al ∧ endswith f (txt ".h") = true) →
         (∀ f, f ∈ fl ++ al → endswith f (txt ".c") = false) →
         main_args py_is iter iterS fs glob walk args
         = Some (Exit RetCode.ERROR,
                 (Print <$> echo ++ echo)
                 ++ [Print (print_error (txt "No source files specified."))]))
      ∧ ((∃ f, f ∈ fl ++ al ∧ endswith f (txt ".h") = true) →
         (∃ f, f ∈ fl ++ al ∧ endswith f (txt ".c") = true) →
         ∃ evs,
           main_args py_is iter iterS fs glob walk args
           = Some (Exit RetCode.OK, (Print <$> echo ++ echo) ++ evs)
           ∧ subjects evs
             = sorted_set (with_ext (txt ".c") al) ++ sorted_set (with_ext (txt ".h") al)
           ∧ tagged evs = sorted_set (with_ext (txt ".h") (fl ++ al))
           ∧ opened evs
             = sorted_set (with_ext (txt ".c") (fl ++ al))
               ++ (h ← sorted_set (with_ext (txt ".h") (fl ++ al));
                   [h; h ++ txt ".tags"])).
Proof.
  intros Hiter HiterS. split.
  - unfold main_args. intros [-> | ->]; [done|]. by destruct (Args.analysis_lst args).
  - intros al fl Hal Hfl Hrec echo sorted_set with_ext.
    unfold main_args. rewrite Hal, Hfl, Hrec.
    pose proof (filter_files_args (Args.verbose args) glob walk (txt ".h") fl al
                  (Args.exclude_lst args)) as Hh.
    pose proof (filter_files_args (Args.verbose args) glob walk (txt ".c") fl al
                  (Args.exclude_lst args)) as Hc.
    pose proof (filter_files_echo (Args.verbose args) glob walk (txt ".h")
                  (elements ((list_to_set fl : gset text) ∪ list_to_set al))
                  (Args.exclude_lst args) false) as Hoh.
    pose proof (filter_files_echo (Args.verbose args) glob walk (txt ".c")
                  (elements ((list_to_set fl : gset text) ∪ list_to_set al))
                  (Args.exclude_lst args) false) as Hoc.
    destruct (filter_files (Args.verbose args) glob walk (txt ".h") _ _ false)
      as [h_files out_h].
    destruct (filter_files (Args.verbose args) glob walk (txt ".c") _ _ false)
      as [c_files out_c].
    cbn [fst snd] in Hh, Hc, Hoh, Hoc. fold echo in Hoh, Hoc. subst out_h out_c.
    fold (with_ext (txt ".h") (fl ++ al)) in Hh. fold (sorted_set (with_ext (txt ".h") (fl ++ al))) in Hh.
    fold (with_ext (txt ".c") (fl ++ al)) in Hc. fold (sorted_set (with_ext (txt ".c") (fl ++ al))) in Hc.
    assert (h_files = [] ↔ ∀ f, f ∈ fl ++ al → endswith f (txt ".h") = false) as Hhn.
    { rewrite Hh. unfold sorted_set, with_ext. rewrite sorted_set_nil, filter_nil_iff.
      split; intros H f Hf; [by apply not_true_iff_false, H|by apply not_true_iff_false, H]. }
    assert (c_files = [] ↔ ∀ f, f ∈ fl ++ al → endswith f (txt ".c") = false) as Hcn.
    { rewrite Hc. unfold sorted_set, with_ext. rewrite sorted_set_nil, filter_nil_iff.
      split; intros H f Hf; [by apply not_true_iff_false, H|by apply not_true_iff_false, H]. }
    split; [|split].
    + intros Hno. apply Hhn in Hno. rewrite Hno. reflexivity.
    + intros (f & Hf & He) Hno. apply Hcn in Hno. rewrite Hno.
      destruct h_files as [|h hs]; [|reflexivity].
      exfalso. rewrite (proj1 Hhn eq_refl f Hf) in He. done.
    + intros (f & Hf & He) (g & Hg & Hge).
      assert (h_files ≠ []) as Hh0.
      { intros H0. rewrite (proj1 Hhn H0 f Hf) in He. done. }
      assert (c_files ≠ []) as Hc0.
      { intros H0. rewrite (proj1 Hcn H0 g Hg) in Hge. done. }
      destruct (main_events iter iterS Hiter HiterS py_is fs
                  (elements (list_to_set al : gset text)) h_files c_files Hh0 Hc0)
        as (evs & -> & Hs & Ho & Ht).
      exists evs. split; [done|]. rewrite Hs, Ho, Ht. split; [|by rewrite Hh, Hc].
      rewrite Hh, Hc. unfold sorted_set, with_ext. by rewrite !analysed_files.
Qed.

Lemma main_args_spec_witness :
  ∃ evs,
    main_args cpython_3_11 elements elements (λ _, []) (λ _, []) []
      (Args.mk (Some [txt "a.c"]) (Some [txt "a.h"]) false false None)
    = Some (Exit RetCode.OK, evs)
    ∧ subjects evs
      = sort_text (elements (list_to_set
          (filter (λ f, endswith f (txt ".c") = true) [txt "a.c"]) : gset text))
        ++ sort_text (elements (list_to_set
          (filter (λ f, endswith f (txt ".h") = true) [txt "a.c"]) : gset text)).
Proof.
  destruct (proj2 (main_args_spec cpython_3_11 elements elements (λ _, []) (λ _, []) []
              (Args.mk (Some [txt "a.c"]) (Some [txt "a.h"]) false false None)
              (λ X, reflexivity _) (λ X, reflexivity _))
              [txt "a.c"] [txt "a.h"] eq_refl eq_refl eq_refl) as (_ & _ & Hok).
  destruct Hok as (evs & Hm & Hs & _).
  - exists (txt "a.h"). split; [apply list_elem_of_here|reflexivity].
  - exists (txt "a.c"). split; [apply list_elem_of_further, list_elem_of_here|reflexivity].
  - exists evs. split; [exact Hm|exact Hs].
Defined.

(** ** What the include parser reports and what it passes over *)

Lemma is_directive_starts s name rest :
  is_directive s name rest → startswith s (txt "#include") = true.
Proof. intros (ws & opens & closes & -> & _). apply startswith_app. Qed.

Lemma parse_includes_skip_run pre rest :
  Forall (λ x, x ≠ "#"%char) pre → parse_includes (pre ++ rest) = parse_includes rest.
Proof.
  induction 1 as [|c pre Hc _ IH]; [done|]. cbn [app].
  rewrite parse_includes_skip; [done|].
  intros name rest' Hd%is_directive_starts. cbn in Hd.
  apply andb_true_iff in Hd as [Hd _]. by apply Ascii.eqb_eq in Hd.
Qed.

Lemma parse_includes_none s :
  occurs (txt "#include") s = false → parse_includes s = [].
Proof.
  induction s as [|c s IH]; [done|]. cbn [occurs].
  intros [Hs Ho]%orb_false_iff. rewrite parse_includes_skip; [by apply IH|].
  intros name rest Hd%is_directive_starts. by rewrite Hd in Hs.
Qed.

Lemma parse_includes_found s n :
  n ∈ parse_includes s → ∃ pre d rest, s = pre ++ d ∧ is_directive d n rest.
Proof.
  by_length s IH. destruct s as [|c s]; [by intros ?%elem_of_nil|].
  destruct (directive (c :: s)) as [[name rest]|] eqn:E.
  - apply directive_spec in E.
    rewrite (parse_includes_directive _ _ _ E).
    intros [->|Hn]%elem_of_cons.
    + by exists [], (c :: s), rest.
    + destruct (is_directive_shorter _ _ _ E) as (pre0 & Hpre0 & Hs).
      destruct (IH rest) as (pre & d & rest' & -> & Hd); [|done|].
      { rewrite Hs, length_app. destruct pre0; [done|]. simpl. lia. }
      exists (pre0 ++ pre), d, rest'. by rewrite <- app_assoc.
  - rewrite parse_includes_skip.
    + intros Hn. destruct (IH s) as (pre & d & rest' & -> & Hd); [simpl; lia|done|].
      by exists (c :: pre), d, rest'.
    + intros name rest Hd%directive_spec. by rewrite Hd in E.
Qed.

Lemma directive_tail_broken opens a c rest :
  is_run open_delim opens → Forall (λ x, fname_char x = true) a →
  open_delim c = false → fname_char c = false → close_delim c = false →
  directive_tail (opens ++ a ++ c :: rest) = None.
Proof.
  intros Ho Ha Hco Hcf Hcc. unfold directive_tail.
  assert (plus_run open_delim (opens ++ a ++ c :: rest) = Some (opens, a ++ c :: rest))
    as ->.
  { apply plus_run_spec. split; [done|]. split; [done|].
    intros x. destruct a as [|y a]; cbn [app head]; intros [= <-]; [done|].
    apply Forall_cons in Ha as [Hy _].
    destruct (open_delim y) eqn:Hoy; [|done]. apply class_open_fname in Hoy. congruence. }
  destruct a as [|y a].
  - cbn [app]. by rewrite plus_run_not.
  - assert (plus_run fname_char ((y :: a) ++ c :: rest) = Some (y :: a, c :: rest)) as ->.
    { apply plus_run_spec. split; [done|]. split; [done|]. by intros x [= <-]. }
    by rewrite plus_run_not.
Qed.

(** X17: every name the include parser reports is a non-empty run of
    word characters (the letters, digits and underscore of [\w]),
    hyphens and dots, holds no path separator, and is the name of a
    directive that stands somewhere in the text; a text without
    [#include] gives no name.  A directive
    whose name is cut short by a character that is neither a file name
    character nor a delimiter (a slash of a directory part, a space) is
    passed over without a name, and the scan goes on behind that
    character. *)
Theorem include_names :
  (∀ s n, n ∈ parse_includes s →
     is_run fname_char n ∧ (os_path_sep ∉ n)
     ∧ ∃ pre d rest, s = pre ++ d ∧ is_directive d n rest)
  ∧ (∀ s, occurs (txt "#include") s = false → parse_includes s = [])
  ∧ (∀ ws opens a c rest,
       (ws = [] ∨ ∃ w, ws = [w] ∧ is_space w = true) →
       is_run open_delim opens → Forall (λ x, fname_char x = true) a →
       open_delim c = false → fname_char c = false → close_delim c = false →
       c ≠ "#"%char →
       parse_includes (txt "#include" ++ ws ++ opens ++ a ++ c :: rest)
       = parse_includes rest).
Proof.
  split; [|split].
  - intros s n Hn. destruct (parse_includes_found s n Hn) as (pre & d & rest & -> & Hd).
    pose proof Hd as (ws & opens & closes & _ & _ & _ & Hname & _).
    split; [done|]. split; [|by exists pre, d, rest].
    intros Hin. destruct Hname as [_ Hall]. rewrite Forall_forall in Hall.
    by apply Hall in Hin.
  - apply parse_includes_none.
  - intros ws opens a c rest Hws Ho Ha Hco Hcf Hcc Hc.
    change (txt "#include") with ("#"%char :: txt "include"). cbn [app].
    rewrite parse_includes_skip.
    + rewrite (app_assoc ws), (app_assoc (ws ++ opens)), (app_assoc (txt "include")).
      change (c :: rest) with ([c] ++ rest).
      rewrite (app_assoc _ [c]). apply parse_includes_skip_run.
      rewrite !Forall_app. repeat split.
      * by repeat constructor.
      * destruct Hws as [->|(w & -> & Hw)]; [done|].
        constructor; [|done]. by intros ->.
      * destruct Ho as [_ Ho]. eapply Forall_impl; [exact Ho|]. by intros x Hx ->.
      * eapply Forall_impl; [exact Ha|]. by intros x Hx ->.
      * by constructor.
    + intros name rest' Hd%directive_spec.
      change ("#"%char :: txt "include" ++ ws ++ opens ++ a ++ c :: rest)
        with (txt "#include" ++ ws ++ opens ++ a ++ c :: rest) in Hd.
      unfold directive in Hd. rewrite startswith_app in Hd.
      change 8 with (length (txt "#include")) in Hd. rewrite drop_app_length in Hd.
      destruct Hws as [->|(w & -> & Hw)].
      * cbn [app] in Hd. pose proof Ho as [Hne Hall].
        destruct opens as [|o opens]; [done|]. cbn [app] in Hd.
        apply Forall_cons in Hall as [Hoo _].
        destruct (is_space o) eqn:Hso; [apply class_space_open in Hso; congruence|].
        change (o :: opens ++ a ++ c :: rest) with ((o :: opens) ++ a ++ c :: rest) in Hd.
        by rewrite directive_tail_broken in Hd.
      * cbn [app] in Hd. rewrite Hw in Hd. by rewrite directive_tail_broken in Hd.
Qed.

Lemma include_names_witness :
  parse_includes (txt "#include" ++ [] ++ txt "<" ++ txt "sys" ++ "/"%char :: txt "types.h>")
  = parse_includes (txt "types.h>").
Proof.
  apply (proj2 (proj2 include_names)).
  - by left.
  - split; [done|]. by repeat constructor.
  - by repeat constructor.
  - reflexivity.
  - reflexivity.
  - reflexivity.
  - done.
Defined.

(** ** The two reports agree *)

Lemma Source_rows_names iter (iter_perm : ∀ X, iter X ≡ₚ elements X)
    (self : Source.t) (header_lst : list Header.t) :
  ∃ rows, Source_utility iter self header_lst = Some rows
    ∧ ∀ n, n ∈ Entry.filename <$> rows ↔
        ∃ h, reachable (list_to_set header_lst) (Source.include_lst self) h
             ∧ Header.filename h = n.
Proof.
  destruct (Source_utility_eq iter iter_perm self header_lst)
    as (closure & _ & Hreach & ->).
  eexists. split; [done|]. intros n.
  rewrite sorted_desc_perm, <- list_fmap_compose, iter_perm, list_elem_of_fmap.
  split.
  - intros (h & -> & Hh%elem_of_elements). exists h. split; [by apply Hreach|done].
  - intros (h & Hh & <-). exists h. split; [done|]. by apply elem_of_elements, Hreach.
Qed.

Lemma Header_rows_names iter iterS (iter_perm : ∀ X, iter X ≡ₚ elements X)
    (iterS_perm : ∀ X, iterS X ≡ₚ elements X)
    (self : Header.t) (header_lst : list Header.t) (source_lst : list Source.t) :
  ∃ rows, Header_utility iter iterS self header_lst source_lst = Some rows
    ∧ ∀ n, n ∈ Entry.filename <$> rows ↔
        ∃ s, s ∈ source_lst ∧ Source.filename s = n
             ∧ ∃ sh, reachable (list_to_set header_lst) (Source.include_lst s) sh
                     ∧ Header.filename sh = Header.filename self.
Proof.
  destruct (Header_utility_eq iter iterS iter_perm iterS_perm self header_lst source_lst)
    as (users & _ & Hreach & ->).
  eexists. split; [done|]. intros n.
  rewrite sorted_desc_perm, <- list_fmap_compose, iterS_perm, list_elem_of_fmap.
  split.
  - intros (s & -> & Hs%elem_of_elements). apply Hreach in Hs as [Hs Hsh].
    by exists s.
  - intros (s & Hs & <- & Hsh). exists s. split; [done|].
    apply elem_of_elements, Hreach. by split.
Qed.

(** X18: the two reports agree.  When the report of a source of the
    universe holds a row for a header's file name, the report of that
    header holds a row for the source's file name; when no two sources
    of the universe share a file name, the converse holds as well. *)
Theorem reports_agree
    (iter : gset Header.t → list Header.t) (iterS : gset Source.t → list Source.t)
    (src : Source.t) (hdr : Header.t)
    (header_lst : list Header.t) (source_lst : list Source.t) :
  (∀ X, iter X ≡ₚ elements X) →
  (∀ X, iterS X ≡ₚ elements X) →
  src ∈ source_lst →
  ∃ rows_s rows_h,
    Source_utility iter src header_lst = Some rows_s
    ∧ Header_utility iter iterS hdr header_lst source_lst = Some rows_h
    ∧ (Header.filename hdr ∈ Entry.filename <$> rows_s →
       Source.filename src ∈ Entry.filename <$> rows_h)
    ∧ ((∀ s, s ∈ source_lst → Source.filename s = Source.filename src → s = src) →
       Source.filename src ∈ Entry.filename <$> rows_h →
       Header.filename hdr ∈ Entry.filename <$> rows_s).
Proof.
  intros Hiter HiterS Hsrc.
  destruct (Source_rows_names iter Hiter src header_lst) as (rows_s & Hs & Hns).
  destruct (Header_rows_names iter iterS Hiter HiterS hdr header_lst source_lst)
    as (rows_h & Hh & Hnh).
  exists rows_s, rows_h. split; [done|]. split; [done|]. split.
  - intros (h & Hreach & Hn)%Hns. apply Hnh. exists src. split; [done|]. split; [done|].
    by exists h.
  - intros Huniq (s & Hsin & Hn & sh & Hreach & Hfn)%Hnh.
    apply Huniq in Hn as ->; [|done]. apply Hns. by exists sh.
Qed.

Lemma reports_agree_witness :
  ∃ rows_s rows_h,
    Source_utility elements ex_src [ex_hdr] = Some rows_s
    ∧ Header_utility elements elements ex_hdr [ex_hdr] [ex_src] = Some rows_h
    ∧ (Header.filename ex_hdr ∈ Entry.filename <$> rows_s →
       Source.filename ex_src ∈ Entry.filename <$> rows_h).
Proof.
  destruct (reports_agree elements elements ex_src ex_hdr [ex_hdr] [ex_src]
              (λ X, reflexivity _) (λ X, reflexivity _))
    as (rows_s & rows_h & H1 & H2 & H3 & _).
  - apply list_elem_of_here.
  - exists rows_s, rows_h. split; [exact H1|]. split; [exact H2|exact H3].
Defined.
